(** * A capacity-bounded quadtree over axis-aligned boxes

    Shallow embedding of [src/quadtree.h] (namespace [nc]) and the
    properties of its specification.

    Modelling choices.
    - The coordinate type [T] is a template parameter; it is instantiated
      here at the mathematical integers [Z].  [/ (T)2] is C++ integer
      division, which truncates towards zero: [Z.quot].
    - [size_t] values ([object_count], [level], [_Capacity]) are [nat]:
      [object_count] stays within [0 .. _Capacity] and [level] is the depth
      of a node, so the 64-bit wrap-around is never reached.  Object ids are
      [N].
    - [has_children] and the [children] vector are one piece of data: a node
      is either a [Leaf] or a [Quad] with exactly [kChildren = 4] children.
    - The parent pointer [root] is not stored.  It is only read by
      [resolve_max_bounds], to repeat the recomputation at every ancestor.
      In the embedding the recursion of [insert] and [remove] plays the role
      of that chain: each enclosing call re-resolves its node as soon as the
      child call reports the success that started the upward walk.
    - The constructor [QuadTree(const QuadTreeAABB<T>&)] leaves [max_bounds]
      uninitialised.  Its content is the section variable [uninit]; the
      theorems hold for every value of it.
    - Nodes are owned by [std::shared_ptr], as [shared_from_this] in [split]
      requires; the tree an operation is called on is the root, whose [root]
      pointer is null. *)

From Stdlib Require Import ZArith NArith List Bool Lia PeanoNat.
Import ListNotations.

(** ** [struct QuadTreeAABB] *)

Module QuadTreeAABB.

Record t : Type := mk {
  left : Z; top : Z; right : Z; bottom : Z;
  x : Z; y : Z;
  width : Z; height : Z
}.

Definition set_dimensions (a : t) : t :=
  mk (left a) (top a) (right a) (bottom a) (x a) (y a)
     (bottom a - top a)%Z (right a - left a)%Z.

Definition set_center (a : t) : t :=
  mk (left a) (top a) (right a) (bottom a)
     (Z.quot (left a + right a) 2) (Z.quot (top a + bottom a) 2)
     (width a) (height a).

Definition verify (a : t) : bool :=
  (left a <? right a)%Z && (top a <? bottom a)%Z.

Definition intersects (a other : t) : bool :=
  (left a <? right other)%Z && (right a >? left other)%Z &&
  (top a <? bottom other)%Z && (bottom a >? top other)%Z.

Definition contains (a : t) (px py : Z) : bool :=
  (px >? left a)%Z && (px <? right a)%Z && (py >? top a)%Z && (py <? bottom a)%Z.

(** The value-initialised box of a default-constructed object slot. *)
Definition zero : t := mk 0 0 0 0 0 0 0 0.

(** [covers a b]: the box [a] contains the box [b], edge by edge. *)
Definition covers (a b : t) : Prop :=
  (left a <= left b)%Z /\ (top a <= top b)%Z /\
  (right b <= right a)%Z /\ (bottom b <= bottom a)%Z.

Definition coversb (a b : t) : bool :=
  (left a <=? left b)%Z && (top a <=? top b)%Z &&
  (right b <=? right a)%Z && (bottom b <=? bottom a)%Z.

(** Closed-box membership of a point, used to state that quadrants leave
    no gap. *)
Definition holds (a : t) (px py : Z) : Prop :=
  (left a <= px <= right a)%Z /\ (top a <= py <= bottom a)%Z.

Definition area (a : t) : Z := ((right a - left a) * (bottom a - top a))%Z.

End QuadTreeAABB.

(** ** [struct QuadTreeObject] *)

Module QuadTreeObject.

Record t : Type := mk {
  bounds : QuadTreeAABB.t;
  user_data : N;
  removed : bool;
  id : N
}.

(** A slot as [objects.resize(_Capacity)] creates it. *)
Definition empty : t := mk QuadTreeAABB.zero 0%N true 0%N.

(** What [insert] writes into a slot: the three copied fields, live. *)
Definition stored (o : t) : t := mk (bounds o) (user_data o) false (id o).

(** What [remove] leaves in a slot. *)
Definition tombstone (s : t) : t := mk (bounds s) (user_data s) true (id s).

End QuadTreeObject.

Abbreviation AABB := QuadTreeAABB.t.
Abbreviation Obj := QuadTreeObject.t.

(** ** [class QuadTree] *)

Record node : Type := mkNode {
  bounds : AABB;
  max_bounds : AABB;
  object_count : nat;
  objects : list Obj;
  level : nat
}.

Inductive QuadTree : Type :=
| Leaf (d : node)
| Quad (d : node) (c0 c1 c2 c3 : QuadTree).

Definition data (t : QuadTree) : node :=
  match t with Leaf d => d | Quad d _ _ _ _ => d end.

Definition has_children_ (t : QuadTree) : bool :=
  match t with Leaf _ => false | Quad _ _ _ _ _ => true end.

Definition get_children (t : QuadTree) : list QuadTree :=
  match t with Leaf _ => [] | Quad _ c0 c1 c2 c3 => [c0; c1; c2; c3] end.

Definition get_bounds (t : QuadTree) : AABB := bounds (data t).

Definition with_data (d : node) (t : QuadTree) : QuadTree :=
  match t with Leaf _ => Leaf d | Quad _ c0 c1 c2 c3 => Quad d c0 c1 c2 c3 end.

Fixpoint get_total_objects (t : QuadTree) : nat :=
  match t with
  | Leaf d => object_count d
  | Quad d c0 c1 c2 c3 =>
      object_count d +
      (get_total_objects c0 + get_total_objects c1 +
       get_total_objects c2 + get_total_objects c3)
  end.

(** [merge]: the children are merged first, then the vector is cleared. *)
Fixpoint merge (t : QuadTree) : QuadTree :=
  match t with
  | Leaf d => Leaf d
  | Quad d c0 c1 c2 c3 =>
      let _ := (merge c0, merge c1, merge c2, merge c3) in
      Leaf d
  end.

Fixpoint remove_empty_nodes (t : QuadTree) : QuadTree :=
  match t with
  | Leaf d => Leaf d
  | Quad d c0 c1 c2 c3 =>
      let t' := Quad d (remove_empty_nodes c0) (remove_empty_nodes c1)
                       (remove_empty_nodes c2) (remove_empty_nodes c3) in
      if get_total_objects t' <? 1 then merge t' else t'
  end.

(** *** [resolve_max_bounds] *)

(** One round of the slot loop.  The four edges are computed from the
    static [bounds] [b], not from the running value [m]. *)
Definition cover_object (b m : AABB) (s : Obj) : AABB :=
  if QuadTreeObject.removed s then m
  else
    let o := QuadTreeObject.bounds s in
    let m' := QuadTreeAABB.mk
                (Z.min (QuadTreeAABB.left b) (QuadTreeAABB.left o))
                (Z.min (QuadTreeAABB.top b) (QuadTreeAABB.top o))
                (Z.max (QuadTreeAABB.right b) (QuadTreeAABB.right o))
                (Z.max (QuadTreeAABB.bottom b) (QuadTreeAABB.bottom o))
                (QuadTreeAABB.x m) (QuadTreeAABB.y m)
                (QuadTreeAABB.width m) (QuadTreeAABB.height m) in
    if QuadTreeAABB.verify m' then m' else b.

(** One round of the child loop, which accumulates on [m]. *)
Definition cover_child (b m c : AABB) : AABB :=
  let m' := QuadTreeAABB.mk
              (Z.min (QuadTreeAABB.left m) (QuadTreeAABB.left c))
              (Z.min (QuadTreeAABB.top m) (QuadTreeAABB.top c))
              (Z.max (QuadTreeAABB.right m) (QuadTreeAABB.right c))
              (Z.max (QuadTreeAABB.bottom m) (QuadTreeAABB.bottom c))
              (QuadTreeAABB.x m) (QuadTreeAABB.y m)
              (QuadTreeAABB.width m) (QuadTreeAABB.height m) in
  if QuadTreeAABB.verify m' then m' else b.

Definition set_max_bounds (d : node) (m : AABB) : node :=
  mkNode (bounds d) m (object_count d) (objects d) (level d).

(** The body of [resolve_max_bounds] at one node, up to the call on the
    parent. *)
Definition resolve_max_bounds (t : QuadTree) : QuadTree :=
  let d := data t in
  let b := bounds d in
  let m1 := fold_left (cover_object b) (objects d) b in
  let m2 := fold_left (cover_child b)
                      (map (fun c => max_bounds (data c)) (get_children t)) m1 in
  with_data (set_max_bounds d m2) t.

Arguments resolve_max_bounds : simpl never.

(** *** Slot loops of [insert] and [remove] *)

(** First slot with [removed] set receives the object. *)
Fixpoint insert_slot (objs : list Obj) (o : Obj) : option (list Obj) :=
  match objs with
  | [] => None
  | s :: rest =>
      if QuadTreeObject.removed s then Some (QuadTreeObject.stored o :: rest)
      else option_map (cons s) (insert_slot rest o)
  end.

(** First live slot with the id is tombstoned. *)
Fixpoint remove_slot (objs : list Obj) (i : N) : option (list Obj) :=
  match objs with
  | [] => None
  | s :: rest =>
      if negb (QuadTreeObject.removed s) && (QuadTreeObject.id s =? i)%N
      then Some (QuadTreeObject.tombstone s :: rest)
      else option_map (cons s) (remove_slot rest i)
  end.

Definition set_slots (d : node) (objs : list Obj) (n : nat) : node :=
  mkNode (bounds d) (max_bounds d) n objs (level d).

(** *** Results of the two mutating operations *)

(** [insert] returns a [bool], throws [std::out_of_range], or recurses
    without end; the tree is carried along, since a throw leaves the
    subdivision behind. *)
Inductive insert_result : Type :=
| Ret (b : bool) (t : QuadTree)
| Throw (t : QuadTree)
| Diverge.

(** [remove] returns a [bool], or control flows off the end of the
    function: the path through a node whose [bounds] intersect, whose scan
    finds nothing and that has no children ends at the closing brace of
    the outer [if] with no [return] statement.  No value is returned
    there, and nothing is known of a caller that reads one, so [NoReturn]
    ends the [&&] chain of the parent as well. *)
Inductive remove_result : Type :=
| RRet (b : bool) (t : QuadTree)
| NoReturn.

Definition tree_of (r : insert_result) : option QuadTree :=
  match r with Ret _ t => Some t | Throw t => Some t | Diverge => None end.

(** One operand [!children[i]->insert(_Object)] of the [&&] chain. [ctx]
    puts the child back; [next] is the rest of the chain.  A child that
    answers [true] has called [resolve_max_bounds], whose walk towards the
    root passes through this node: the node is resolved once the child is
    back in place. *)
Definition insert_child (r : insert_result) (ctx : QuadTree -> QuadTree)
    (next : QuadTree -> insert_result) : insert_result :=
  match r with
  | Ret true c => Ret true (resolve_max_bounds (ctx c))
  | Ret false c => next c
  | Throw c => Throw (ctx c)
  | Diverge => Diverge
  end.

Definition remove_child (r : remove_result) (ctx : QuadTree -> QuadTree)
    (next : QuadTree -> remove_result) : remove_result :=
  match r with
  | RRet true c => RRet true (resolve_max_bounds (ctx c))
  | RRet false c => next c
  | NoReturn => NoReturn
  end.

(** The slot scan of [remove], guarded by [object_count > 0]. *)
Definition remove_here (d : node) (i : N) : option node :=
  if 0 <? object_count d then
    match remove_slot (objects d) i with
    | Some objs => Some (set_slots d objs (object_count d - 1))
    | None => None
    end
  else None.

Fixpoint remove (t : QuadTree) (o : Obj) : remove_result :=
  match t with
  | Leaf d =>
      if QuadTreeAABB.intersects (bounds d) (QuadTreeObject.bounds o) then
        match remove_here d (QuadTreeObject.id o) with
        | Some d' => RRet true (resolve_max_bounds (remove_empty_nodes (Leaf d')))
        | None => NoReturn
        end
      else RRet false t
  | Quad d c0 c1 c2 c3 =>
      if QuadTreeAABB.intersects (bounds d) (QuadTreeObject.bounds o) then
        match remove_here d (QuadTreeObject.id o) with
        | Some d' =>
            RRet true (resolve_max_bounds (remove_empty_nodes (Quad d' c0 c1 c2 c3)))
        | None =>
            remove_child (remove c0 o) (fun a => Quad d a c1 c2 c3) (fun a =>
            remove_child (remove c1 o) (fun b => Quad d a b c2 c3) (fun b =>
            remove_child (remove c2 o) (fun c => Quad d a b c c3) (fun c =>
            remove_child (remove c3 o) (fun e => Quad d a b c e) (fun e =>
            RRet false (Quad d a b c e)))))
        end
      else RRet false t
  end.

(** *** Queries *)

Definition hit (r : AABB) (s : Obj) : bool :=
  negb (QuadTreeObject.removed s) &&
  QuadTreeAABB.intersects (QuadTreeObject.bounds s) r.

(** Common end of both overloads: the early return on an empty node, then
    the slot loop. *)
Definition query_slots (d : node) (r : AABB) (out : list Obj) : list Obj :=
  if object_count d <? 1 then out else out ++ filter (hit r) (objects d).

(** Buffer overload.  [out] is the written prefix [_Objects[0 .. _Length)];
    the buffer is the caller's and is taken to be large enough. *)
Fixpoint query_buffer (t : QuadTree) (r : AABB) (bound_checks : bool)
    (out : list Obj) : list Obj :=
  match t with
  | Leaf d =>
      if QuadTreeAABB.intersects (max_bounds d) r || negb bound_checks
      then query_slots d r out else out
  | Quad d c0 c1 c2 c3 =>
      if QuadTreeAABB.intersects (max_bounds d) r || negb bound_checks
      then
        query_slots d r
          (query_buffer c3 r bound_checks
            (query_buffer c2 r bound_checks
              (query_buffer c1 r bound_checks
                (query_buffer c0 r bound_checks out))))
      else out
  end.

(** Vector overload: the test is on [bounds]. *)
Fixpoint query_vector (t : QuadTree) (r : AABB) (bound_checks : bool)
    (out : list Obj) : list Obj :=
  match t with
  | Leaf d =>
      if QuadTreeAABB.intersects (bounds d) r || negb bound_checks
      then query_slots d r out else out
  | Quad d c0 c1 c2 c3 =>
      if QuadTreeAABB.intersects (bounds d) r || negb bound_checks
      then
        query_slots d r
          (query_vector c3 r bound_checks
            (query_vector c2 r bound_checks
              (query_vector c1 r bound_checks
                (query_vector c0 r bound_checks out))))
      else out
  end.

(** *** Construction, [split] and [insert] *)

(** The local [child_aabb] after its four edges are assigned and
    [set_center], [set_dimensions] are called. *)
Definition child_aabb (l t r b : Z) : AABB :=
  QuadTreeAABB.set_dimensions
    (QuadTreeAABB.set_center (QuadTreeAABB.mk l t r b 0 0 0 0)).

Definition top_left (p : AABB) : AABB :=
  child_aabb (QuadTreeAABB.left p) (QuadTreeAABB.top p)
             (QuadTreeAABB.x p) (QuadTreeAABB.y p).
Definition top_right (p : AABB) : AABB :=
  child_aabb (QuadTreeAABB.x p) (QuadTreeAABB.top p)
             (QuadTreeAABB.right p) (QuadTreeAABB.y p).
Definition bottom_right (p : AABB) : AABB :=
  child_aabb (QuadTreeAABB.x p) (QuadTreeAABB.y p)
             (QuadTreeAABB.right p) (QuadTreeAABB.bottom p).
Definition bottom_left (p : AABB) : AABB :=
  child_aabb (QuadTreeAABB.left p) (QuadTreeAABB.y p)
             (QuadTreeAABB.x p) (QuadTreeAABB.bottom p).

Section Capacity.

Variable Capacity : nat.
Variable uninit : AABB.

(** [QuadTree(const QuadTreeAABB<T>& _Bounds)], followed by the assignment
    of [level]. *)
Definition make (b : AABB) (lvl : nat) : QuadTree :=
  Leaf (mkNode b uninit 0 (repeat QuadTreeObject.empty Capacity) lvl).

Definition QuadTree_new (b : AABB) : QuadTree := make b 0.

Definition split (t : QuadTree) : QuadTree :=
  match t with
  | Leaf d =>
      Quad d (make (top_left (bounds d)) (level d + 1))
             (make (top_right (bounds d)) (level d + 1))
             (make (bottom_right (bounds d)) (level d + 1))
             (make (bottom_left (bounds d)) (level d + 1))
  | Quad _ _ _ _ _ => t
  end.

(** The slot branch of [insert]: [resolve_max_bounds] runs before
    [object_count++]. *)
Definition insert_here (t : QuadTree) (o : Obj) : insert_result :=
  let d := data t in
  match insert_slot (objects d) o with
  | Some objs =>
      let t1 := resolve_max_bounds (with_data (set_slots d objs (object_count d)) t) in
      let d1 := data t1 in
      Ret true (with_data (set_slots d1 (objects d1) (object_count d1 + 1)) t1)
  | None => Ret false t
  end.

(** [insert].  [fuel] bounds the depth of the recursion: a freshly split
    child is entered by a recursive call like any other node. *)
Fixpoint insert (fuel : nat) (t : QuadTree) (o : Obj) : insert_result :=
  match fuel with
  | O => Diverge
  | S fuel' =>
      if QuadTreeAABB.intersects (bounds (data t)) (QuadTreeObject.bounds o) then
        if Capacity <=? object_count (data t) then
          match split t with
          | Quad d c0 c1 c2 c3 =>
              insert_child (insert fuel' c0 o) (fun a => Quad d a c1 c2 c3) (fun a =>
              insert_child (insert fuel' c1 o) (fun b => Quad d a b c2 c3) (fun b =>
              insert_child (insert fuel' c2 o) (fun c => Quad d a b c c3) (fun c =>
              insert_child (insert fuel' c3 o) (fun e => Quad d a b c e) (fun e =>
              Throw (Quad d a b c e)))))
          | Leaf _ => Diverge
          end
        else insert_here t o
      else Ret false t
  end.

(** Trees a caller can hold: built by the constructor and changed by
    [insert] and [remove] calls that came back, normally or by the throw. *)
Inductive reachable : QuadTree -> Prop :=
| reach_new : forall b, reachable (QuadTree_new b)
| reach_insert : forall fuel t o r t',
    reachable t -> insert fuel t o = r -> tree_of r = Some t' -> reachable t'
| reach_remove : forall t o b t',
    reachable t -> remove t o = RRet b t' -> reachable t'.

(** A run of inserts, each of which has to return [true]. *)
Fixpoint insert_all (fuel : nat) (t : QuadTree) (os : list Obj) : option QuadTree :=
  match os with
  | [] => Some t
  | o :: rest =>
      match insert fuel t o with
      | Ret true t' => insert_all fuel t' rest
      | _ => None
      end
  end.

End Capacity.

(** A run of removes, each of which has to return [true]. *)
Fixpoint remove_all (t : QuadTree) (os : list Obj) : option QuadTree :=
  match os with
  | [] => Some t
  | o :: rest =>
      match remove t o with
      | RRet true t' => remove_all t' rest
      | _ => None
      end
  end.

(** ** Vocabulary of the properties *)

Definition edges (a : AABB) : Z * Z * Z * Z :=
  (QuadTreeAABB.left a, QuadTreeAABB.top a, QuadTreeAABB.right a, QuadTreeAABB.bottom a).

Definition live (s : Obj) : bool := negb (QuadTreeObject.removed s).

Definition count_live (objs : list Obj) : nat := length (filter live objs).

(** The representation invariant of one node: [objects] has [_Capacity]
    slots and [object_count] counts the live ones. *)
Definition node_ok (C : nat) (d : node) : Prop :=
  length (objects d) = C /\ object_count d = count_live (objects d).

Fixpoint wf (C : nat) (t : QuadTree) : Prop :=
  match t with
  | Leaf d => node_ok C d
  | Quad d c0 c1 c2 c3 => node_ok C d /\ wf C c0 /\ wf C c1 /\ wf C c2 /\ wf C c3
  end.

(** The invariant on whatever tree a result carries. *)
Definition insert_result_wf (C : nat) (r : insert_result) : Prop :=
  match tree_of r with Some t => wf C t | None => True end.

Definition remove_result_wf (C : nat) (r : remove_result) : Prop :=
  match r with RRet _ t => wf C t | NoReturn => True end.

(** Number of subdivisions on the longest way down. *)
Fixpoint depth (t : QuadTree) : nat :=
  match t with
  | Leaf _ => 0
  | Quad _ c0 c1 c2 c3 =>
      S (Nat.max (Nat.max (depth c0) (depth c1)) (Nat.max (depth c2) (depth c3)))
  end.

Definition live_with (i : N) (s : Obj) : bool :=
  negb (QuadTreeObject.removed s) && (QuadTreeObject.id s =? i)%N.

(** Number of live slots of the whole tree that carry the id [i]. *)
Fixpoint count_live_id (i : N) (t : QuadTree) : nat :=
  match t with
  | Leaf d => length (filter (live_with i) (objects d))
  | Quad d c0 c1 c2 c3 =>
      length (filter (live_with i) (objects d)) +
      (count_live_id i c0 + count_live_id i c1 + count_live_id i c2 + count_live_id i c3)
  end.

(** How many entries of a query result carry the id [i]. *)
Definition times_returned (i : N) (res : list Obj) : nat :=
  length (filter (fun s => (QuadTreeObject.id s =? i)%N) res).

(** Number of nodes of the tree that have children. *)
Fixpoint subdivided_nodes (t : QuadTree) : nat :=
  match t with
  | Leaf _ => 0
  | Quad _ c0 c1 c2 c3 =>
      1 + (subdivided_nodes c0 + subdivided_nodes c1 +
           subdivided_nodes c2 + subdivided_nodes c3)
  end.

(** The scan of [remove] finds its match in the slots of the node itself. *)
Definition matches_here (t : QuadTree) (o : Obj) : bool :=
  QuadTreeAABB.intersects (bounds (data t)) (QuadTreeObject.bounds o) &&
  match remove_here (data t) (QuadTreeObject.id o) with Some _ => true | None => false end.

(** The node with its [k]-th child replaced. *)
Definition set_child (t : QuadTree) (k : nat) (c : QuadTree) : QuadTree :=
  match t, k with
  | Quad d _ c1 c2 c3, 0 => Quad d c c1 c2 c3
  | Quad d c0 _ c2 c3, 1 => Quad d c0 c c2 c3
  | Quad d c0 c1 _ c3, 2 => Quad d c0 c1 c c3
  | Quad d c0 c1 c2 _, 3 => Quad d c0 c1 c2 c
  | _, _ => t
  end.

(** The shape the two query overloads share; [sel] is the box whose
    intersection with the region decides whether the subtree is visited. *)
Fixpoint query_with (sel : node -> AABB) (t : QuadTree) (r : AABB)
    (bound_checks : bool) (out : list Obj) : list Obj :=
  match t with
  | Leaf d =>
      if QuadTreeAABB.intersects (sel d) r || negb bound_checks
      then query_slots d r out else out
  | Quad d c0 c1 c2 c3 =>
      if QuadTreeAABB.intersects (sel d) r || negb bound_checks
      then
        query_slots d r
          (query_with sel c3 r bound_checks
            (query_with sel c2 r bound_checks
              (query_with sel c1 r bound_checks
                (query_with sel c0 r bound_checks out))))
      else out
  end.

(** ** Concrete trees and objects used by the examples *)

Definition box (l t r b : Z) : AABB := child_aabb l t r b.

Definition object (l t r b : Z) (i : N) : Obj :=
  QuadTreeObject.mk (box l t r b) 0%N true i.

Definition universe : AABB := box 0 0 100 100.


(** Objects inside the universe, in its top-left and bottom-right
    quadrants. *)
Definition near : Obj := object 10 10 20 20 1.
Definition inner : Obj := object 30 30 40 40 2.
Definition far : Obj := object 60 60 70 70 2.

(** Objects that overlap the universe and stick out of it. *)
Definition spill : Obj := object (-10) 10 20 20 1.
Definition corner : Obj := object (-10) (-10) 5 5 1.

(** A box of width zero on the vertical centre line of the universe. *)
Definition on_centre_line : Obj := object 50 10 50 20 7.

(** Query regions that lie outside the universe and meet [corner] and
    [spill]. *)
Definition probe_corner : AABB := box (-8) (-8) (-1) (-1).
Definition probe_spill : AABB := box (-8) 12 (-1) 18.

(** The root of a tree of capacity 1 after [near] was inserted. *)
Definition full_leaf : QuadTree :=
  Leaf (mkNode universe universe 1 [QuadTreeObject.stored near] 0).

From Stdlib Require Import Permutation.

(** ** Further vocabulary *)

(** [set_bounds]: the static box is replaced, nothing else is touched. *)
Definition set_bounds (t : QuadTree) (b : AABB) : QuadTree :=
  with_data (mkNode b (max_bounds (data t)) (object_count (data t))
                    (objects (data t)) (level (data t))) t.

(** The live objects of a subtree, in the order in which a query visits
    them: the four children first, then the slots of the node. *)
Fixpoint all_live (t : QuadTree) : list Obj :=
  match t with
  | Leaf d => filter live (objects d)
  | Quad d c0 c1 c2 c3 =>
      all_live c0 ++ all_live c1 ++ all_live c2 ++ all_live c3 ++
      filter live (objects d)
  end.

(** Every node that has children holds a live object somewhere below or
    in itself. *)
Fixpoint pruned (t : QuadTree) : Prop :=
  match t with
  | Leaf _ => True
  | Quad _ c0 c1 c2 c3 =>
      0 < get_total_objects t /\ pruned c0 /\ pruned c1 /\ pruned c2 /\ pruned c3
  end.

(** The last live slot of a slot array, if there is one. *)
Definition last_live (objs : list Obj) : option Obj :=
  match rev (filter live objs) with
  | [] => None
  | s :: _ => Some s
  end.

Definition overlaps (r : AABB) (s : Obj) : bool :=
  QuadTreeAABB.intersects (QuadTreeObject.bounds s) r.

(** A property of nodes that holds at every node of a tree. *)
Fixpoint every_node (P : QuadTree -> Prop) (t : QuadTree) : Prop :=
  P t /\
  match t with
  | Leaf _ => True
  | Quad _ c0 c1 c2 c3 =>
      every_node P c0 /\ every_node P c1 /\ every_node P c2 /\ every_node P c3
  end.

(** The way a call that returned [true] went, read off the [insert] code:
    either the node had a free slot, or it was full and the object went
    into the first child, in the order 0..3, whose [bounds] intersect the
    object's. *)
Inductive inserted (C : nat) (u : AABB) (o : Obj) : QuadTree -> QuadTree -> Prop :=
| inserted_here : forall t objs,
    QuadTreeAABB.intersects (bounds (data t)) (QuadTreeObject.bounds o) = true ->
    object_count (data t) < C ->
    insert_slot (objects (data t)) o = Some objs ->
    inserted C u o t
      (with_data
         (mkNode (bounds (data t))
                 (max_bounds (data (resolve_max_bounds
                    (with_data (set_slots (data t) objs (object_count (data t))) t))))
                 (object_count (data t) + 1) objs (level (data t))) t)
| inserted_child : forall t k ck ck',
    QuadTreeAABB.intersects (bounds (data t)) (QuadTreeObject.bounds o) = true ->
    C <= object_count (data t) ->
    nth_error (get_children (split C u t)) k = Some ck ->
    (forall j cj, j < k -> nth_error (get_children (split C u t)) j = Some cj ->
       QuadTreeAABB.intersects (bounds (data cj)) (QuadTreeObject.bounds o) = false) ->
    inserted C u o ck ck' ->
    inserted C u o t (resolve_max_bounds (set_child (split C u t) k ck')).

(** The way a call that threw went: the node was full and either no
    child's [bounds] intersect the object's, or the first such child threw. *)
Inductive thrown (C : nat) (u : AABB) (o : Obj) : QuadTree -> QuadTree -> Prop :=
| thrown_here : forall t,
    QuadTreeAABB.intersects (bounds (data t)) (QuadTreeObject.bounds o) = true ->
    C <= object_count (data t) ->
    (forall c, In c (get_children (split C u t)) ->
       QuadTreeAABB.intersects (bounds (data c)) (QuadTreeObject.bounds o) = false) ->
    thrown C u o t (split C u t)
| thrown_child : forall t k ck ck',
    QuadTreeAABB.intersects (bounds (data t)) (QuadTreeObject.bounds o) = true ->
    C <= object_count (data t) ->
    nth_error (get_children (split C u t)) k = Some ck ->
    (forall j cj, j < k -> nth_error (get_children (split C u t)) j = Some cj ->
       QuadTreeAABB.intersects (bounds (data cj)) (QuadTreeObject.bounds o) = false) ->
    thrown C u o ck ck' ->
    thrown C u o t (set_child (split C u t) k ck').

(** The way a [remove] that returned [true] went. *)
Inductive removed (o : Obj) : QuadTree -> QuadTree -> Prop :=
| removed_here : forall t d',
    QuadTreeAABB.intersects (bounds (data t)) (QuadTreeObject.bounds o) = true ->
    remove_here (data t) (QuadTreeObject.id o) = Some d' ->
    removed o t (resolve_max_bounds (remove_empty_nodes (with_data d' t)))
| removed_child : forall t k ck ck',
    QuadTreeAABB.intersects (bounds (data t)) (QuadTreeObject.bounds o) = true ->
    remove_here (data t) (QuadTreeObject.id o) = None ->
    nth_error (get_children t) k = Some ck ->
    removed o ck ck' ->
    removed o t (resolve_max_bounds (set_child t k ck')).

(** The four quadrants of a box, in the order of [split]. *)
Definition quadrants (b : AABB) : list AABB :=
  [top_left b; top_right b; bottom_right b; bottom_left b].

(** The children of the node, if it has any, sit on the four quadrants of
    its [bounds]. *)
Definition quartered (t : QuadTree) : Prop :=
  has_children_ t = true ->
  map (fun c => edges (bounds (data c))) (get_children t) =
  map edges (quadrants (bounds (data t))).

(** Every live object of the subtree intersects the [bounds] of the node,
    and a node with a live object below or in it has a [max_bounds] that
    contains its [bounds]. *)
Definition placed (t : QuadTree) : Prop :=
  (forall s, In s (all_live t) ->
     QuadTreeAABB.intersects (bounds (data t)) (QuadTreeObject.bounds s) = true) /\
  (all_live t <> [] ->
     QuadTreeAABB.covers (max_bounds (data t)) (bounds (data t))).

(** No live object below a child intersects the [bounds] of an earlier
    child. *)
Definition first_fit (t : QuadTree) : Prop :=
  forall j k cj ck s,
    j < k ->
    nth_error (get_children t) j = Some cj ->
    nth_error (get_children t) k = Some ck ->
    In s (all_live ck) ->
    QuadTreeAABB.intersects (bounds (data cj)) (QuadTreeObject.bounds s) = false.

Definition option_list (A : Type) (x : option A) : list A :=
  match x with Some a => [a] | None => [] end.

(** The last live slot of every node of the subtree. *)
Fixpoint tracked (t : QuadTree) : list Obj :=
  match t with
  | Leaf d => option_list Obj (last_live (objects d))
  | Quad d c0 c1 c2 c3 =>
      option_list Obj (last_live (objects d)) ++
      (tracked c0 ++ tracked c1 ++ tracked c2 ++ tracked c3)
  end.

(** [max_bounds] contains the valid boxes among the last live slots of
    the subtree. *)
Definition tracks (t : QuadTree) : Prop :=
  forall s, In s (tracked t) ->
    QuadTreeAABB.verify (QuadTreeObject.bounds s) = true ->
    QuadTreeAABB.covers (max_bounds (data t)) (QuadTreeObject.bounds s).

(** [max_bounds] contains the valid boxes among all live objects of the
    subtree. *)
Definition aggregate_sound (t : QuadTree) : Prop :=
  forall s, In s (all_live t) ->
    QuadTreeAABB.verify (QuadTreeObject.bounds s) = true ->
    QuadTreeAABB.covers (max_bounds (data t)) (QuadTreeObject.bounds s).

(** The tree of capacity 1 that holds [near] in the root and [far] in the
    bottom-right child. *)
Definition two_level : QuadTree :=
  Eval cbv in
    match insert_all 1 QuadTreeAABB.zero 2
            (QuadTree_new 1 QuadTreeAABB.zero universe) [near; far] with
    | Some t => t
    | None => full_leaf
    end.

(** A box around the centre of the universe. *)
Definition middle : AABB := box 40 40 60 60.
(** ** Geometry *)

Lemma intersects_spec : forall a o,
  QuadTreeAABB.intersects a o = true <->
  (QuadTreeAABB.left a < QuadTreeAABB.right o /\
   QuadTreeAABB.left o < QuadTreeAABB.right a /\
   QuadTreeAABB.top a < QuadTreeAABB.bottom o /\
   QuadTreeAABB.top o < QuadTreeAABB.bottom a)%Z.
Proof.
  intros a o. unfold QuadTreeAABB.intersects.
  rewrite !andb_true_iff, !Z.gtb_ltb, !Z.ltb_lt. tauto.
Qed.

Lemma intersects_false : forall a o,
  QuadTreeAABB.intersects a o = false <->
  (QuadTreeAABB.right o <= QuadTreeAABB.left a \/
   QuadTreeAABB.right a <= QuadTreeAABB.left o \/
   QuadTreeAABB.bottom o <= QuadTreeAABB.top a \/
   QuadTreeAABB.bottom a <= QuadTreeAABB.top o)%Z.
Proof.
  intros a o. unfold QuadTreeAABB.intersects.
  rewrite !andb_false_iff, !Z.gtb_ltb, !Z.ltb_ge. tauto.
Qed.

Lemma verify_spec : forall a,
  QuadTreeAABB.verify a = true <->
  (QuadTreeAABB.left a < QuadTreeAABB.right a /\
   QuadTreeAABB.top a < QuadTreeAABB.bottom a)%Z.
Proof.
  intros a. unfold QuadTreeAABB.verify.
  rewrite andb_true_iff, !Z.ltb_lt. tauto.
Qed.

Lemma midpoint_between : forall l r : Z,
  (l < r -> l <= Z.quot (l + r) 2 <= r)%Z.
Proof.
  intros l r H. Z.to_euclidean_division_equations. lia.
Qed.

Lemma child_aabb_edges : forall l t r b,
  edges (child_aabb l t r b) = (l, t, r, b).
Proof. reflexivity. Qed.

(** ** Frame lemmas of the node-local operations *)

Lemma data_with_data : forall d t, data (with_data d t) = d.
Proof. intros d []; reflexivity. Qed.

Lemma has_children_with_data : forall d t,
  has_children_ (with_data d t) = has_children_ t.
Proof. intros d []; reflexivity. Qed.

Lemma get_children_with_data : forall d t,
  get_children (with_data d t) = get_children t.
Proof. intros d []; reflexivity. Qed.

Lemma data_resolve : forall t,
  data (resolve_max_bounds t) =
  set_max_bounds (data t) (max_bounds (data (resolve_max_bounds t))).
Proof. intros t. unfold resolve_max_bounds. rewrite data_with_data. reflexivity. Qed.

Lemma bounds_resolve : forall t,
  bounds (data (resolve_max_bounds t)) = bounds (data t).
Proof. intros t. rewrite data_resolve. reflexivity. Qed.

Lemma objects_resolve : forall t,
  objects (data (resolve_max_bounds t)) = objects (data t).
Proof. intros t. rewrite data_resolve. reflexivity. Qed.

Lemma object_count_resolve : forall t,
  object_count (data (resolve_max_bounds t)) = object_count (data t).
Proof. intros t. rewrite data_resolve. reflexivity. Qed.

Lemma has_children_resolve : forall t,
  has_children_ (resolve_max_bounds t) = has_children_ t.
Proof. intros t. unfold resolve_max_bounds. apply has_children_with_data. Qed.

Lemma get_children_resolve : forall t,
  get_children (resolve_max_bounds t) = get_children t.
Proof. intros t. unfold resolve_max_bounds. apply get_children_with_data. Qed.

Lemma get_total_objects_children : forall t,
  get_total_objects t =
  object_count (data t) + list_sum (map get_total_objects (get_children t)).
Proof. intros [d | d c0 c1 c2 c3]; simpl; lia. Qed.

Lemma get_total_objects_resolve : forall t,
  get_total_objects (resolve_max_bounds t) = get_total_objects t.
Proof.
  intros t. rewrite (get_total_objects_children (resolve_max_bounds t)).
  rewrite object_count_resolve, get_children_resolve.
  symmetry. apply get_total_objects_children.
Qed.

Lemma merge_leaf : forall t, merge t = Leaf (data t).
Proof. intros []; reflexivity. Qed.

Section Properties.

Variable Capacity : nat.
Variable uninit : AABB.

(** ** Subdivision *)

Lemma split_quad : forall t,
  exists c0 c1 c2 c3, split Capacity uninit t = Quad (data t) c0 c1 c2 c3.
Proof. intros [d | d c0 c1 c2 c3]; simpl; eauto. Qed.

Lemma data_split : forall t, data (split Capacity uninit t) = data t.
Proof. intros []; reflexivity. Qed.

(** C9.  [split] creates the four children and leaves the slot array,
    [object_count], [bounds] (and every other field of the node itself)
    as they were; the new children hold nothing, so no object has moved;
    on a node that already has children [split] changes nothing, so a
    second [split] is a no-op. *)
Theorem split_frame : forall t,
  has_children_ (split Capacity uninit t) = true /\
  objects (data (split Capacity uninit t)) = objects (data t) /\
  object_count (data (split Capacity uninit t)) = object_count (data t) /\
  bounds (data (split Capacity uninit t)) = bounds (data t) /\
  data (split Capacity uninit t) = data t /\
  (has_children_ t = false ->
   forall c, In c (get_children (split Capacity uninit t)) ->
     get_total_objects c = 0 /\
     objects (data c) = repeat QuadTreeObject.empty Capacity) /\
  (has_children_ t = true -> split Capacity uninit t = t) /\
  split Capacity uninit (split Capacity uninit t) = split Capacity uninit t.
Proof.
  intros t. rewrite data_split.
  split; [destruct t; reflexivity|].
  do 4 (split; [reflexivity|]).
  destruct t as [d | d c0 c1 c2 c3]; cbn [has_children_ split get_children].
  - split; [|split; [discriminate | reflexivity]].
    intros _ c [<- | [<- | [<- | [<- | []]]]]; split; reflexivity.
  - split; [discriminate|]. split; reflexivity.
Qed.

(** C8.  A leaf with valid [bounds] whose centre is the midpoint of its
    edges is split into top-left, top-right, bottom-right, bottom-left, in
    that order, cut at the centre; no two of the four quadrants intersect,
    every point of the parent lies in a quadrant and conversely, and the
    four areas add up to the parent's. *)
Theorem split_tiles_parent : forall d,
  QuadTreeAABB.verify (bounds d) = true ->
  QuadTreeAABB.x (bounds d) =
    Z.quot (QuadTreeAABB.left (bounds d) + QuadTreeAABB.right (bounds d)) 2 ->
  QuadTreeAABB.y (bounds d) =
    Z.quot (QuadTreeAABB.top (bounds d) + QuadTreeAABB.bottom (bounds d)) 2 ->
  let p := bounds d in
  let qs := map get_bounds (get_children (split Capacity uninit (Leaf d))) in
  map edges qs =
    [ (QuadTreeAABB.left p, QuadTreeAABB.top p, QuadTreeAABB.x p, QuadTreeAABB.y p);
      (QuadTreeAABB.x p, QuadTreeAABB.top p, QuadTreeAABB.right p, QuadTreeAABB.y p);
      (QuadTreeAABB.x p, QuadTreeAABB.y p, QuadTreeAABB.right p, QuadTreeAABB.bottom p);
      (QuadTreeAABB.left p, QuadTreeAABB.y p, QuadTreeAABB.x p, QuadTreeAABB.bottom p) ] /\
  (forall i j a b, i <> j -> nth_error qs i = Some a -> nth_error qs j = Some b ->
     QuadTreeAABB.intersects a b = false) /\
  (forall px py,
     QuadTreeAABB.holds p px py <-> exists a, In a qs /\ QuadTreeAABB.holds a px py) /\
  (fold_right Z.add 0%Z (map QuadTreeAABB.area qs) = QuadTreeAABB.area p /\
   forall a, In a qs -> (0 <= QuadTreeAABB.area a)%Z).
Proof.
  intros d Hv Hx Hy p qs.
  apply verify_spec in Hv. destruct Hv as [Hlr Htb].
  pose proof (midpoint_between _ _ Hlr) as Mx. rewrite <- Hx in Mx.
  pose proof (midpoint_between _ _ Htb) as My. rewrite <- Hy in My.
  fold p in Hlr, Htb, Mx, My.
  subst qs. cbn [split get_children map make data get_bounds bounds].
  fold p. unfold top_left, top_right, bottom_right, bottom_left.
  rewrite !child_aabb_edges.
  split; [reflexivity|]. split; [|split].
  - intros i j a b Hij Hi Hj.
    destruct i as [|[|[|[|i]]]]; cbn in Hi; try (destruct i; discriminate);
    destruct j as [|[|[|[|j]]]]; cbn in Hj; try (destruct j; discriminate);
    try congruence;
    injection Hi as <-; injection Hj as <-;
    apply intersects_false; cbn; lia.
  - intros px py. unfold QuadTreeAABB.holds. split.
    + intros [Hpx Hpy].
      destruct (Z_le_gt_dec px (QuadTreeAABB.x p)), (Z_le_gt_dec py (QuadTreeAABB.y p)).
      * eexists; split; [left; reflexivity|]. cbn. lia.
      * eexists; split; [right; right; right; left; reflexivity|]. cbn. lia.
      * eexists; split; [right; left; reflexivity|]. cbn. lia.
      * eexists; split; [right; right; left; reflexivity|]. cbn. lia.
    + intros [a [Ha Hh]].
      destruct Ha as [<- | [<- | [<- | [<- | []]]]]; cbn in Hh; lia.
  - unfold QuadTreeAABB.area. cbn. split.
    + nia.
    + intros a [<- | [<- | [<- | [<- | []]]]]; cbn; nia.
Qed.

(** ** Results that report [false] *)

Lemma insert_child_false : forall r ctx next t',
  insert_child r ctx next = Ret false t' ->
  exists c, r = Ret false c /\ next c = Ret false t'.
Proof.
  intros [[|] c | c |] ctx next t' H; simpl in H; try discriminate.
  exists c. split; [reflexivity | assumption].
Qed.

Lemma insert_false_unchanged : forall fuel t o t',
  insert Capacity uninit fuel t o = Ret false t' -> t' = t.
Proof.
  induction fuel as [|fuel IH]; intros t o t' H; simpl in H; [discriminate|].
  destruct (QuadTreeAABB.intersects _ _).
  - destruct (Capacity <=? _).
    + destruct (split_quad t) as (c0 & c1 & c2 & c3 & E). rewrite E in H.
      apply insert_child_false in H as (a & _ & H).
      apply insert_child_false in H as (b & _ & H).
      apply insert_child_false in H as (c & _ & H).
      apply insert_child_false in H as (e & _ & H).
      discriminate.
    + unfold insert_here in H. destruct (insert_slot _ _); congruence.
  - congruence.
Qed.

(** C5.  When [insert] runs on a node whose [bounds] intersect the
    object's, whose slots are full, and each of whose four children (those
    it has, or those [split] gives it) answers [false], it ends in the
    [std::out_of_range] throw: it neither returns [false] nor [true], and
    the node is left subdivided. *)
Theorem insert_exhausted_quadrants_throws : forall fuel t o,
  QuadTreeAABB.intersects (bounds (data t)) (QuadTreeObject.bounds o) = true ->
  object_count (data t) = Capacity ->
  (forall c, In c (get_children (split Capacity uninit t)) ->
     exists c', insert Capacity uninit fuel c o = Ret false c') ->
  insert Capacity uninit (S fuel) t o = Throw (split Capacity uninit t) /\
  (forall b t', insert Capacity uninit (S fuel) t o <> Ret b t').
Proof.
  intros fuel t o Hi Hc Hk.
  assert (E : insert Capacity uninit (S fuel) t o = Throw (split Capacity uninit t)).
  { simpl. rewrite Hi, Hc, Nat.leb_refl.
    destruct (split_quad t) as (c0 & c1 & c2 & c3 & E). rewrite E in *.
    simpl in Hk.
    destruct (Hk c0) as [a Ha]; [tauto|].
    destruct (Hk c1) as [b Hb]; [tauto|].
    destruct (Hk c2) as [c Hc']; [tauto|].
    destruct (Hk c3) as [e He]; [tauto|].
    rewrite Ha, (insert_false_unchanged _ _ _ _ Ha). simpl.
    rewrite Hb, (insert_false_unchanged _ _ _ _ Hb). simpl.
    rewrite Hc', (insert_false_unchanged _ _ _ _ Hc'). simpl.
    rewrite He, (insert_false_unchanged _ _ _ _ He). simpl.
    reflexivity. }
  split; [exact E|]. intros b t'. rewrite E. discriminate.
Qed.

Lemma remove_child_false : forall r ctx next t',
  remove_child r ctx next = RRet false t' ->
  exists c, r = RRet false c /\ next c = RRet false t'.
Proof.
  intros [[|] c |] ctx next t' H; simpl in H; try discriminate.
  exists c. split; [reflexivity | assumption].
Qed.

Lemma remove_false_same : forall t o t',
  remove t o = RRet false t' -> t' = t.
Proof.
  induction t as [d | d c0 IH0 c1 IH1 c2 IH2 c3 IH3]; intros o t' H; simpl in H.
  - destruct (QuadTreeAABB.intersects _ _).
    + destruct (remove_here _ _); discriminate.
    + congruence.
  - destruct (QuadTreeAABB.intersects _ _).
    + destruct (remove_here _ _); [discriminate|].
      apply remove_child_false in H as (a & Ha & H).
      apply remove_child_false in H as (b & Hb & H).
      apply remove_child_false in H as (c & Hc & H).
      apply remove_child_false in H as (e & He & H).
      apply IH0 in Ha. apply IH1 in Hb. apply IH2 in Hc. apply IH3 in He.
      congruence.
    + congruence.
Qed.

(** ** The slot loops *)

Lemma count_live_repeat_empty : forall n,
  count_live (repeat QuadTreeObject.empty n) = 0.
Proof. induction n; simpl; auto. Qed.

Lemma filter_live_with_repeat_empty : forall i n,
  filter (live_with i) (repeat QuadTreeObject.empty n) = [].
Proof. induction n; simpl; auto. Qed.

Lemma count_live_le_length : forall objs, count_live objs <= length objs.
Proof. intros objs. apply filter_length_le. Qed.

Lemma insert_slot_length : forall objs o objs',
  insert_slot objs o = Some objs' -> length objs' = length objs.
Proof.
  induction objs as [|s rest IH]; intros o objs' H; simpl in H; [discriminate|].
  destruct (QuadTreeObject.removed s).
  - injection H as <-. reflexivity.
  - destruct (insert_slot rest o) as [r|] eqn:E; [|discriminate].
    injection H as <-. simpl. f_equal. eauto.
Qed.

Lemma insert_slot_count_live : forall objs o objs',
  insert_slot objs o = Some objs' -> count_live objs' = S (count_live objs).
Proof.
  unfold count_live.
  induction objs as [|s rest IH]; intros o objs' H; simpl in H; [discriminate|].
  destruct (QuadTreeObject.removed s) eqn:R.
  - injection H as <-. cbn [filter]. unfold live. rewrite R. reflexivity.
  - destruct (insert_slot rest o) as [r|] eqn:E; [|discriminate].
    injection H as <-. cbn [filter]. unfold live. rewrite R.
    cbn [negb length]. f_equal. apply (IH _ _ E).
Qed.

Lemma insert_slot_none : forall objs o,
  insert_slot objs o = None -> count_live objs = length objs.
Proof.
  unfold count_live.
  induction objs as [|s rest IH]; intros o H; simpl in H; [reflexivity|].
  destruct (QuadTreeObject.removed s) eqn:R; [discriminate|].
  destruct (insert_slot rest o) eqn:E; [discriminate|].
  cbn [filter]. unfold live. rewrite R. cbn [negb length].
  f_equal. apply (IH _ E).
Qed.

Lemma insert_slot_In : forall objs o objs',
  insert_slot objs o = Some objs' -> In (QuadTreeObject.stored o) objs'.
Proof.
  induction objs as [|s rest IH]; intros o objs' H; simpl in H; [discriminate|].
  destruct (QuadTreeObject.removed s).
  - injection H as <-. left. reflexivity.
  - destruct (insert_slot rest o) as [r|] eqn:E; [|discriminate].
    injection H as <-. right. eauto.
Qed.

Lemma live_with_stored : forall o,
  live_with (QuadTreeObject.id o) (QuadTreeObject.stored o) = true.
Proof. intros o. unfold live_with. simpl. apply N.eqb_refl. Qed.

Lemma live_with_removed : forall i s,
  QuadTreeObject.removed s = true -> live_with i s = false.
Proof. intros i s R. unfold live_with. rewrite R. reflexivity. Qed.

Lemma live_with_tombstone : forall i s,
  live_with i (QuadTreeObject.tombstone s) = false.
Proof. intros i s. reflexivity. Qed.

Lemma live_tombstone : forall s, live (QuadTreeObject.tombstone s) = false.
Proof. intros s. reflexivity. Qed.

Lemma insert_slot_count_id : forall objs o objs',
  insert_slot objs o = Some objs' ->
  length (filter (live_with (QuadTreeObject.id o)) objs') =
  S (length (filter (live_with (QuadTreeObject.id o)) objs)).
Proof.
  induction objs as [|s rest IH]; intros o objs' H; simpl in H; [discriminate|].
  destruct (QuadTreeObject.removed s) eqn:R.
  - injection H as <-. cbn [filter].
    rewrite live_with_stored, (live_with_removed _ _ R). reflexivity.
  - destruct (insert_slot rest o) as [r|] eqn:E; [|discriminate].
    injection H as <-. cbn [filter].
    destruct (live_with (QuadTreeObject.id o) s); cbn [length];
      rewrite (IH _ _ E); reflexivity.
Qed.

Lemma remove_slot_length : forall objs i objs',
  remove_slot objs i = Some objs' -> length objs' = length objs.
Proof.
  induction objs as [|s rest IH]; intros i objs' H; simpl in H; [discriminate|].
  destruct (negb (QuadTreeObject.removed s) && (QuadTreeObject.id s =? i)%N).
  - injection H as <-. reflexivity.
  - destruct (remove_slot rest i) as [r|] eqn:E; [|discriminate].
    injection H as <-. simpl. f_equal. eauto.
Qed.

Lemma remove_slot_count_live : forall objs i objs',
  remove_slot objs i = Some objs' -> count_live objs = S (count_live objs').
Proof.
  unfold count_live.
  induction objs as [|s rest IH]; intros i objs' H; simpl in H; [discriminate|].
  destruct (negb (QuadTreeObject.removed s) && (QuadTreeObject.id s =? i)%N) eqn:M.
  - injection H as <-. apply andb_true_iff in M as [M _].
    cbn [filter]. rewrite live_tombstone. unfold live. rewrite M. reflexivity.
  - destruct (remove_slot rest i) as [r|] eqn:E; [|discriminate].
    injection H as <-. cbn [filter].
    destruct (live s); cbn [length]; rewrite (IH _ _ E); reflexivity.
Qed.

Lemma remove_slot_count_id_le : forall j objs i objs',
  remove_slot objs i = Some objs' ->
  length (filter (live_with j) objs') <= length (filter (live_with j) objs).
Proof.
  induction objs as [|s rest IH]; intros i objs' H; simpl in H; [discriminate|].
  destruct (negb (QuadTreeObject.removed s) && (QuadTreeObject.id s =? i)%N) eqn:M.
  - injection H as <-. cbn [filter]. rewrite live_with_tombstone.
    destruct (live_with j s); cbn [length]; lia.
  - destruct (remove_slot rest i) as [r|] eqn:E; [|discriminate].
    injection H as <-. cbn [filter]. specialize (IH _ _ E).
    destruct (live_with j s); cbn [length]; lia.
Qed.

Lemma remove_slot_absent : forall objs i,
  filter (live_with i) objs = [] -> remove_slot objs i = None.
Proof.
  induction objs as [|s rest IH]; intros i H; [reflexivity|].
  cbn [filter] in H. cbn [remove_slot].
  change (negb (QuadTreeObject.removed s) && (QuadTreeObject.id s =? i)%N)
    with (live_with i s).
  destruct (live_with i s); [discriminate|].
  rewrite (IH _ H). reflexivity.
Qed.

(** Right after the object went into a slot, and when no other live slot
    has its id, the scan of [remove] finds exactly that slot. *)
Lemma remove_slot_after_insert_slot : forall objs o objs',
  filter (live_with (QuadTreeObject.id o)) objs = [] ->
  insert_slot objs o = Some objs' ->
  exists objs'', remove_slot objs' (QuadTreeObject.id o) = Some objs'' /\
                 filter (live_with (QuadTreeObject.id o)) objs'' = [].
Proof.
  induction objs as [|s rest IH]; intros o objs' Hf H; simpl in H; [discriminate|].
  cbn [filter] in Hf. destruct (QuadTreeObject.removed s) eqn:R.
  - injection H as <-. rewrite (live_with_removed _ _ R) in Hf.
    cbn [remove_slot].
    change (negb (QuadTreeObject.removed (QuadTreeObject.stored o)) &&
            (QuadTreeObject.id (QuadTreeObject.stored o) =? QuadTreeObject.id o)%N)
      with (live_with (QuadTreeObject.id o) (QuadTreeObject.stored o)).
    rewrite live_with_stored.
    eexists. split; [reflexivity|]. cbn [filter].
    rewrite live_with_tombstone. exact Hf.
  - destruct (insert_slot rest o) as [r|] eqn:E; [|discriminate].
    injection H as <-.
    destruct (live_with (QuadTreeObject.id o) s) eqn:L; [discriminate|].
    destruct (IH _ _ Hf E) as (r' & Hr & Hz).
    cbn [remove_slot].
    change (negb (QuadTreeObject.removed s) &&
            (QuadTreeObject.id s =? QuadTreeObject.id o)%N)
      with (live_with (QuadTreeObject.id o) s).
    rewrite L, Hr. cbn [option_map].
    eexists. split; [reflexivity|]. cbn [filter]. rewrite L. exact Hz.
Qed.

(** ** The representation invariant *)

Lemma node_ok_set_max_bounds : forall d m,
  node_ok Capacity d -> node_ok Capacity (set_max_bounds d m).
Proof. intros d m H. exact H. Qed.

Lemma wf_node_ok : forall t, wf Capacity t -> node_ok Capacity (data t).
Proof. intros [d | d c0 c1 c2 c3] H; simpl in *; tauto. Qed.

Lemma wf_with_data : forall d t,
  node_ok Capacity d -> wf Capacity t -> wf Capacity (with_data d t).
Proof. intros d [d0 | d0 c0 c1 c2 c3] Hd H; simpl in *; tauto. Qed.

Lemma wf_children : forall t c,
  wf Capacity t -> In c (get_children t) -> wf Capacity c.
Proof.
  intros [d | d c0 c1 c2 c3] c H Hin; simpl in *; [contradiction|].
  destruct Hin as [<- | [<- | [<- | [<- | []]]]]; tauto.
Qed.

Lemma wf_set_child : forall t k c,
  wf Capacity t -> wf Capacity c -> wf Capacity (set_child t k c).
Proof.
  intros [d | d c0 c1 c2 c3] k c H Hc; simpl; [destruct k; exact H|].
  simpl in H. destruct k as [|[|[|[|k]]]]; simpl; tauto.
Qed.

Lemma wf_make : forall b lvl, wf Capacity (make Capacity uninit b lvl).
Proof.
  intros b lvl. simpl. split; simpl.
  - apply repeat_length.
  - symmetry. apply count_live_repeat_empty.
Qed.

Lemma wf_split : forall t, wf Capacity t -> wf Capacity (split Capacity uninit t).
Proof.
  intros [d | d c0 c1 c2 c3] H; simpl; [|exact H].
  repeat split; try apply H; try apply repeat_length;
    symmetry; apply count_live_repeat_empty.
Qed.

Lemma wf_resolve : forall t, wf Capacity t -> wf Capacity (resolve_max_bounds t).
Proof.
  intros t H. unfold resolve_max_bounds.
  apply wf_with_data; [|exact H].
  apply node_ok_set_max_bounds, wf_node_ok, H.
Qed.

Lemma wf_merge : forall t, wf Capacity t -> wf Capacity (merge t).
Proof. intros t H. rewrite merge_leaf. simpl. apply wf_node_ok, H. Qed.

Lemma wf_remove_empty_nodes : forall t,
  wf Capacity t -> wf Capacity (remove_empty_nodes t).
Proof.
  induction t as [d | d c0 IH0 c1 IH1 c2 IH2 c3 IH3]; intros H; simpl; [exact H|].
  simpl in H.
  match goal with |- context [if ?b then _ else _] => destruct b end.
  - tauto.
  - simpl. tauto.
Qed.

Lemma insert_child_wf : forall r ctx next,
  insert_result_wf Capacity r ->
  (forall c, wf Capacity c -> wf Capacity (ctx c)) ->
  (forall c, wf Capacity c -> insert_result_wf Capacity (next c)) ->
  insert_result_wf Capacity (insert_child r ctx next).
Proof.
  intros [[|] c | c |] ctx next Hr Hctx Hnext; unfold insert_result_wf in *;
    simpl in *; auto using wf_resolve.
  apply (Hnext c Hr).
Qed.

Lemma with_data_with_data : forall d d' t,
  with_data d (with_data d' t) = with_data d t.
Proof. intros d d' []; reflexivity. Qed.

(** The successful slot branch, as one update of the node's own fields. *)
Lemma insert_here_some : forall t o objs,
  insert_slot (objects (data t)) o = Some objs ->
  exists m,
    insert_here t o =
    Ret true (with_data (mkNode (bounds (data t)) m (object_count (data t) + 1)
                                objs (level (data t))) t) /\
    m = max_bounds (data (resolve_max_bounds
          (with_data (set_slots (data t) objs (object_count (data t))) t))).
Proof.
  intros t o objs E. unfold insert_here. rewrite E.
  eexists. split; [|reflexivity].
  f_equal. rewrite data_resolve, data_with_data.
  unfold resolve_max_bounds. rewrite !with_data_with_data. reflexivity.
Qed.

Lemma insert_here_wf : forall t o,
  wf Capacity t -> insert_result_wf Capacity (insert_here t o).
Proof.
  intros t o H. unfold insert_result_wf.
  destruct (insert_slot (objects (data t)) o) as [objs|] eqn:E.
  - destruct (insert_here_some _ _ _ E) as (m & -> & _). simpl.
    destruct (wf_node_ok _ H) as [Hl Hc].
    apply wf_with_data; [|exact H]. split; simpl.
    + rewrite (insert_slot_length _ _ _ E). exact Hl.
    + rewrite (insert_slot_count_live _ _ _ E). lia.
  - unfold insert_here. rewrite E. exact H.
Qed.

Lemma insert_wf : forall fuel t o,
  wf Capacity t -> insert_result_wf Capacity (insert Capacity uninit fuel t o).
Proof.
  induction fuel as [|fuel IH]; intros t o H; simpl; [exact I|].
  destruct (QuadTreeAABB.intersects _ _); [|exact H].
  destruct (Capacity <=? _); [|apply insert_here_wf, H].
  pose proof (wf_split _ H) as Hs.
  destruct (split_quad t) as (c0 & c1 & c2 & c3 & E). rewrite E in *.
  simpl in Hs. destruct Hs as (Hd & H0 & H1 & H2 & H3).
  repeat (apply insert_child_wf;
          [apply IH; assumption | intros; simpl; tauto | intros]).
  unfold insert_result_wf. simpl. tauto.
Qed.

Lemma remove_child_wf : forall r ctx next,
  remove_result_wf Capacity r ->
  (forall c, wf Capacity c -> wf Capacity (ctx c)) ->
  (forall c, wf Capacity c -> remove_result_wf Capacity (next c)) ->
  remove_result_wf Capacity (remove_child r ctx next).
Proof.
  intros [[|] c |] ctx next Hr Hctx Hnext; simpl in *; auto using wf_resolve.
Qed.

Lemma remove_here_node_ok : forall d i d',
  node_ok Capacity d -> remove_here d i = Some d' -> node_ok Capacity d'.
Proof.
  intros d i d' [Hl Hc] H. unfold remove_here in H.
  destruct (0 <? object_count d); [|discriminate].
  destruct (remove_slot (objects d) i) as [objs|] eqn:E; [|discriminate].
  injection H as <-. split; simpl.
  - rewrite (remove_slot_length _ _ _ E). exact Hl.
  - rewrite Hc, (remove_slot_count_live _ _ _ E). lia.
Qed.

Lemma remove_wf : forall t o,
  wf Capacity t -> remove_result_wf Capacity (remove t o).
Proof.
  induction t as [d | d c0 IH0 c1 IH1 c2 IH2 c3 IH3]; intros o H; simpl.
  - destruct (QuadTreeAABB.intersects _ _); [|exact H].
    destruct (remove_here d _) as [d'|] eqn:E; [|exact I].
    cbn [remove_result_wf]. apply wf_resolve. cbn [remove_empty_nodes wf].
      eapply remove_here_node_ok; eauto.
  - destruct (QuadTreeAABB.intersects _ _); [|exact H].
    simpl in H. destruct H as (Hd & H0 & H1 & H2 & H3).
    destruct (remove_here d _) as [d'|] eqn:E.
    + cbn [remove_result_wf]. apply wf_resolve.
      apply (wf_remove_empty_nodes (Quad d' c0 c1 c2 c3)). simpl.
      pose proof (remove_here_node_ok _ _ _ Hd E). tauto.
    + repeat (apply remove_child_wf;
              [auto | intros; simpl; tauto | intros]).
      simpl. tauto.
Qed.

Lemma reachable_wf : forall t, reachable Capacity uninit t -> wf Capacity t.
Proof.
  induction 1 as [b | fuel t o r t' _ IH Hr Ht | t o b t' _ IH Hr].
  - apply wf_make.
  - pose proof (insert_wf fuel t o IH) as W. unfold insert_result_wf in W.
    rewrite Hr, Ht in W. exact W.
  - pose proof (remove_wf t o IH) as W. rewrite Hr in W. exact W.
Qed.

(** ** Which child a successful call went through *)

Lemma insert_child_true : forall r ctx next t',
  insert_child r ctx next = Ret true t' ->
  (exists c, r = Ret true c /\ t' = resolve_max_bounds (ctx c)) \/
  (exists c, r = Ret false c /\ next c = Ret true t').
Proof.
  intros [[|] c | c |] ctx next t' H; simpl in H; try discriminate.
  - left. exists c. split; congruence.
  - right. exists c. split; [reflexivity | assumption].
Qed.

Lemma remove_child_true : forall r ctx next t',
  remove_child r ctx next = RRet true t' ->
  (exists c, r = RRet true c /\ t' = resolve_max_bounds (ctx c)) \/
  (exists c, r = RRet false c /\ next c = RRet true t').
Proof.
  intros [[|] c |] ctx next t' H; simpl in H; try discriminate.
  - left. exists c. split; congruence.
  - right. exists c. split; [reflexivity | assumption].
Qed.

(** A successful [insert] either used a slot of the node, or went through
    the first child, in the order 0..3, that did not answer [false]. *)
Lemma insert_true_inv : forall fuel t o t',
  insert Capacity uninit (S fuel) t o = Ret true t' ->
  QuadTreeAABB.intersects (bounds (data t)) (QuadTreeObject.bounds o) = true /\
  ((object_count (data t) < Capacity /\ insert_here t o = Ret true t') \/
   (Capacity <= object_count (data t) /\
    exists k ck ck',
      nth_error (get_children (split Capacity uninit t)) k = Some ck /\
      insert Capacity uninit fuel ck o = Ret true ck' /\
      (forall j cj, j < k ->
         nth_error (get_children (split Capacity uninit t)) j = Some cj ->
         insert Capacity uninit fuel cj o = Ret false cj) /\
      t' = resolve_max_bounds (set_child (split Capacity uninit t) k ck'))).
Proof.
  intros fuel t o t' H. cbn [insert] in H.
  destruct (QuadTreeAABB.intersects _ _); [|discriminate].
  split; [reflexivity|].
  destruct (Capacity <=? object_count (data t)) eqn:L.
  2:{ left. apply Nat.leb_gt in L. auto. }
  right. apply Nat.leb_le in L. split; [exact L|].
  destruct (split_quad t) as (c0 & c1 & c2 & c3 & E). rewrite E in *.
  cbn [get_children].
  apply insert_child_true in H as [(a & Ea & ->) | (a & Ea & H)].
  { exists 0, c0, a. repeat split; auto. intros j cj Hj; lia. }
  pose proof (insert_false_unchanged _ _ _ _ Ea); subst a.
  apply insert_child_true in H as [(b & Eb & ->) | (b & Eb & H)].
  { exists 1, c1, b. repeat split; auto.
    intros [|j] cj Hj Hn; [|lia]. cbn in Hn. congruence. }
  pose proof (insert_false_unchanged _ _ _ _ Eb); subst b.
  apply insert_child_true in H as [(c & Ec & ->) | (c & Ec & H)].
  { exists 2, c2, c. repeat split; auto.
    intros [|[|j]] cj Hj Hn; [| |lia]; cbn in Hn; congruence. }
  pose proof (insert_false_unchanged _ _ _ _ Ec); subst c.
  apply insert_child_true in H as [(e & Ee & ->) | (e & Ee & H)].
  { exists 3, c3, e. repeat split; auto.
    intros [|[|[|j]]] cj Hj Hn; [| | |lia]; cbn in Hn; congruence. }
  discriminate.
Qed.

(** The same for [remove], read in the direction that builds the result. *)
Lemma remove_through_child : forall t o k ck ck',
  QuadTreeAABB.intersects (bounds (data t)) (QuadTreeObject.bounds o) = true ->
  remove_here (data t) (QuadTreeObject.id o) = None ->
  nth_error (get_children t) k = Some ck ->
  remove ck o = RRet true ck' ->
  (forall j cj, j < k -> nth_error (get_children t) j = Some cj ->
     remove cj o = RRet false cj) ->
  remove t o = RRet true (resolve_max_bounds (set_child t k ck')).
Proof.
  intros [d | d c0 c1 c2 c3] o k ck ck' Hi Hh Hk Hr Hb.
  { destruct k; discriminate. }
  cbn [remove]. cbn [data] in Hi, Hh. rewrite Hi, Hh. cbn [get_children] in *.
  destruct k as [|[|[|[|k]]]]; cbn in Hk; try (destruct k; discriminate);
    injection Hk as ->.
  - rewrite Hr. reflexivity.
  - rewrite (Hb 0 c0) by (auto; lia). cbn [remove_child].
    rewrite Hr. reflexivity.
  - rewrite (Hb 0 c0) by (auto; lia). cbn [remove_child].
    rewrite (Hb 1 c1) by (auto; lia). cbn [remove_child].
    rewrite Hr. reflexivity.
  - rewrite (Hb 0 c0) by (auto; lia). cbn [remove_child].
    rewrite (Hb 1 c1) by (auto; lia). cbn [remove_child].
    rewrite (Hb 2 c2) by (auto; lia). cbn [remove_child].
    rewrite Hr. reflexivity.
Qed.

Lemma remove_true_inv : forall t o t',
  remove t o = RRet true t' ->
  QuadTreeAABB.intersects (bounds (data t)) (QuadTreeObject.bounds o) = true /\
  ((exists d', remove_here (data t) (QuadTreeObject.id o) = Some d' /\
      t' = resolve_max_bounds (remove_empty_nodes (with_data d' t))) \/
   (remove_here (data t) (QuadTreeObject.id o) = None /\
    exists k ck ck',
      nth_error (get_children t) k = Some ck /\
      remove ck o = RRet true ck' /\
      t' = resolve_max_bounds (set_child t k ck'))).
Proof.
  intros [d | d c0 c1 c2 c3] o t' H; cbn [remove] in H; cbn [data];
    destruct (QuadTreeAABB.intersects _ _); try discriminate;
    (split; [reflexivity|]);
    destruct (remove_here d _) as [d'|] eqn:E; try discriminate.
  - left. exists d'. split; [reflexivity|]. cbn [with_data]. congruence.
  - left. exists d'. split; [reflexivity|]. cbn [with_data]. congruence.
  - right. split; [reflexivity|]. cbn [get_children].
    apply remove_child_true in H as [(a & Ea & ->) | (a & Ea & H)].
    { exists 0, c0, a. auto. }
    pose proof (remove_false_same _ _ _ Ea); subst a.
    apply remove_child_true in H as [(b & Eb & ->) | (b & Eb & H)].
    { exists 1, c1, b. auto. }
    pose proof (remove_false_same _ _ _ Eb); subst b.
    apply remove_child_true in H as [(c & Ec & ->) | (c & Ec & H)].
    { exists 2, c2, c. auto. }
    pose proof (remove_false_same _ _ _ Ec); subst c.
    apply remove_child_true in H as [(e & Ee & ->) | (e & Ee & H)].
    { exists 3, c3, e. auto. }
    discriminate.
Qed.

(** ** Counting live objects *)

Lemma QuadTree_children_ind : forall P : QuadTree -> Prop,
  (forall t, (forall c, In c (get_children t) -> P c) -> P t) ->
  forall t, P t.
Proof.
  intros P step.
  induction t as [d | d c0 IH0 c1 IH1 c2 IH2 c3 IH3]; apply step; simpl.
  - contradiction.
  - intros c [<- | [<- | [<- | [<- | []]]]]; assumption.
Qed.

Lemma count_live_id_children : forall i t,
  count_live_id i t =
  length (filter (live_with i) (objects (data t))) +
  list_sum (map (count_live_id i) (get_children t)).
Proof. intros i [d | d c0 c1 c2 c3]; simpl; lia. Qed.

Lemma get_total_objects_with_data : forall d t,
  get_total_objects (with_data d t) + object_count (data t) =
  get_total_objects t + object_count d.
Proof. intros d [d0 | d0 c0 c1 c2 c3]; simpl; lia. Qed.

Lemma get_total_objects_set_child : forall t k ck c,
  nth_error (get_children t) k = Some ck ->
  get_total_objects (set_child t k c) + get_total_objects ck =
  get_total_objects t + get_total_objects c.
Proof.
  intros [d | d c0 c1 c2 c3] k ck c H; [destruct k; discriminate|].
  destruct k as [|[|[|[|k]]]]; cbn in H; try (destruct k; discriminate);
    injection H as <-; simpl; lia.
Qed.

Lemma count_live_id_set_child : forall i t k ck c,
  nth_error (get_children t) k = Some ck ->
  count_live_id i (set_child t k c) + count_live_id i ck =
  count_live_id i t + count_live_id i c.
Proof.
  intros i [d | d c0 c1 c2 c3] k ck c H; [destruct k; discriminate|].
  destruct k as [|[|[|[|k]]]]; cbn in H; try (destruct k; discriminate);
    injection H as <-; simpl; lia.
Qed.

Lemma get_total_objects_split : forall t,
  get_total_objects (split Capacity uninit t) = get_total_objects t.
Proof. intros [d | d c0 c1 c2 c3]; simpl; lia. Qed.

Lemma count_live_id_split : forall i t,
  count_live_id i (split Capacity uninit t) = count_live_id i t.
Proof.
  intros i [d | d c0 c1 c2 c3]; simpl; [|reflexivity].
  rewrite filter_live_with_repeat_empty. simpl. lia.
Qed.

Lemma count_live_id_resolve : forall i t,
  count_live_id i (resolve_max_bounds t) = count_live_id i t.
Proof.
  intros i t. rewrite (count_live_id_children i (resolve_max_bounds t)).
  rewrite objects_resolve, get_children_resolve.
  symmetry. apply count_live_id_children.
Qed.

Lemma count_live_id_with_data : forall i d t,
  count_live_id i (with_data d t) + length (filter (live_with i) (objects (data t))) =
  count_live_id i t + length (filter (live_with i) (objects d)).
Proof. intros i d [d0 | d0 c0 c1 c2 c3]; simpl; lia. Qed.

Lemma get_total_objects_remove_empty_nodes : forall t,
  get_total_objects (remove_empty_nodes t) = get_total_objects t.
Proof.
  induction t as [d | d c0 IH0 c1 IH1 c2 IH2 c3 IH3]; cbn [remove_empty_nodes];
    [reflexivity|].
  match goal with |- context [if ?b then _ else _] => destruct b eqn:L end.
  - apply Nat.ltb_lt in L. cbn [merge]. simpl in *. lia.
  - simpl. lia.
Qed.

Lemma count_live_id_remove_empty_nodes_le : forall i t,
  count_live_id i (remove_empty_nodes t) <= count_live_id i t.
Proof.
  induction t as [d | d c0 IH0 c1 IH1 c2 IH2 c3 IH3]; cbn [remove_empty_nodes];
    [reflexivity|].
  match goal with |- context [if ?b then _ else _] => destruct b end.
  - cbn [merge]. simpl. lia.
  - simpl. lia.
Qed.

(** When the whole subtree is empty after [remove_empty_nodes], the node
    is a leaf again. *)
Lemma remove_empty_nodes_pruned : forall t,
  get_total_objects (remove_empty_nodes t) = 0 ->
  has_children_ (remove_empty_nodes t) = false.
Proof.
  intros [d | d c0 c1 c2 c3]; cbn [remove_empty_nodes]; [reflexivity|].
  match goal with |- context [if ?b then _ else _] => destruct b eqn:L end.
  - reflexivity.
  - intros H. apply Nat.ltb_ge in L. lia.
Qed.

Lemma insert_total : forall fuel t o t',
  insert Capacity uninit fuel t o = Ret true t' ->
  get_total_objects t' = S (get_total_objects t).
Proof.
  induction fuel as [|fuel IH]; intros t o t' H; [discriminate|].
  apply insert_true_inv in H as [_ [[_ H] | [_ (k & ck & ck' & Hk & Hr & _ & ->)]]].
  - destruct (insert_slot (objects (data t)) o) as [objs|] eqn:E.
    + destruct (insert_here_some _ _ _ E) as (m & E' & _).
      rewrite E' in H. injection H as <-.
      match goal with |- get_total_objects (with_data ?d t) = _ =>
        pose proof (get_total_objects_with_data d t) as W end.
      simpl in W. lia.
    + unfold insert_here in H. rewrite E in H. discriminate.
  - rewrite get_total_objects_resolve.
    pose proof (get_total_objects_set_child _ _ _ ck' Hk) as W.
    rewrite get_total_objects_split in W.
    rewrite (IH _ _ _ Hr) in W. lia.
Qed.

Lemma remove_here_count : forall d i d',
  remove_here d i = Some d' -> object_count d = S (object_count d').
Proof.
  intros d i d' H. unfold remove_here in H.
  destruct (0 <? object_count d) eqn:L; [|discriminate].
  destruct (remove_slot _ _); [|discriminate].
  injection H as <-. apply Nat.ltb_lt in L. simpl. lia.
Qed.

Lemma remove_total : forall t o t',
  remove t o = RRet true t' ->
  get_total_objects t = S (get_total_objects t').
Proof.
  induction t as [t IH] using QuadTree_children_ind. intros o t' H.
  apply remove_true_inv in H
    as [_ [(d' & Hh & ->) | [_ (k & ck & ck' & Hk & Hr & ->)]]].
  - rewrite get_total_objects_resolve, get_total_objects_remove_empty_nodes.
    pose proof (get_total_objects_with_data d' t) as W.
    rewrite (remove_here_count _ _ _ Hh) in W. lia.
  - rewrite get_total_objects_resolve.
    pose proof (get_total_objects_set_child _ _ _ ck' Hk) as W.
    rewrite (IH ck (nth_error_In _ _ Hk) _ _ Hr) in W. lia.
Qed.

Lemma insert_all_total : forall fuel os t t',
  insert_all Capacity uninit fuel t os = Some t' ->
  get_total_objects t' = get_total_objects t + length os.
Proof.
  induction os as [|o os IH]; intros t t' H; simpl in H.
  - injection H as <-. simpl. lia.
  - destruct (insert Capacity uninit fuel t o) as [[|] t1 | |] eqn:E;
      try discriminate.
    rewrite (IH _ _ H), (insert_total _ _ _ _ E). simpl. lia.
Qed.

Lemma remove_all_total : forall rs t t',
  remove_all t rs = Some t' ->
  get_total_objects t = get_total_objects t' + length rs.
Proof.
  induction rs as [|r rs IH]; intros t t' H; simpl in H.
  - injection H as <-. simpl. lia.
  - destruct (remove t r) as [[|] t1 |] eqn:E; try discriminate.
    rewrite (remove_total _ _ _ E), (IH _ _ H). simpl. lia.
Qed.

Lemma remove_all_snoc : forall rs r t t',
  remove_all t (rs ++ [r]) = Some t' ->
  exists tm, remove_all t rs = Some tm /\ remove tm r = RRet true t'.
Proof.
  induction rs as [|r0 rs IH]; intros r t t' H; simpl in H.
  - destruct (remove t r) as [[|] t1 |] eqn:E; try discriminate.
    exists t. split; [reflexivity|]. congruence.
  - destruct (remove t r0) as [[|] t1 |] eqn:E; try discriminate.
    destruct (IH _ _ _ H) as (tm & Hm & Hr).
    exists tm. simpl. rewrite E. auto.
Qed.

(** C4, as the code has it.  After a run of successful inserts into a new
    tree and as many successful removes, [get_total_objects] is 0; and when
    the last remove finds its match among the slots of the root itself, the
    root has no children, so nothing in the tree is subdivided.  (Pruning
    starts at the node of the match and only looks below it.) *)
Theorem emptied_tree_pruned_below_match : forall b fuel os rs t1 t2,
  insert_all Capacity uninit fuel (QuadTree_new Capacity uninit b) os = Some t1 ->
  remove_all t1 rs = Some t2 ->
  length rs = length os ->
  get_total_objects t2 = 0 /\
  (forall rs' r tm,
     rs = rs' ++ [r] -> remove_all t1 rs' = Some tm ->
     matches_here tm r = true ->
     has_children_ t2 = false /\ subdivided_nodes t2 = 0).
Proof.
  intros b fuel os rs t1 t2 Hi Hr Hlen.
  assert (Z0 : get_total_objects t2 = 0).
  { apply insert_all_total in Hi. apply remove_all_total in Hr.
    simpl in Hi. lia. }
  split; [exact Z0|].
  intros rs' r tm -> Hm Hmatch.
  apply remove_all_snoc in Hr as (tm' & Hm' & Hr).
  assert (tm' = tm) by congruence; subst tm'.
  unfold matches_here in Hmatch. apply andb_true_iff in Hmatch as [_ Hmatch].
  apply remove_true_inv in Hr as [_ [(d' & Hh & E) | [Hn _]]].
  - assert (L : has_children_ t2 = false).
    { rewrite E, has_children_resolve. apply remove_empty_nodes_pruned.
      rewrite E, get_total_objects_resolve in Z0. exact Z0. }
    split; [exact L|]. destruct t2; [reflexivity | discriminate].
  - rewrite Hn in Hmatch. discriminate.
Qed.

(** ** Filling a new node *)

Lemma insert_slot_room : forall objs o,
  count_live objs < length objs -> exists objs', insert_slot objs o = Some objs'.
Proof.
  intros objs o H. destruct (insert_slot objs o) eqn:E; [eauto|].
  apply insert_slot_none in E. lia.
Qed.

(** A leaf with a free slot takes the object into its own slots. *)
Lemma insert_leaf_with_room : forall n d o,
  node_ok Capacity d ->
  object_count d < Capacity ->
  QuadTreeAABB.intersects (bounds d) (QuadTreeObject.bounds o) = true ->
  exists d', insert Capacity uninit (S n) (Leaf d) o = Ret true (Leaf d') /\
             bounds d' = bounds d /\
             object_count d' = S (object_count d) /\
             node_ok Capacity d'.
Proof.
  intros n d o Hok Hc Hi. cbn [insert data]. rewrite Hi.
  apply Nat.leb_gt in Hc as L. rewrite L.
  destruct Hok as [Hl Hcl].
  destruct (insert_slot_room (objects d) o) as [objs E]; [lia|].
  destruct (insert_here_some (Leaf d) o objs E) as (m & -> & _).
  cbn [with_data data]. eexists. split; [reflexivity|].
  cbn [bounds object_count]. repeat split; try lia; cbn [objects].
  - rewrite (insert_slot_length _ _ _ E). exact Hl.
  - rewrite (insert_slot_count_live _ _ _ E). cbn [object_count]. lia.
Qed.

Lemma insert_all_leaf : forall n b os d,
  node_ok Capacity d ->
  bounds d = b ->
  object_count d + length os <= Capacity ->
  Forall (fun q => QuadTreeAABB.intersects b (QuadTreeObject.bounds q) = true) os ->
  exists d', insert_all Capacity uninit (S n) (Leaf d) os = Some (Leaf d') /\
             bounds d' = b /\
             object_count d' = object_count d + length os /\
             node_ok Capacity d'.
Proof.
  intros n b os. induction os as [|o os IH]; intros d Hok Hb Hc Hall.
  - exists d. simpl. repeat split; auto; apply Hok.
  - inversion Hall as [|? ? Ho Hos]; subst. simpl in Hc.
    destruct (insert_leaf_with_room n d o Hok) as (d1 & E & Hb1 & Hc1 & Hok1);
      [lia | exact Ho |].
    destruct (IH d1 Hok1 Hb1) as (d2 & E2 & Hb2 & Hc2 & Hok2); [lia | exact Hos |].
    exists d2. cbn [insert_all]. rewrite E.
    split; [exact E2|]. split; [exact Hb2|]. split; [|exact Hok2].
    simpl. lia.
Qed.

(** A child just made by [split], in a tree of positive capacity, answers
    at once: [false] when its quadrant misses the object, [true] otherwise. *)
Lemma insert_fresh_child : forall n b lvl o,
  0 < Capacity ->
  exists r c, insert Capacity uninit (S n) (make Capacity uninit b lvl) o = Ret r c.
Proof.
  intros n b lvl o Hpos.
  destruct (QuadTreeAABB.intersects b (QuadTreeObject.bounds o)) eqn:Hi.
  - destruct (insert_leaf_with_room n
                (mkNode b uninit 0 (repeat QuadTreeObject.empty Capacity) lvl) o)
      as (d' & E & _); [apply (wf_make b lvl) | exact Hpos | exact Hi |].
    exists true, (Leaf d'). exact E.
  - exists false, (make Capacity uninit b lvl). cbn [insert make data bounds].
    rewrite Hi. reflexivity.
Qed.

Lemma insert_child_returns : forall r ctx next,
  (exists b c, r = Ret b c) ->
  (forall c, exists t2, tree_of (next c) = Some t2) ->
  exists t2, tree_of (insert_child r ctx next) = Some t2.
Proof.
  intros r ctx next (b & c & ->) Hnext. destruct b; cbn [insert_child].
  - eexists. reflexivity.
  - apply Hnext.
Qed.

Lemma insert_child_subdivided : forall r ctx next,
  (forall c, has_children_ (ctx c) = true) ->
  (forall c t2, tree_of (next c) = Some t2 -> has_children_ t2 = true) ->
  forall t2, tree_of (insert_child r ctx next) = Some t2 -> has_children_ t2 = true.
Proof.
  intros [[|] c | c |] ctx next Hctx Hnext t2 H; cbn in H.
  - injection H as <-. rewrite has_children_resolve. apply Hctx.
  - apply (Hnext c t2 H).
  - injection H as <-. apply Hctx.
  - discriminate.
Qed.

(** C6.  A new node takes [C] objects whose bounds intersect its own into
    its slots and is still a leaf.  The next such [insert] subdivides it:
    however the call comes back, by a return or by the throw, the node has
    children; and for [C > 0] the call does come back. *)
Theorem capacity_boundary : forall n b os o,
  length os = Capacity ->
  Forall (fun q => QuadTreeAABB.intersects b (QuadTreeObject.bounds q) = true) os ->
  QuadTreeAABB.intersects b (QuadTreeObject.bounds o) = true ->
  exists t1,
    insert_all Capacity uninit (S n) (QuadTree_new Capacity uninit b) os = Some t1 /\
    has_children_ t1 = false /\
    object_count (data t1) = Capacity /\
    (forall fuel t2,
       tree_of (insert Capacity uninit fuel t1 o) = Some t2 ->
       has_children_ t2 = true) /\
    (0 < Capacity ->
     exists t2, tree_of (insert Capacity uninit (S (S n)) t1 o) = Some t2).
Proof.
  intros n b os o Hlen Hall Ho.
  destruct (insert_all_leaf n b os
              (mkNode b uninit 0 (repeat QuadTreeObject.empty Capacity) 0))
    as (d1 & E & Hb & Hc & Hok); auto.
  { apply (wf_make b 0). }
  { simpl. lia. }
  exists (Leaf d1). split; [exact E|]. split; [reflexivity|].
  cbn [object_count] in Hc. split; [cbn [data]; lia|].
  assert (L : (Capacity <=? object_count d1) = true) by (apply Nat.leb_le; lia).
  split.
  - intros [|fuel] t2; [discriminate|].
    cbn [insert data split]. rewrite Hb, Ho, L.
    repeat (apply insert_child_subdivided; [reflexivity | intros ? ?]).
    cbn. intros H. injection H as <-. reflexivity.
  - intros Hpos. cbn [insert data split]. rewrite Hb, Ho, L.
    repeat (apply insert_child_returns;
            [apply insert_fresh_child; exact Hpos | intros]).
    eexists. reflexivity.
Qed.

(** ** Fuel *)

Lemma insert_unfold : forall fuel t o,
  insert Capacity uninit (S fuel) t o =
  if QuadTreeAABB.intersects (bounds (data t)) (QuadTreeObject.bounds o) then
    if Capacity <=? object_count (data t) then
      match split Capacity uninit t with
      | Quad d c0 c1 c2 c3 =>
          insert_child (insert Capacity uninit fuel c0 o) (fun a => Quad d a c1 c2 c3) (fun a =>
          insert_child (insert Capacity uninit fuel c1 o) (fun b => Quad d a b c2 c3) (fun b =>
          insert_child (insert Capacity uninit fuel c2 o) (fun c => Quad d a b c c3) (fun c =>
          insert_child (insert Capacity uninit fuel c3 o) (fun e => Quad d a b c e) (fun e =>
          Throw (Quad d a b c e)))))
      | Leaf _ => Diverge
      end
    else insert_here t o
  else Ret false t.
Proof. reflexivity. Qed.

Ltac more_fuel_step IH H :=
  match type of H with
  | insert_child (insert ?C ?u ?f ?c ?o) _ _ <> Diverge =>
      let E := fresh "E" in
      destruct (insert C u f c o) as [[|] ? | ? |] eqn:E;
      [ rewrite (IH c o) by (rewrite E; discriminate); rewrite E; reflexivity
      | rewrite (IH c o) by (rewrite E; discriminate); rewrite E;
        cbn [insert_child] in H |- *
      | rewrite (IH c o) by (rewrite E; discriminate); rewrite E; reflexivity
      | exfalso; apply H; reflexivity ]
  end.

(** A call that came back comes back the same way with more fuel. *)
Lemma insert_more_fuel : forall fuel t o,
  insert Capacity uninit fuel t o <> Diverge ->
  insert Capacity uninit (S fuel) t o = insert Capacity uninit fuel t o.
Proof.
  induction fuel as [|fuel IH]; intros t o H; [exfalso; apply H; reflexivity|].
  rewrite (insert_unfold (S fuel)). rewrite insert_unfold in H |- *.
  destruct (QuadTreeAABB.intersects _ _); [|reflexivity].
  destruct (Capacity <=? _); [|reflexivity].
  destruct (split Capacity uninit t) as [d | d c0 c1 c2 c3]; [reflexivity|].
  more_fuel_step IH H. more_fuel_step IH H.
  more_fuel_step IH H. more_fuel_step IH H.
  reflexivity.
Qed.

Lemma insert_fuel_le : forall fuel fuel' t o,
  fuel <= fuel' ->
  insert Capacity uninit fuel t o <> Diverge ->
  insert Capacity uninit fuel' t o = insert Capacity uninit fuel t o.
Proof.
  intros fuel fuel' t o Hle H. induction Hle as [|m Hle IH]; [reflexivity|].
  rewrite insert_more_fuel; rewrite IH; auto.
Qed.

Lemma insert_child_comes_back : forall r ctx next,
  r <> Diverge -> (forall c, next c <> Diverge) ->
  insert_child r ctx next <> Diverge.
Proof.
  intros [[|] c | c |] ctx next Hr Hnext; cbn; try discriminate.
  - apply Hnext.
  - contradiction.
Qed.

Lemma insert_fresh_comes_back : forall n b lvl o,
  0 < Capacity ->
  insert Capacity uninit (S n) (make Capacity uninit b lvl) o <> Diverge.
Proof.
  intros n b lvl o Hpos.
  destruct (insert_fresh_child n b lvl o Hpos) as (r & c & E).
  rewrite E. discriminate.
Qed.

(** With a positive capacity [insert] comes back: the recursion goes down
    the tree and one level into freshly split children. *)
Lemma insert_comes_back : forall t o fuel,
  0 < Capacity ->
  depth t + 2 <= fuel ->
  insert Capacity uninit fuel t o <> Diverge.
Proof.
  intros t o fuel Hpos. revert fuel.
  induction t as [d | d c0 IH0 c1 IH1 c2 IH2 c3 IH3]; intros fuel Hf;
    (destruct fuel as [|fuel]; [cbn in Hf; lia|]);
    rewrite insert_unfold;
    (destruct (QuadTreeAABB.intersects _ _); [|discriminate]);
    (destruct (Capacity <=? _);
       [|unfold insert_here; destruct (insert_slot _ _); discriminate]);
    cbn [split].
  - destruct fuel as [|fuel]; [cbn in Hf; lia|].
    repeat (apply insert_child_comes_back;
            [apply insert_fresh_comes_back; exact Hpos | intros]).
    discriminate.
  - cbn [depth] in Hf.
    repeat (apply insert_child_comes_back;
            [ first [apply IH0 | apply IH1 | apply IH2 | apply IH3]; lia
            | intros ]).
    discriminate.
Qed.

(** ** Queries *)

Lemma query_buffer_shape : forall t r bc out,
  query_buffer t r bc out = query_with max_bounds t r bc out.
Proof.
  induction t as [d | d c0 IH0 c1 IH1 c2 IH2 c3 IH3]; intros r bc out; simpl;
    [reflexivity|].
  rewrite IH0, IH1, IH2, IH3. reflexivity.
Qed.

Lemma query_vector_shape : forall t r bc out,
  query_vector t r bc out = query_with bounds t r bc out.
Proof.
  induction t as [d | d c0 IH0 c1 IH1 c2 IH2 c3 IH3]; intros r bc out; simpl;
    [reflexivity|].
  rewrite IH0, IH1, IH2, IH3. reflexivity.
Qed.

Lemma query_slots_app : forall d r out,
  query_slots d r out = out ++ query_slots d r [].
Proof.
  intros d r out. unfold query_slots.
  destruct (object_count d <? 1); [rewrite app_nil_r|]; reflexivity.
Qed.

Lemma query_with_app : forall sel t r bc out,
  query_with sel t r bc out = out ++ query_with sel t r bc [].
Proof.
  intros sel.
  induction t as [d | d c0 IH0 c1 IH1 c2 IH2 c3 IH3]; intros r bc out; simpl.
  - destruct (_ || _); [apply query_slots_app | rewrite app_nil_r; reflexivity].
  - destruct (_ || _); [|rewrite app_nil_r; reflexivity].
    rewrite query_slots_app.
    rewrite (query_slots_app d r (query_with sel c3 r bc _)).
    rewrite (IH3 r bc (query_with sel c2 r bc _)).
    rewrite (IH3 r bc (query_with sel c2 r bc
               (query_with sel c1 r bc (query_with sel c0 r bc [])))).
    rewrite (IH2 r bc (query_with sel c1 r bc _)).
    rewrite (IH2 r bc (query_with sel c1 r bc (query_with sel c0 r bc []))).
    rewrite (IH1 r bc (query_with sel c0 r bc out)).
    rewrite (IH1 r bc (query_with sel c0 r bc [])).
    rewrite (IH0 r bc out).
    rewrite <- !app_assoc. reflexivity.
Qed.

(** A query from an empty output: the children's results in order, then
    the node's own slots. *)
Lemma query_with_children : forall sel t r bc,
  query_with sel t r bc [] =
  if QuadTreeAABB.intersects (sel (data t)) r || negb bc
  then concat (map (fun c => query_with sel c r bc []) (get_children t))
       ++ query_slots (data t) r []
  else [].
Proof.
  intros sel [d | d c0 c1 c2 c3] r bc; cbn [query_with data get_children map concat].
  - reflexivity.
  - destruct (_ || _); [|reflexivity].
    rewrite query_slots_app.
    rewrite (query_with_app sel c3), (query_with_app sel c2), (query_with_app sel c1).
    rewrite app_nil_r, <- !app_assoc. reflexivity.
Qed.

Lemma times_returned_app : forall i l1 l2,
  times_returned i (l1 ++ l2) = times_returned i l1 + times_returned i l2.
Proof. intros. unfold times_returned. rewrite filter_app, length_app. reflexivity. Qed.

Lemma times_returned_slots_le : forall i d r,
  times_returned i (query_slots d r []) <= length (filter (live_with i) (objects d)).
Proof.
  intros i d r. unfold query_slots, times_returned.
  destruct (object_count d <? 1); [simpl; lia|]. cbn [app].
  induction (objects d) as [|s rest IH]; [simpl; lia|].
  cbn [filter]. unfold hit at 1, live_with at 1.
  destruct (QuadTreeObject.removed s); cbn [negb andb]; [exact IH|].
  destruct (QuadTreeAABB.intersects _ r); cbn [filter];
    destruct (QuadTreeObject.id s =? i)%N; cbn [length]; lia.
Qed.

Lemma times_returned_concat_le : forall i (q : QuadTree -> list Obj) cs,
  (forall c, In c cs -> times_returned i (q c) <= count_live_id i c) ->
  times_returned i (concat (map q cs)) <= list_sum (map (count_live_id i) cs).
Proof.
  intros i q. induction cs as [|c cs IH]; intros H; simpl; [unfold times_returned; simpl; lia|].
  rewrite times_returned_app.
  pose proof (H c (or_introl eq_refl)).
  assert (times_returned i (concat (map q cs)) <= list_sum (map (count_live_id i) cs))
    by (apply IH; intros; apply H; right; assumption).
  lia.
Qed.

(** A query returns an id at most as often as live slots carry it. *)
Lemma times_returned_query_le : forall sel i r bc t,
  times_returned i (query_with sel t r bc []) <= count_live_id i t.
Proof.
  intros sel i r bc.
  induction t as [t IH] using QuadTree_children_ind.
  rewrite query_with_children, count_live_id_children.
  destruct (_ || _); [|unfold times_returned; simpl; lia].
  rewrite times_returned_app.
  pose proof (times_returned_slots_le i (data t) r).
  pose proof (times_returned_concat_le i (fun c => query_with sel c r bc [])
                (get_children t) IH).
  lia.
Qed.

(** ** What [resolve_max_bounds] guarantees *)

Lemma covers_refl : forall a, QuadTreeAABB.covers a a.
Proof. intros a. unfold QuadTreeAABB.covers. lia. Qed.

Lemma cover_object_covers : forall b m s,
  QuadTreeAABB.covers m b -> QuadTreeAABB.covers (cover_object b m s) b.
Proof.
  intros b m s H. unfold cover_object.
  destruct (QuadTreeObject.removed s); [exact H|].
  match goal with |- context [if ?c then _ else _] => destruct c end.
  - unfold QuadTreeAABB.covers. cbn. lia.
  - apply covers_refl.
Qed.

Lemma cover_child_covers : forall b m c,
  QuadTreeAABB.covers m b -> QuadTreeAABB.covers (cover_child b m c) b.
Proof.
  intros b m c H. unfold cover_child.
  match goal with |- context [if ?c then _ else _] => destruct c end.
  - unfold QuadTreeAABB.covers in *. cbn. lia.
  - apply covers_refl.
Qed.

Lemma fold_left_covers : forall (A : Type) (f : AABB -> A -> AABB) b,
  (forall m a, QuadTreeAABB.covers m b -> QuadTreeAABB.covers (f m a) b) ->
  forall l m, QuadTreeAABB.covers m b -> QuadTreeAABB.covers (fold_left f l m) b.
Proof.
  intros A f b Hf. induction l as [|a l IH]; intros m Hm; simpl; auto.
Qed.

(** After [resolve_max_bounds], [max_bounds] contains the node's own
    [bounds]. *)
Lemma resolve_covers_bounds : forall t,
  QuadTreeAABB.covers (max_bounds (data (resolve_max_bounds t))) (bounds (data t)).
Proof.
  intros t. unfold resolve_max_bounds. rewrite data_with_data. cbn [max_bounds set_max_bounds].
  apply fold_left_covers; [intros; apply cover_child_covers; assumption|].
  apply fold_left_covers; [intros; apply cover_object_covers; assumption|].
  apply covers_refl.
Qed.

Lemma intersects_widen : forall m b o r,
  QuadTreeAABB.covers m b ->
  QuadTreeAABB.intersects b o = true ->
  QuadTreeAABB.covers r o ->
  QuadTreeAABB.intersects m r = true.
Proof.
  intros m b o r Hm Hi Hr. apply intersects_spec in Hi. apply intersects_spec.
  unfold QuadTreeAABB.covers in *. lia.
Qed.

Lemma valid_object_hit : forall r o,
  QuadTreeAABB.verify (QuadTreeObject.bounds o) = true ->
  QuadTreeAABB.covers r (QuadTreeObject.bounds o) ->
  hit r (QuadTreeObject.stored o) = true.
Proof.
  intros r o Hv Hr. unfold hit. cbn. apply verify_spec in Hv.
  apply intersects_spec. unfold QuadTreeAABB.covers in Hr. lia.
Qed.

(** A successful [insert] leaves [bounds] alone and a [max_bounds] that
    contains [bounds] at the node it was called on. *)
Lemma insert_true_root : forall fuel t o t',
  insert Capacity uninit fuel t o = Ret true t' ->
  bounds (data t') = bounds (data t) /\
  QuadTreeAABB.covers (max_bounds (data t')) (bounds (data t)).
Proof.
  intros [|fuel] t o t' H; [discriminate|].
  apply insert_true_inv in H as [_ [[_ H] | [_ (k & ck & ck' & Hk & Hr & _ & ->)]]].
  - destruct (insert_slot (objects (data t)) o) as [objs|] eqn:E.
    + destruct (insert_here_some _ _ _ E) as (m & E' & Hm).
      rewrite E' in H. injection H as <-. rewrite data_with_data.
      cbn [bounds max_bounds]. split; [reflexivity|].
      rewrite Hm.
      match goal with |- QuadTreeAABB.covers (max_bounds (data (resolve_max_bounds ?x))) _ =>
        pose proof (resolve_covers_bounds x) as W end.
      rewrite data_with_data in W. exact W.
    + unfold insert_here in H. rewrite E in H. discriminate.
  - assert (B : bounds (data (set_child (split Capacity uninit t) k ck')) = bounds (data t)).
    { destruct (split_quad t) as (c0 & c1 & c2 & c3 & E). rewrite E.
      destruct k as [|[|[|[|k]]]]; reflexivity. }
    split.
    + rewrite bounds_resolve. exact B.
    + rewrite <- B. apply resolve_covers_bounds.
Qed.

Lemma get_children_set_child : forall t k ck c,
  nth_error (get_children t) k = Some ck ->
  nth_error (get_children (set_child t k c)) k = Some c /\
  forall j, j <> k ->
    nth_error (get_children (set_child t k c)) j = nth_error (get_children t) j.
Proof.
  intros [d | d c0 c1 c2 c3] k ck c H; [destruct k; discriminate|].
  destruct k as [|[|[|[|k]]]]; cbn in H; try (destruct k; discriminate);
    (split; [reflexivity|]);
    intros [|[|[|[|j]]]] Hj; try reflexivity; try lia.
Qed.

Lemma data_set_child : forall t k c, data (set_child t k c) = data t.
Proof.
  intros [d | d c0 c1 c2 c3] k c; [destruct k; reflexivity|].
  destruct k as [|[|[|[|k]]]]; reflexivity.
Qed.

(** The object just inserted is met by every query whose region contains
    its bounds, as long as the box tested at each node contains the node's
    [bounds]. *)
Lemma insert_query_In : forall sel,
  (forall fuel t o t', insert Capacity uninit fuel t o = Ret true t' ->
     QuadTreeAABB.covers (sel (data t')) (bounds (data t))) ->
  forall fuel t o t' r bc,
    insert Capacity uninit fuel t o = Ret true t' ->
    QuadTreeAABB.verify (QuadTreeObject.bounds o) = true ->
    QuadTreeAABB.covers r (QuadTreeObject.bounds o) ->
    In (QuadTreeObject.stored o) (query_with sel t' r bc []).
Proof.
  intros sel Hsel.
  induction fuel as [|fuel IH]; intros t o t' r bc H Hv Hr; [discriminate|].
  pose proof (Hsel _ _ _ _ H) as Hc.
  apply insert_true_inv in H as [Hi [[_ H] | [_ (k & ck & ck' & Hk & Hins & _ & ->)]]];
    rewrite query_with_children, (intersects_widen _ _ _ _ Hc Hi Hr);
    cbn [orb]; apply in_or_app.
  - right.
    destruct (insert_slot (objects (data t)) o) as [objs|] eqn:E.
    + destruct (insert_here_some _ _ _ E) as (m & E' & _).
      rewrite E' in H. injection H as <-. rewrite data_with_data.
      unfold query_slots. cbn [object_count objects].
      replace (object_count (data t) + 1 <? 1) with false
        by (symmetry; apply Nat.ltb_ge; lia).
      cbn [app]. apply filter_In. split.
      * apply (insert_slot_In _ _ _ E).
      * apply valid_object_hit; assumption.
    + unfold insert_here in H. rewrite E in H. discriminate.
  - left. rewrite get_children_resolve.
    apply in_concat. exists (query_with sel ck' r bc []). split.
    + apply in_map_iff. exists ck'. split; [reflexivity|].
      destruct (get_children_set_child _ _ _ ck' Hk) as [Hn _].
      apply (nth_error_In _ _ Hn).
    + apply (IH _ _ _ _ _ Hins Hv Hr).
Qed.

(** ** Removing what was just inserted *)

Lemma insert_false_misses : forall fuel t o t',
  wf Capacity t ->
  insert Capacity uninit fuel t o = Ret false t' ->
  QuadTreeAABB.intersects (bounds (data t)) (QuadTreeObject.bounds o) = false.
Proof.
  intros [|fuel] t o t' Hwf H; [discriminate|]. cbn [insert] in H.
  destruct (QuadTreeAABB.intersects _ _); [|reflexivity]. exfalso.
  destruct (Capacity <=? object_count (data t)) eqn:L.
  - destruct (split_quad t) as (c0 & c1 & c2 & c3 & E). rewrite E in H.
    apply insert_child_false in H as (a & _ & H).
    apply insert_child_false in H as (b & _ & H).
    apply insert_child_false in H as (c & _ & H).
    apply insert_child_false in H as (e & _ & H).
    discriminate.
  - apply Nat.leb_gt in L. unfold insert_here in H.
    destruct (insert_slot (objects (data t)) o) eqn:E; [discriminate|].
    apply insert_slot_none in E. destruct (wf_node_ok _ Hwf) as [Hl Hc]. lia.
Qed.

Lemma remove_misses : forall t o,
  QuadTreeAABB.intersects (bounds (data t)) (QuadTreeObject.bounds o) = false ->
  remove t o = RRet false t.
Proof. intros [d | d c0 c1 c2 c3] o H; cbn [remove]; cbn [data] in H; rewrite H; reflexivity. Qed.

Lemma remove_in_own_slots : forall t o d',
  QuadTreeAABB.intersects (bounds (data t)) (QuadTreeObject.bounds o) = true ->
  remove_here (data t) (QuadTreeObject.id o) = Some d' ->
  remove t o = RRet true (resolve_max_bounds (remove_empty_nodes (with_data d' t))).
Proof.
  intros [d | d c0 c1 c2 c3] o d' Hi Hh; cbn [remove]; cbn [data] in Hi, Hh;
    rewrite Hi, Hh; reflexivity.
Qed.

Lemma remove_here_absent : forall d i,
  filter (live_with i) (objects d) = [] -> remove_here d i = None.
Proof.
  intros d i H. unfold remove_here. rewrite (remove_slot_absent _ _ H).
  destruct (0 <? object_count d); reflexivity.
Qed.

Lemma remove_here_set_max_bounds : forall d m i,
  remove_here d i = None -> remove_here (set_max_bounds d m) i = None.
Proof.
  intros d m i H. unfold remove_here in *. cbn [object_count objects set_max_bounds].
  destruct (0 <? object_count d); [|reflexivity].
  destruct (remove_slot (objects d) i); [discriminate | reflexivity].
Qed.

Lemma length_zero_nil : forall (A : Type) (l : list A), length l = 0 -> l = [].
Proof. intros A [|a l] H; [reflexivity | discriminate]. Qed.

Lemma count_live_id_child_zero : forall i t c,
  count_live_id i t = 0 -> In c (get_children t) -> count_live_id i c = 0.
Proof.
  intros i [d | d c0 c1 c2 c3] c H Hin; simpl in *; [contradiction|].
  destruct Hin as [<- | [<- | [<- | [<- | []]]]]; lia.
Qed.

Lemma count_live_id_own_zero : forall i t,
  count_live_id i t = 0 -> filter (live_with i) (objects (data t)) = [].
Proof.
  intros i t H. rewrite count_live_id_children in H.
  apply length_zero_nil. lia.
Qed.

(** Removing an object right after its insertion succeeds and leaves no
    live slot with its id, when none had it before the insertion. *)
Lemma remove_after_insert : forall fuel t o t',
  wf Capacity t ->
  count_live_id (QuadTreeObject.id o) t = 0 ->
  insert Capacity uninit fuel t o = Ret true t' ->
  exists t'', remove t' o = RRet true t'' /\
              count_live_id (QuadTreeObject.id o) t'' = 0.
Proof.
  induction fuel as [|fuel IH]; intros t o t' Hwf Hz H; [discriminate|].
  pose proof (insert_true_root _ _ _ _ H) as [Hb _].
  apply insert_true_inv in H
    as [Hi [[_ H] | [_ (k & ck & ck' & Hk & Hins & Hbefore & ->)]]].
  - (* the object sits in a slot of this node *)
    destruct (insert_slot (objects (data t)) o) as [objs|] eqn:E.
    2:{ unfold insert_here in H. rewrite E in H. discriminate. }
    destruct (insert_here_some _ _ _ E) as (m & E' & _).
    rewrite E' in H. injection H as <-.
    destruct (remove_slot_after_insert_slot _ _ _ (count_live_id_own_zero _ _ Hz) E)
      as (objs'' & Hrs & Hnone).
    eexists. split.
    + apply remove_in_own_slots.
      * rewrite data_with_data. exact Hi.
      * rewrite data_with_data. unfold remove_here. cbn [object_count objects].
        replace (0 <? object_count (data t) + 1) with true
          by (symmetry; apply Nat.ltb_lt; lia).
        rewrite Hrs. reflexivity.
    + rewrite count_live_id_resolve, with_data_with_data.
      match goal with |- count_live_id _ (remove_empty_nodes (with_data ?d t)) = 0 =>
        pose proof (count_live_id_remove_empty_nodes_le (QuadTreeObject.id o) (with_data d t)) as L1;
        pose proof (count_live_id_with_data (QuadTreeObject.id o) d t) as L2 end.
      cbn [objects set_slots] in L2. rewrite Hnone in L2. simpl in L2. lia.
  - (* the object went down through child [k] *)
    set (s := split Capacity uninit t) in *.
    assert (Hs : wf Capacity s) by (apply wf_split; exact Hwf).
    assert (Hzs : count_live_id (QuadTreeObject.id o) s = 0)
      by (unfold s; rewrite count_live_id_split; exact Hz).
    assert (Hck : wf Capacity ck)
      by (apply (wf_children s); [exact Hs | apply (nth_error_In _ _ Hk)]).
    assert (Hzk : count_live_id (QuadTreeObject.id o) ck = 0)
      by (apply (count_live_id_child_zero _ s); [exact Hzs | apply (nth_error_In _ _ Hk)]).
    destruct (IH _ _ _ Hck Hzk Hins) as (ck'' & Hrem & Hz'').
    destruct (get_children_set_child s k ck ck' Hk) as [Hnk Hnj].
    set (u := resolve_max_bounds (set_child s k ck')) in *.
    assert (Hdu : data u = set_max_bounds (data t) (max_bounds (data u))).
    { unfold u. rewrite data_resolve, data_set_child. unfold s. rewrite data_split.
      reflexivity. }
    exists (resolve_max_bounds (set_child u k ck'')). split.
    + apply (remove_through_child u o k ck' ck'').
      * rewrite Hb. exact Hi.
      * rewrite Hdu. apply remove_here_set_max_bounds, remove_here_absent.
        apply count_live_id_own_zero, Hz.
      * unfold u. rewrite get_children_resolve. exact Hnk.
      * exact Hrem.
      * intros j cj Hj Hcj. unfold u in Hcj. rewrite get_children_resolve in Hcj.
        rewrite Hnj in Hcj by lia.
        apply remove_misses.
        apply (insert_false_misses fuel cj o cj).
        -- apply (wf_children s); [exact Hs | apply (nth_error_In _ _ Hcj)].
        -- apply (Hbefore j cj Hj Hcj).
    + rewrite count_live_id_resolve.
      assert (Hku : nth_error (get_children u) k = Some ck')
        by (unfold u; rewrite get_children_resolve; exact Hnk).
      pose proof (count_live_id_set_child (QuadTreeObject.id o) u k ck' ck'' Hku) as W1.
      pose proof (count_live_id_set_child (QuadTreeObject.id o) s k ck ck' Hk) as W2.
      unfold u in W1 at 2. rewrite count_live_id_resolve in W1. lia.
Qed.

Lemma insert_count_live_id : forall fuel t o t',
  insert Capacity uninit fuel t o = Ret true t' ->
  count_live_id (QuadTreeObject.id o) t' = S (count_live_id (QuadTreeObject.id o) t).
Proof.
  induction fuel as [|fuel IH]; intros t o t' H; [discriminate|].
  apply insert_true_inv in H as [_ [[_ H] | [_ (k & ck & ck' & Hk & Hr & _ & ->)]]].
  - destruct (insert_slot (objects (data t)) o) as [objs|] eqn:E.
    + destruct (insert_here_some _ _ _ E) as (m & E' & _).
      rewrite E' in H. injection H as <-.
      match goal with |- count_live_id _ (with_data ?d t) = _ =>
        pose proof (count_live_id_with_data (QuadTreeObject.id o) d t) as W end.
      cbn [objects] in W. rewrite (insert_slot_count_id _ _ _ E) in W. lia.
    + unfold insert_here in H. rewrite E in H. discriminate.
  - rewrite count_live_id_resolve.
    pose proof (count_live_id_set_child (QuadTreeObject.id o) _ _ _ ck' Hk) as W.
    rewrite count_live_id_split in W.
    rewrite (IH _ _ _ Hr) in W. lia.
Qed.

Lemma times_returned_In : forall o res,
  In (QuadTreeObject.stored o) res -> 1 <= times_returned (QuadTreeObject.id o) res.
Proof.
  intros o res H. unfold times_returned.
  assert (Hf : In (QuadTreeObject.stored o)
                  (filter (fun s => (QuadTreeObject.id s =? QuadTreeObject.id o)%N) res)).
  { apply filter_In. split; [exact H|]. cbn. apply N.eqb_refl. }
  destruct (filter _ res); [contradiction | simpl; lia].
Qed.

(** C7.  In a reachable tree that holds no live object with the id of [O],
    after [insert] of an [O] with valid bounds has returned [true], each of
    the two queries, over any region that contains the bounds of [O],
    returns [O] and returns its id exactly once; [remove] of [O] then
    returns [true], and the same queries return that id no more. *)
Theorem insert_query_remove_roundtrip : forall fuel t o t' r bc,
  reachable Capacity uninit t ->
  count_live_id (QuadTreeObject.id o) t = 0 ->
  QuadTreeAABB.verify (QuadTreeObject.bounds o) = true ->
  insert Capacity uninit fuel t o = Ret true t' ->
  QuadTreeAABB.covers r (QuadTreeObject.bounds o) ->
  (In (QuadTreeObject.stored o) (query_buffer t' r bc []) /\
   times_returned (QuadTreeObject.id o) (query_buffer t' r bc []) = 1) /\
  (In (QuadTreeObject.stored o) (query_vector t' r bc []) /\
   times_returned (QuadTreeObject.id o) (query_vector t' r bc []) = 1) /\
  exists t'',
    remove t' o = RRet true t'' /\
    times_returned (QuadTreeObject.id o) (query_buffer t'' r bc []) = 0 /\
    times_returned (QuadTreeObject.id o) (query_vector t'' r bc []) = 0.
Proof.
  intros fuel t o t' r bc Hreach Hfresh Hv Hins Hr.
  pose proof (reachable_wf _ Hreach) as Hwf.
  pose proof (insert_count_live_id _ _ _ _ Hins) as Hone. rewrite Hfresh in Hone.
  rewrite !query_buffer_shape, !query_vector_shape.
  assert (Hbuf : In (QuadTreeObject.stored o) (query_with max_bounds t' r bc [])).
  { apply (insert_query_In max_bounds) with (fuel := fuel) (t := t); auto.
    intros f a b c H. apply (insert_true_root _ _ _ _ H). }
  assert (Hvec : In (QuadTreeObject.stored o) (query_with bounds t' r bc [])).
  { apply (insert_query_In bounds) with (fuel := fuel) (t := t); auto.
    intros f a b c H. destruct (insert_true_root _ _ _ _ H) as [<- _].
    apply covers_refl. }
  split; [|split].
  - split; [exact Hbuf|].
    pose proof (times_returned_In _ _ Hbuf).
    pose proof (times_returned_query_le max_bounds (QuadTreeObject.id o) r bc t'). lia.
  - split; [exact Hvec|].
    pose proof (times_returned_In _ _ Hvec).
    pose proof (times_returned_query_le bounds (QuadTreeObject.id o) r bc t'). lia.
  - destruct (remove_after_insert _ _ _ _ Hwf Hfresh Hins) as (t'' & Hrem & Hz).
    exists t''. split; [exact Hrem|].
    rewrite !query_buffer_shape, !query_vector_shape.
    pose proof (times_returned_query_le max_bounds (QuadTreeObject.id o) r bc t'').
    pose proof (times_returned_query_le bounds (QuadTreeObject.id o) r bc t''). lia.
Qed.

(** C10.  Whenever [remove] returns [false] the tree it leaves is the
    tree it was given: every node keeps its slots, [object_count],
    children and [max_bounds]. *)
Theorem remove_false_unchanged : forall t o t',
  remove t o = RRet false t' -> t' = t.
Proof. exact remove_false_same. Qed.

End Properties.

(** ** The code at concrete inputs *)

(** C1.  Capacity 2, root [(0,0)-(100,100)]: after [spill] (left edge
    -10) and then [inner] went into the two slots of the root, both are
    live there, and the [max_bounds] of the root is again its [bounds]: the
    slot loop of [resolve_max_bounds] keeps the last live slot only, so
    [max_bounds] does not contain the bounds of [spill]. *)
Theorem max_bounds_keeps_last_slot_only : forall u,
  exists t,
    insert_all 2 u 1 (QuadTree_new 2 u universe) [spill; inner] = Some t /\
    objects (data t) = [QuadTreeObject.stored spill; QuadTreeObject.stored inner] /\
    max_bounds (data t) = universe /\
    QuadTreeAABB.coversb (max_bounds (data t)) (QuadTreeObject.bounds spill) = false.
Proof.
  intros u. eexists. split; [reflexivity|]. repeat split.
Qed.

(** C2.  Capacity 2, root [(0,0)-(100,100)] holding [corner], whose
    bounds meet the region [probe_corner] left of and above the root: the
    buffer overload tests [max_bounds] and returns the object, the vector
    overload tests [bounds] and returns nothing.  With [spill] and [inner]
    in the root, the buffer overload misses [spill] as well, for the region
    [probe_spill]. *)
Theorem query_vector_prunes_on_bounds : forall u,
  (exists t,
     insert_all 2 u 1 (QuadTree_new 2 u universe) [corner] = Some t /\
     hit probe_corner (QuadTreeObject.stored corner) = true /\
     query_buffer t probe_corner true [] = [QuadTreeObject.stored corner] /\
     query_vector t probe_corner true [] = []) /\
  (exists t,
     insert_all 2 u 1 (QuadTree_new 2 u universe) [spill; inner] = Some t /\
     hit probe_spill (QuadTreeObject.stored spill) = true /\
     query_buffer t probe_spill true [] = []).
Proof.
  intros u. split; eexists; (split; [reflexivity|]); repeat split.
Qed.

(** C3.  On a leaf whose [bounds] intersect the object's and whose slots
    hold no live match, [remove] reaches the end of its body: there is no
    [return] on that path, so no [false] is returned. *)
Theorem remove_absent_from_leaf_has_no_return : forall u,
  QuadTreeAABB.intersects (bounds (data (QuadTree_new 2 u universe)))
                          (QuadTreeObject.bounds near) = true /\
  has_children_ (QuadTree_new 2 u universe) = false /\
  remove (QuadTree_new 2 u universe) near = NoReturn /\
  remove full_leaf far = NoReturn /\
  forall d o,
    QuadTreeAABB.intersects (bounds d) (QuadTreeObject.bounds o) = true ->
    remove_here d (QuadTreeObject.id o) = None ->
    remove (Leaf d) o = NoReturn.
Proof.
  intros u. repeat split.
  intros d o Hi Hh. cbn [remove]. rewrite Hi, Hh. reflexivity.
Qed.

(** C4 as the specification states it does not hold.  Capacity 1: [near] goes into the root,
    [far] into the bottom-right child.  Removing [near] first and [far]
    second, both with success, leaves no object, and the root keeps its
    four children: the second match is found in the child, and the pruning
    that follows it starts there. *)
Lemma emptied_tree_keeps_subdivided_root :
  exists t1 t2,
    insert_all 1 QuadTreeAABB.zero 2 (QuadTree_new 1 QuadTreeAABB.zero universe)
               [near; far] = Some t1 /\
    remove_all t1 [near; far] = Some t2 /\
    get_total_objects t2 = 0 /\
    has_children_ t2 = true /\
    subdivided_nodes t2 = 1.
Proof. do 2 eexists. split; [reflexivity|]. repeat split. Qed.

(** C7 as the specification states it does not hold.  Capacity 2: [near] is inserted, and
    inserted once more with success.  Both queries over its bounds return
    its id twice; after [remove] they return it once. *)
Lemma reinserted_object_is_returned_twice :
  exists t1 t2 t3,
    reachable 2 QuadTreeAABB.zero t1 /\
    QuadTreeAABB.verify (QuadTreeObject.bounds near) = true /\
    insert 2 QuadTreeAABB.zero 1 t1 near = Ret true t2 /\
    times_returned (QuadTreeObject.id near)
      (query_buffer t2 (QuadTreeObject.bounds near) true []) = 2 /\
    times_returned (QuadTreeObject.id near)
      (query_vector t2 (QuadTreeObject.bounds near) true []) = 2 /\
    remove t2 near = RRet true t3 /\
    times_returned (QuadTreeObject.id near)
      (query_buffer t3 (QuadTreeObject.bounds near) true []) = 1 /\
    times_returned (QuadTreeObject.id near)
      (query_vector t3 (QuadTreeObject.bounds near) true []) = 1.
Proof.
  do 3 eexists. split.
  - apply (reach_insert 2 QuadTreeAABB.zero 1
             (QuadTree_new 2 QuadTreeAABB.zero universe) near _ _
             (reach_new _ _ _) eq_refl).
    reflexivity.
  - split; [reflexivity|]. split; [reflexivity|]. repeat split.
Qed.

(** ** Instances of the theorems *)

Lemma split_tiles_parent_witness :
  QuadTreeAABB.verify universe = true /\
  map edges (map get_bounds
    (get_children (split 2 QuadTreeAABB.zero
       (Leaf (mkNode universe universe 0 (repeat QuadTreeObject.empty 2) 0))))) =
  [ (0, 0, 50, 50); (50, 0, 100, 50); (50, 50, 100, 100); (0, 50, 50, 100) ]%Z.
Proof.
  split; [reflexivity|].
  exact (proj1 (split_tiles_parent 2 QuadTreeAABB.zero
           (mkNode universe universe 0 (repeat QuadTreeObject.empty 2) 0)
           eq_refl eq_refl eq_refl)).
Defined.

Lemma insert_exhausted_quadrants_throws_witness :
  insert 1 QuadTreeAABB.zero 1 (QuadTree_new 1 QuadTreeAABB.zero universe) near =
    Ret true full_leaf /\
  insert 1 QuadTreeAABB.zero 2 full_leaf on_centre_line =
    Throw (split 1 QuadTreeAABB.zero full_leaf).
Proof.
  split; [reflexivity|].
  apply (insert_exhausted_quadrants_throws 1 QuadTreeAABB.zero 1 full_leaf on_centre_line).
  - reflexivity.
  - reflexivity.
  - intros c [<- | [<- | [<- | [<- | []]]]]; eexists; reflexivity.
Defined.

Lemma remove_false_unchanged_witness :
  remove (split 1 QuadTreeAABB.zero full_leaf) on_centre_line =
    RRet false (split 1 QuadTreeAABB.zero full_leaf) /\
  split 1 QuadTreeAABB.zero full_leaf = split 1 QuadTreeAABB.zero full_leaf.
Proof.
  split; [reflexivity|].
  apply (remove_false_unchanged (split 1 QuadTreeAABB.zero full_leaf) on_centre_line).
  reflexivity.
Defined.

Lemma capacity_boundary_witness :
  exists t1,
    insert_all 2 QuadTreeAABB.zero 1 (QuadTree_new 2 QuadTreeAABB.zero universe)
               [near; inner] = Some t1 /\
    has_children_ t1 = false /\
    object_count (data t1) = 2 /\
    (forall fuel t2,
       tree_of (insert 2 QuadTreeAABB.zero fuel t1 far) = Some t2 ->
       has_children_ t2 = true) /\
    (0 < 2 ->
     exists t2, tree_of (insert 2 QuadTreeAABB.zero 2 t1 far) = Some t2).
Proof.
  apply (capacity_boundary 2 QuadTreeAABB.zero 0 universe [near; inner] far).
  - reflexivity.
  - repeat constructor.
  - reflexivity.
Defined.

Lemma emptied_tree_pruned_below_match_witness :
  exists t1 t2,
    insert_all 1 QuadTreeAABB.zero 2 (QuadTree_new 1 QuadTreeAABB.zero universe)
               [near; far] = Some t1 /\
    remove_all t1 [far; near] = Some t2 /\
    get_total_objects t2 = 0 /\
    has_children_ t2 = false /\
    subdivided_nodes t2 = 0.
Proof.
  do 2 eexists. split; [reflexivity|]. split; [reflexivity|].
  destruct (emptied_tree_pruned_below_match 1 QuadTreeAABB.zero universe 2
              [near; far] [far; near] _ _ eq_refl eq_refl eq_refl) as [Hz Hp].
  split; [exact Hz|].
  apply (Hp [far] near _ eq_refl eq_refl eq_refl).
Defined.

Lemma insert_query_remove_roundtrip_witness :
  exists t',
    insert 1 QuadTreeAABB.zero 2 full_leaf far = Ret true t' /\
    (In (QuadTreeObject.stored far)
        (query_buffer t' (QuadTreeObject.bounds far) true []) /\
     times_returned 2 (query_buffer t' (QuadTreeObject.bounds far) true []) = 1) /\
    (In (QuadTreeObject.stored far)
        (query_vector t' (QuadTreeObject.bounds far) true []) /\
     times_returned 2 (query_vector t' (QuadTreeObject.bounds far) true []) = 1) /\
    exists t'',
      remove t' far = RRet true t'' /\
      times_returned 2 (query_buffer t'' (QuadTreeObject.bounds far) true []) = 0 /\
      times_returned 2 (query_vector t'' (QuadTreeObject.bounds far) true []) = 0.
Proof.
  eexists. split; [reflexivity|].
  apply (insert_query_remove_roundtrip 1 QuadTreeAABB.zero 2 full_leaf far _
           (QuadTreeObject.bounds far) true).
  - apply (reach_insert 1 QuadTreeAABB.zero 1
             (QuadTree_new 1 QuadTreeAABB.zero universe) near _ _
             (reach_new _ _ _) eq_refl).
    reflexivity.
  - reflexivity.
  - reflexivity.
  - reflexivity.
  - unfold QuadTreeAABB.covers. cbn. lia.
Defined.

(** * Further properties of the code *)

(** ** Boxes *)

(** X1.  [intersects] does not depend on which box is the receiver, and a box
    intersects itself exactly when it is valid. *)
Theorem intersects_symmetric : forall a b,
  QuadTreeAABB.intersects a b = QuadTreeAABB.intersects b a /\
  QuadTreeAABB.intersects a a = QuadTreeAABB.verify a.
Proof.
  intros a b. split.
  - destruct (QuadTreeAABB.intersects b a) eqn:E.
    + apply intersects_spec in E. apply intersects_spec. lia.
    + apply intersects_false in E. apply intersects_false. lia.
  - destruct (QuadTreeAABB.verify a) eqn:E.
    + apply verify_spec in E. apply intersects_spec. lia.
    + apply intersects_false. unfold QuadTreeAABB.verify in E.
      apply andb_false_iff in E. rewrite !Z.ltb_ge in E. lia.
Qed.

Lemma contains_spec : forall a px py,
  QuadTreeAABB.contains a px py = true <->
  (QuadTreeAABB.left a < px < QuadTreeAABB.right a /\
   QuadTreeAABB.top a < py < QuadTreeAABB.bottom a)%Z.
Proof.
  intros a px py. unfold QuadTreeAABB.contains.
  rewrite !andb_true_iff, !Z.gtb_ltb, !Z.ltb_lt. tauto.
Qed.

(** X2.  Two boxes that both contain one point intersect, and a box that
    contains a point is valid. *)
Theorem contains_common_point_intersects : forall a b px py,
  QuadTreeAABB.contains a px py = true ->
  QuadTreeAABB.contains b px py = true ->
  QuadTreeAABB.intersects a b = true /\
  QuadTreeAABB.verify a = true /\ QuadTreeAABB.verify b = true.
Proof.
  intros a b px py Ha Hb. apply contains_spec in Ha, Hb.
  rewrite intersects_spec, !verify_spec. lia.
Qed.


Section More.

Variable Capacity : nat.
Variable uninit : AABB.

(** ** The live objects of a tree *)

Lemma all_live_children : forall t,
  all_live t =
  concat (map all_live (get_children t)) ++ filter live (objects (data t)).
Proof.
  intros [d | d c0 c1 c2 c3]; cbn [all_live get_children map concat data].
  - reflexivity.
  - rewrite app_nil_r, <- !app_assoc. reflexivity.
Qed.

Lemma length_concat_sum : forall (A B : Type) (f : A -> list B) (g : A -> nat) l,
  (forall a, In a l -> length (f a) = g a) ->
  length (concat (map f l)) = list_sum (map g l).
Proof.
  intros A B f g. induction l as [|a l IH]; intros H; simpl; [reflexivity|].
  rewrite length_app, (H a (or_introl eq_refl)), IH; [reflexivity|].
  intros b Hb. apply H. right. exact Hb.
Qed.

Lemma all_live_length : forall t,
  wf Capacity t -> length (all_live t) = get_total_objects t.
Proof.
  induction t as [t IH] using QuadTree_children_ind. intros Hwf.
  rewrite all_live_children, get_total_objects_children, length_app.
  rewrite (length_concat_sum _ _ all_live get_total_objects).
  - destruct (wf_node_ok _ _ Hwf) as [_ Hc]. unfold count_live in Hc. lia.
  - intros c Hc. apply IH; [exact Hc|]. apply (wf_children _ t); assumption.
Qed.

Lemma all_live_resolve : forall t, all_live (resolve_max_bounds t) = all_live t.
Proof.
  intros t. rewrite (all_live_children (resolve_max_bounds t)).
  rewrite objects_resolve, get_children_resolve. symmetry. apply all_live_children.
Qed.

Lemma all_live_split : forall t, all_live (split Capacity uninit t) = all_live t.
Proof.
  intros [d | d c0 c1 c2 c3]; [|reflexivity].
  cbn [split all_live make objects].
  assert (E : filter live (repeat QuadTreeObject.empty Capacity) = []).
  { clear. induction Capacity; simpl; auto. }
  rewrite E. reflexivity.
Qed.

Lemma all_live_In_live : forall t s, In s (all_live t) -> live s = true.
Proof.
  induction t as [t IH] using QuadTree_children_ind. intros s H.
  rewrite all_live_children in H. apply in_app_or in H as [H | H].
  - apply in_concat in H as (l & Hl & Hs).
    apply in_map_iff in Hl as (c & <- & Hc). apply (IH c Hc s Hs).
  - apply filter_In in H. apply H.
Qed.

(** X4.  In a reachable tree every node has [_Capacity] slots, its
    [object_count] is the number of its live slots and never exceeds
    [_Capacity], and [get_total_objects] is the number of live objects of
    the tree. *)
Theorem reachable_counts : forall t,
  reachable Capacity uninit t ->
  wf Capacity t /\
  object_count (data t) <= Capacity /\
  get_total_objects t = length (all_live t).
Proof.
  intros t H. pose proof (reachable_wf _ _ _ H) as Hwf.
  split; [exact Hwf|]. split.
  - destruct (wf_node_ok _ _ Hwf) as [Hl Hc].
    pose proof (count_live_le_length (objects (data t))). lia.
  - symmetry. apply all_live_length, Hwf.
Qed.

(** ** Queries *)

Lemma filter_concat_map : forall (A B : Type) (p : B -> bool) (f : A -> list B) l,
  filter p (concat (map f l)) = concat (map (fun a => filter p (f a)) l).
Proof.
  intros A B p f. induction l as [|a l IH]; simpl; [reflexivity|].
  rewrite filter_app, IH. reflexivity.
Qed.

Lemma concat_map_ext_in : forall (A B : Type) (f g : A -> list B) l,
  (forall a, In a l -> f a = g a) -> concat (map f l) = concat (map g l).
Proof.
  intros A B f g. induction l as [|a l IH]; intros H; simpl; [reflexivity|].
  rewrite (H a (or_introl eq_refl)), IH; [reflexivity|].
  intros b Hb. apply H. right. exact Hb.
Qed.

Lemma filter_hit : forall r objs,
  filter (hit r) objs = filter (overlaps r) (filter live objs).
Proof.
  intros r. induction objs as [|s objs IH]; [reflexivity|].
  cbn [filter]. unfold hit at 1, live at 1.
  destruct (QuadTreeObject.removed s); cbn [negb andb filter]; [exact IH|].
  fold (overlaps r s). destruct (overlaps r s); rewrite IH; reflexivity.
Qed.

Lemma query_slots_wf : forall d r,
  node_ok Capacity d ->
  query_slots d r [] = filter (overlaps r) (filter live (objects d)).
Proof.
  intros d r [_ Hc]. unfold query_slots.
  destruct (object_count d <? 1) eqn:L; cbn [app]; [|apply filter_hit].
  apply Nat.ltb_lt in L. unfold count_live in Hc.
  assert (E : filter live (objects d) = [])
    by (apply length_zero_nil; lia).
  rewrite E. reflexivity.
Qed.

Lemma query_with_unchecked : forall sel r t,
  wf Capacity t ->
  query_with sel t r false [] = filter (overlaps r) (all_live t).
Proof.
  intros sel r. induction t as [t IH] using QuadTree_children_ind. intros Hwf.
  rewrite query_with_children, all_live_children.
  rewrite orb_true_r, filter_app, filter_concat_map.
  rewrite (query_slots_wf _ _ (wf_node_ok _ _ Hwf)).
  f_equal. apply concat_map_ext_in.
  intros c Hc. apply IH; [exact Hc|]. apply (wf_children _ t); assumption.
Qed.

(** X5.  With [_BoundChecks] off, in a reachable tree, the two overloads
    return the same list: the live objects of the tree whose bounds
    intersect the region, children before the node's own slots. *)
Theorem query_unchecked_exact : forall t r,
  reachable Capacity uninit t ->
  query_buffer t r false [] = filter (overlaps r) (all_live t) /\
  query_vector t r false [] = filter (overlaps r) (all_live t).
Proof.
  intros t r H. pose proof (reachable_wf _ _ _ H) as Hwf.
  rewrite query_buffer_shape, query_vector_shape.
  split; apply query_with_unchecked; exact Hwf.
Qed.

Lemma query_slots_sound : forall d r s,
  In s (query_slots d r []) ->
  In s (filter live (objects d)) /\ overlaps r s = true.
Proof.
  intros d r s H. unfold query_slots in H.
  destruct (object_count d <? 1); [contradiction|]. cbn [app] in H.
  rewrite filter_hit in H. apply filter_In in H. exact H.
Qed.

Lemma query_with_sound : forall sel r bc t s,
  In s (query_with sel t r bc []) ->
  In s (all_live t) /\ overlaps r s = true.
Proof.
  intros sel r bc. induction t as [t IH] using QuadTree_children_ind. intros s H.
  rewrite query_with_children in H. rewrite all_live_children.
  destruct (_ || _); [|contradiction].
  apply in_app_or in H as [H | H].
  - apply in_concat in H as (l & Hl & Hs).
    apply in_map_iff in Hl as (c & <- & Hc).
    destruct (IH c Hc s Hs) as [Hin Ho]. split; [|exact Ho].
    apply in_or_app. left. apply in_concat.
    exists (all_live c). split; [apply in_map; exact Hc | exact Hin].
  - apply query_slots_sound in H as [Hin Ho]. split; [|exact Ho].
    apply in_or_app. right. exact Hin.
Qed.

(** X6.  Whatever the tree and the flag, both overloads leave what is already
    in the output in place and append only live objects of the tree whose
    bounds intersect the region. *)
Theorem query_appends_live_hits : forall t r bc out,
  (exists res, query_buffer t r bc out = out ++ res /\
     forall s, In s res ->
       In s (all_live t) /\ QuadTreeObject.removed s = false /\
       QuadTreeAABB.intersects (QuadTreeObject.bounds s) r = true) /\
  (exists res, query_vector t r bc out = out ++ res /\
     forall s, In s res ->
       In s (all_live t) /\ QuadTreeObject.removed s = false /\
       QuadTreeAABB.intersects (QuadTreeObject.bounds s) r = true).
Proof.
  intros t r bc out.
  rewrite query_buffer_shape, query_vector_shape.
  split; eexists; (split; [apply query_with_app|]);
    intros s Hs; apply query_with_sound in Hs as [Hin Ho];
    (split; [exact Hin|]); (split; [|exact Ho]);
    apply all_live_In_live in Hin; unfold live in Hin;
    (destruct (QuadTreeObject.removed s); [discriminate | reflexivity]).
Qed.

(** ** [resolve_max_bounds] at one node *)

Lemma covers_trans : forall a b c,
  QuadTreeAABB.covers a b -> QuadTreeAABB.covers b c -> QuadTreeAABB.covers a c.
Proof. unfold QuadTreeAABB.covers. intros a b c H1 H2. lia. Qed.

Lemma covers_valid : forall a v,
  QuadTreeAABB.covers a v -> QuadTreeAABB.verify v = true ->
  QuadTreeAABB.verify a = true.
Proof.
  intros a v Hc Hv. apply verify_spec in Hv. apply verify_spec.
  unfold QuadTreeAABB.covers in Hc. lia.
Qed.

Lemma last_live_snoc : forall objs s,
  last_live (objs ++ [s]) = if live s then Some s else last_live objs.
Proof.
  intros objs s. unfold last_live. rewrite filter_app. cbn [filter].
  destruct (live s).
  - rewrite rev_app_distr. reflexivity.
  - rewrite app_nil_r. reflexivity.
Qed.

(** The slot loop ends on the box that covers the last live slot,
    provided that box or the node's own is valid. *)
Lemma cover_objects_last : forall b objs m0 s,
  last_live objs = Some s ->
  QuadTreeAABB.verify b = true \/
  QuadTreeAABB.verify (QuadTreeObject.bounds s) = true ->
  QuadTreeAABB.covers (fold_left (cover_object b) objs m0) (QuadTreeObject.bounds s).
Proof.
  intros b objs. induction objs as [|x objs IH] using rev_ind; intros m0 s Hl Hv.
  - discriminate.
  - rewrite last_live_snoc in Hl. rewrite fold_left_app. cbn [fold_left].
    unfold cover_object. unfold live in Hl.
    destruct (QuadTreeObject.removed x); cbn [negb] in Hl.
    + apply IH; assumption.
    + injection Hl as ->.
      match goal with |- context [if ?c then _ else _] => destruct c eqn:V end.
      * unfold QuadTreeAABB.covers. cbn. lia.
      * exfalso. unfold QuadTreeAABB.verify in V. cbn in V.
        apply andb_false_iff in V. rewrite !Z.ltb_ge in V.
        destruct Hv as [Hv | Hv]; apply verify_spec in Hv; lia.
Qed.

(** A round of the child loop that keeps a valid box in sight does not
    fall back to [bounds]: it covers what was covered and the child. *)
Lemma cover_child_no_reset : forall b m c v w,
  QuadTreeAABB.verify v = true ->
  QuadTreeAABB.covers m v \/ QuadTreeAABB.covers c v ->
  QuadTreeAABB.covers m w \/ QuadTreeAABB.covers c w ->
  QuadTreeAABB.covers (cover_child b m c) w.
Proof.
  intros b m c v w Hv Hcv Hcw. unfold cover_child.
  match goal with |- context [if ?c then _ else _] => destruct c eqn:V end.
  - unfold QuadTreeAABB.covers in *. cbn. lia.
  - exfalso. unfold QuadTreeAABB.verify in V. cbn in V.
    apply andb_false_iff in V. rewrite !Z.ltb_ge in V.
    apply verify_spec in Hv. unfold QuadTreeAABB.covers in Hcv. lia.
Qed.

Lemma cover_children_keep : forall b v cs m w,
  QuadTreeAABB.verify v = true ->
  QuadTreeAABB.covers m v ->
  QuadTreeAABB.covers m w \/ (exists c, In c cs /\ QuadTreeAABB.covers c w) ->
  QuadTreeAABB.covers (fold_left (cover_child b) cs m) w.
Proof.
  intros b v cs. induction cs as [|c cs IH]; intros m w Hv Hmv Hw; cbn [fold_left].
  - destruct Hw as [H | (c & [] & _)]. exact H.
  - apply IH; [exact Hv | |].
    + apply (cover_child_no_reset b m c v v Hv); auto.
    + destruct Hw as [H | (c' & [<- | Hin] & H)].
      * left. apply (cover_child_no_reset b m c v w Hv); auto.
      * left. apply (cover_child_no_reset b m c v w Hv); auto.
      * right. eauto.
Qed.

Lemma cover_children_valid : forall b v cs m,
  QuadTreeAABB.verify v = true ->
  QuadTreeAABB.covers m v \/ (exists c, In c cs /\ QuadTreeAABB.covers c v) ->
  QuadTreeAABB.covers (fold_left (cover_child b) cs m) v.
Proof.
  intros b v cs. induction cs as [|c cs IH]; intros m Hv Hw; cbn [fold_left].
  - destruct Hw as [H | (c & [] & _)]. exact H.
  - destruct Hw as [H | (c' & [<- | Hin] & H)].
    + apply (cover_children_keep b v cs _ v Hv); [|left];
        apply (cover_child_no_reset b m c v v Hv); auto.
    + apply (cover_children_keep b v cs _ v Hv); [|left];
        apply (cover_child_no_reset b m c v v Hv); auto.
    + apply IH; [exact Hv|]. right. eauto.
Qed.

Lemma resolve_idempotent : forall t,
  resolve_max_bounds (resolve_max_bounds t) = resolve_max_bounds t.
Proof. intros [d | d c0 c1 c2 c3]; reflexivity. Qed.

(** X7.  [resolve_max_bounds] at a node writes [max_bounds] and nothing else;
    the new [max_bounds] contains [bounds]; doing it twice changes nothing
    more.  When [bounds] is valid, it also contains the bounds of the last
    live slot and the [max_bounds] of every child. *)
Theorem resolve_max_bounds_node : forall t,
  let t' := resolve_max_bounds t in
  let m := max_bounds (data t') in
  data t' = set_max_bounds (data t) m /\
  get_children t' = get_children t /\
  QuadTreeAABB.covers m (bounds (data t)) /\
  resolve_max_bounds t' = t' /\
  (QuadTreeAABB.verify (bounds (data t)) = true ->
   (forall s, last_live (objects (data t)) = Some s ->
      QuadTreeAABB.covers m (QuadTreeObject.bounds s)) /\
   (forall c, In c (get_children t) ->
      QuadTreeAABB.covers m (max_bounds (data c)))).
Proof.
  intros t t' m. subst t' m.
  split; [apply data_resolve|]. split; [apply get_children_resolve|].
  split; [apply resolve_covers_bounds|]. split; [apply resolve_idempotent|].
  intros Hv. unfold resolve_max_bounds. rewrite data_with_data.
  cbn [max_bounds set_max_bounds].
  assert (H1 : QuadTreeAABB.covers
                 (fold_left (cover_object (bounds (data t))) (objects (data t))
                            (bounds (data t))) (bounds (data t))).
  { apply fold_left_covers; [intros; apply cover_object_covers; assumption|].
    apply covers_refl. }
  split.
  - intros s Hs.
    apply (cover_children_keep _ (bounds (data t)) _ _ _ Hv H1). left.
    apply cover_objects_last; auto.
  - intros c Hc.
    apply (cover_children_keep _ (bounds (data t)) _ _ _ Hv H1). right.
    exists (max_bounds (data c)). split; [|apply covers_refl].
    apply (in_map (fun c => max_bounds (data c))). exact Hc.
Qed.

(** ** [remove_empty_nodes] and [merge] *)

Lemma data_remove_empty_nodes : forall t, data (remove_empty_nodes t) = data t.
Proof.
  intros [d | d c0 c1 c2 c3]; cbn [remove_empty_nodes]; [reflexivity|].
  match goal with |- context [if ?b then _ else _] => destruct b end; reflexivity.
Qed.

Lemma pruned_remove_empty_nodes : forall t, pruned (remove_empty_nodes t).
Proof.
  induction t as [d | d c0 IH0 c1 IH1 c2 IH2 c3 IH3]; cbn [remove_empty_nodes];
    [exact I|].
  match goal with |- context [if ?b then _ else _] => destruct b eqn:L end.
  - exact I.
  - apply Nat.ltb_ge in L. cbn [pruned]. auto.
Qed.

Lemma remove_empty_nodes_idempotent : forall t,
  remove_empty_nodes (remove_empty_nodes t) = remove_empty_nodes t.
Proof.
  induction t as [d | d c0 IH0 c1 IH1 c2 IH2 c3 IH3]; cbn [remove_empty_nodes];
    [reflexivity|].
  match goal with |- context [if ?b then _ else _] => destruct b eqn:L end.
  - reflexivity.
  - cbn [remove_empty_nodes]. rewrite IH0, IH1, IH2, IH3, L. reflexivity.
Qed.

Lemma all_live_empty : forall t,
  wf Capacity t -> get_total_objects t = 0 -> all_live t = [].
Proof.
  intros t Hwf Hz. apply length_zero_nil. rewrite all_live_length; assumption.
Qed.

Lemma all_live_remove_empty_nodes : forall t,
  wf Capacity t -> all_live (remove_empty_nodes t) = all_live t.
Proof.
  induction t as [d | d c0 IH0 c1 IH1 c2 IH2 c3 IH3]; intros Hwf;
    cbn [remove_empty_nodes]; [reflexivity|].
  cbn [wf] in Hwf. destruct Hwf as (Hd & H0 & H1 & H2 & H3).
  match goal with |- context [if ?b then _ else _] => destruct b eqn:L end.
  - apply Nat.ltb_lt in L. cbn [merge all_live get_total_objects] in *.
    rewrite !get_total_objects_remove_empty_nodes in L.
    rewrite (all_live_empty c0), (all_live_empty c1),
            (all_live_empty c2), (all_live_empty c3) by (auto; lia).
    reflexivity.
  - cbn [all_live]. rewrite IH0, IH1, IH2, IH3 by assumption. reflexivity.
Qed.

(** X8.  [remove_empty_nodes] loses no live object of a reachable tree and
    leaves the fields of the node alone; afterwards every node that still
    has children holds a live object in its subtree, and a second pass
    changes nothing. *)
Theorem remove_empty_nodes_keeps_objects : forall t,
  reachable Capacity uninit t ->
  all_live (remove_empty_nodes t) = all_live t /\
  get_total_objects (remove_empty_nodes t) = get_total_objects t /\
  data (remove_empty_nodes t) = data t /\
  pruned (remove_empty_nodes t) /\
  remove_empty_nodes (remove_empty_nodes t) = remove_empty_nodes t.
Proof.
  intros t H. pose proof (reachable_wf _ _ _ H) as Hwf.
  split; [apply all_live_remove_empty_nodes, Hwf|].
  split; [apply get_total_objects_remove_empty_nodes|].
  split; [apply data_remove_empty_nodes|].
  split; [apply pruned_remove_empty_nodes | apply remove_empty_nodes_idempotent].
Qed.

(** ** Slots are used before children *)

Lemma insert_own_slot : forall n t o,
  wf Capacity t ->
  object_count (data t) < Capacity ->
  QuadTreeAABB.intersects (bounds (data t)) (QuadTreeObject.bounds o) = true ->
  exists t',
    insert Capacity uninit (S n) t o = Ret true t' /\
    get_children t' = get_children t /\
    insert_slot (objects (data t)) o = Some (objects (data t')) /\
    object_count (data t') = S (object_count (data t)) /\
    bounds (data t') = bounds (data t).
Proof.
  intros n t o Hwf Hc Hi. rewrite insert_unfold, Hi.
  apply Nat.leb_gt in Hc as L. rewrite L.
  destruct (wf_node_ok _ _ Hwf) as [Hl Hcl].
  destruct (insert_slot_room (objects (data t)) o) as [objs E]; [lia|].
  destruct (insert_here_some t o objs E) as (m & -> & _).
  eexists. split; [reflexivity|].
  rewrite data_with_data, get_children_with_data. cbn.
  repeat split; auto. lia.
Qed.

(** ** The ways through [insert] and [remove] *)

Lemma insert_child_throw : forall r ctx next t',
  insert_child r ctx next = Throw t' ->
  (exists c, r = Throw c /\ t' = ctx c) \/
  (exists c, r = Ret false c /\ next c = Throw t').
Proof.
  intros [[|] c | c |] ctx next t' H; simpl in H; try discriminate.
  - right. exists c. split; [reflexivity | assumption].
  - left. exists c. split; congruence.
Qed.

Lemma insert_throw_inv : forall fuel t o t',
  insert Capacity uninit (S fuel) t o = Throw t' ->
  QuadTreeAABB.intersects (bounds (data t)) (QuadTreeObject.bounds o) = true /\
  Capacity <= object_count (data t) /\
  ((t' = split Capacity uninit t /\
    forall c, In c (get_children (split Capacity uninit t)) ->
      insert Capacity uninit fuel c o = Ret false c) \/
   (exists k ck ck',
      nth_error (get_children (split Capacity uninit t)) k = Some ck /\
      insert Capacity uninit fuel ck o = Throw ck' /\
      (forall j cj, j < k ->
         nth_error (get_children (split Capacity uninit t)) j = Some cj ->
         insert Capacity uninit fuel cj o = Ret false cj) /\
      t' = set_child (split Capacity uninit t) k ck')).
Proof.
  intros fuel t o t' H. rewrite insert_unfold in H.
  destruct (QuadTreeAABB.intersects _ _); [|discriminate].
  split; [reflexivity|].
  destruct (Capacity <=? object_count (data t)) eqn:L.
  2:{ unfold insert_here in H. destruct (insert_slot _ _); discriminate. }
  apply Nat.leb_le in L. split; [exact L|].
  destruct (split_quad Capacity uninit t) as (c0 & c1 & c2 & c3 & E). rewrite E in *.
  cbn [get_children].
  apply insert_child_throw in H as [(a & Ea & ->) | (a & Ea & H)].
  { right. exists 0, c0, a. repeat split; auto. intros j cj Hj; lia. }
  pose proof (insert_false_unchanged _ _ _ _ _ _ Ea); subst a.
  apply insert_child_throw in H as [(b & Eb & ->) | (b & Eb & H)].
  { right. exists 1, c1, b. repeat split; auto.
    intros [|j] cj Hj Hn; [|lia]. cbn in Hn. congruence. }
  pose proof (insert_false_unchanged _ _ _ _ _ _ Eb); subst b.
  apply insert_child_throw in H as [(c & Ec & ->) | (c & Ec & H)].
  { right. exists 2, c2, c. repeat split; auto.
    intros [|[|j]] cj Hj Hn; [| |lia]; cbn in Hn; congruence. }
  pose proof (insert_false_unchanged _ _ _ _ _ _ Ec); subst c.
  apply insert_child_throw in H as [(e & Ee & ->) | (e & Ee & H)].
  { right. exists 3, c3, e. repeat split; auto.
    intros [|[|[|j]]] cj Hj Hn; [| | |lia]; cbn in Hn; congruence. }
  pose proof (insert_false_unchanged _ _ _ _ _ _ Ee); subst e.
  left. injection H as <-. split; [reflexivity|].
  intros c' [<- | [<- | [<- | [<- | []]]]]; assumption.
Qed.

Lemma insert_true_inserted : forall fuel t o t',
  wf Capacity t ->
  insert Capacity uninit fuel t o = Ret true t' ->
  inserted Capacity uninit o t t'.
Proof.
  induction fuel as [|fuel IH]; intros t o t' Hwf H; [discriminate|].
  apply insert_true_inv in H
    as [Hi [[Hc H] | [Hc (k & ck & ck' & Hk & Hins & Hbefore & ->)]]].
  - destruct (insert_slot (objects (data t)) o) as [objs|] eqn:E.
    + destruct (insert_here_some t o objs E) as (m & E' & ->).
      rewrite E' in H. injection H as <-.
      apply inserted_here; assumption.
    + unfold insert_here in H. rewrite E in H. discriminate.
  - pose proof (wf_split _ uninit _ Hwf) as Hs.
    apply inserted_child with (ck := ck); auto.
    + intros j cj Hj Hcj.
      apply (insert_false_misses Capacity uninit fuel cj o cj).
      * apply (wf_children _ _ cj Hs), (nth_error_In _ _ Hcj).
      * apply (Hbefore j cj Hj Hcj).
    + apply IH; [|exact Hins].
      apply (wf_children _ _ ck Hs), (nth_error_In _ _ Hk).
Qed.

Lemma insert_throw_thrown : forall fuel t o t',
  wf Capacity t ->
  insert Capacity uninit fuel t o = Throw t' ->
  thrown Capacity uninit o t t'.
Proof.
  induction fuel as [|fuel IH]; intros t o t' Hwf H; [discriminate|].
  pose proof (wf_split _ uninit _ Hwf) as Hs.
  apply insert_throw_inv in H
    as (Hi & Hc & [[-> Hall] | (k & ck & ck' & Hk & Hins & Hbefore & ->)]).
  - apply thrown_here; auto.
    intros c Hin. apply (insert_false_misses Capacity uninit fuel c o c).
    + apply (wf_children _ _ c Hs Hin).
    + apply (Hall c Hin).
  - apply thrown_child with (ck := ck); auto.
    + intros j cj Hj Hcj.
      apply (insert_false_misses Capacity uninit fuel cj o cj).
      * apply (wf_children _ _ cj Hs), (nth_error_In _ _ Hcj).
      * apply (Hbefore j cj Hj Hcj).
    + apply IH; [|exact Hins].
      apply (wf_children _ _ ck Hs), (nth_error_In _ _ Hk).
Qed.

Lemma remove_true_removed : forall t o t',
  remove t o = RRet true t' -> removed o t t'.
Proof.
  induction t as [t IH] using QuadTree_children_ind. intros o t' H.
  apply remove_true_inv in H
    as [Hi [(d' & Hh & ->) | [Hn (k & ck & ck' & Hk & Hr & ->)]]].
  - apply removed_here; assumption.
  - apply removed_child with (ck := ck); auto.
    apply (IH ck (nth_error_In _ _ Hk)). exact Hr.
Qed.

(** ** What the three ways keep and change *)

Lemma all_live_set_child : forall t k ck,
  nth_error (get_children t) k = Some ck ->
  exists pre post,
    all_live t = pre ++ all_live ck ++ post /\
    forall c, all_live (set_child t k c) = pre ++ all_live c ++ post.
Proof.
  intros [d | d c0 c1 c2 c3] k ck H; [destruct k; discriminate|].
  destruct k as [|[|[|[|k]]]]; cbn in H; try (destruct k; discriminate);
    injection H as <-; cbn [all_live set_child].
  - exists [], (all_live c1 ++ all_live c2 ++ all_live c3 ++ filter live (objects d)).
    split; reflexivity.
  - exists (all_live c0), (all_live c2 ++ all_live c3 ++ filter live (objects d)).
    split; reflexivity.
  - exists (all_live c0 ++ all_live c1), (all_live c3 ++ filter live (objects d)).
    split; [|intros c]; rewrite <- !app_assoc; reflexivity.
  - exists (all_live c0 ++ all_live c1 ++ all_live c2), (filter live (objects d)).
    split; [|intros c]; rewrite <- !app_assoc; reflexivity.
Qed.

Lemma all_live_with_data : forall d t,
  all_live (with_data d t) =
  concat (map all_live (get_children t)) ++ filter live (objects d).
Proof.
  intros d t. rewrite all_live_children, get_children_with_data, data_with_data.
  reflexivity.
Qed.

Lemma live_stored : forall o, live (QuadTreeObject.stored o) = true.
Proof. reflexivity. Qed.

Lemma live_of_removed : forall s, live s = negb (QuadTreeObject.removed s).
Proof. reflexivity. Qed.

Lemma insert_slot_live : forall objs o objs',
  insert_slot objs o = Some objs' ->
  Permutation (filter live objs') (QuadTreeObject.stored o :: filter live objs).
Proof.
  induction objs as [|s rest IH]; intros o objs' H; simpl in H; [discriminate|].
  destruct (QuadTreeObject.removed s) eqn:R.
  - injection H as <-. cbn [filter].
    rewrite live_stored, (live_of_removed s), R. apply Permutation_refl.
  - destruct (insert_slot rest o) as [r|] eqn:E; [|discriminate].
    injection H as <-. cbn [filter]. rewrite (live_of_removed s), R. cbn [negb].
    rewrite (IH _ _ E). apply perm_swap.
Qed.

Lemma remove_slot_live : forall objs i objs',
  remove_slot objs i = Some objs' ->
  exists s, QuadTreeObject.id s = i /\ In s (filter live objs) /\
            Permutation (s :: filter live objs') (filter live objs).
Proof.
  induction objs as [|s rest IH]; intros i objs' H; simpl in H; [discriminate|].
  destruct (negb (QuadTreeObject.removed s) && (QuadTreeObject.id s =? i)%N) eqn:M.
  - injection H as <-. apply andb_true_iff in M as [M1 M2].
    apply N.eqb_eq in M2. exists s. cbn [filter].
    rewrite live_tombstone, (live_of_removed s), M1.
    split; [exact M2|]. split; [left; reflexivity | apply Permutation_refl].
  - destruct (remove_slot rest i) as [r|] eqn:E; [|discriminate].
    injection H as <-. destruct (IH _ _ E) as (x & Hx & Hin & Hp).
    exists x. split; [exact Hx|]. cbn [filter]. destruct (live s).
    + split; [right; exact Hin|].
      rewrite perm_swap. apply perm_skip. exact Hp.
    + split; assumption.
Qed.

Lemma inserted_wf : forall o t t',
  inserted Capacity uninit o t t' -> wf Capacity t -> wf Capacity t'.
Proof.
  induction 1 as [t objs Hi Hc E | t k ck ck' Hi Hc Hk Hbefore Hins IH]; intros Hwf.
  - destruct (wf_node_ok _ _ Hwf) as [Hl Hcl].
    apply wf_with_data; [|exact Hwf]. split; cbn [objects object_count].
    + rewrite (insert_slot_length _ _ _ E). exact Hl.
    + rewrite (insert_slot_count_live _ _ _ E). lia.
  - pose proof (wf_split _ uninit _ Hwf) as Hs.
    apply wf_resolve, wf_set_child; [exact Hs|].
    apply IH, (wf_children _ _ ck Hs), (nth_error_In _ _ Hk).
Qed.

Lemma thrown_wf : forall o t t',
  thrown Capacity uninit o t t' -> wf Capacity t -> wf Capacity t'.
Proof.
  induction 1 as [t Hi Hc Hall | t k ck ck' Hi Hc Hk Hbefore Hthr IH]; intros Hwf;
    pose proof (wf_split _ uninit _ Hwf) as Hs; [exact Hs|].
  apply wf_set_child; [exact Hs|].
  apply IH, (wf_children _ _ ck Hs), (nth_error_In _ _ Hk).
Qed.

Lemma removed_wf : forall o t t',
  removed o t t' -> wf Capacity t -> wf Capacity t'.
Proof.
  induction 1 as [t d' Hi Hh | t k ck ck' Hi Hn Hk Hrem IH]; intros Hwf.
  - apply wf_resolve, wf_remove_empty_nodes, wf_with_data; [|exact Hwf].
    apply (remove_here_node_ok _ _ _ _ (wf_node_ok _ _ Hwf) Hh).
  - apply wf_resolve, wf_set_child; [exact Hwf|].
    apply IH, (wf_children _ _ ck Hwf), (nth_error_In _ _ Hk).
Qed.

Lemma bounds_set_child : forall t k c,
  bounds (data (set_child t k c)) = bounds (data t).
Proof. intros. rewrite data_set_child. reflexivity. Qed.

Lemma inserted_bounds : forall o t t',
  inserted Capacity uninit o t t' -> bounds (data t') = bounds (data t).
Proof.
  destruct 1.
  - rewrite data_with_data. reflexivity.
  - rewrite bounds_resolve, bounds_set_child, data_split. reflexivity.
Qed.

Lemma thrown_data : forall o t t',
  thrown Capacity uninit o t t' -> data t' = data t.
Proof.
  destruct 1.
  - apply data_split.
  - rewrite data_set_child. apply data_split.
Qed.

Lemma removed_bounds : forall o t t',
  removed o t t' -> bounds (data t') = bounds (data t).
Proof.
  destruct 1 as [t d' Hi Hh | t k ck ck' Hi Hn Hk Hrem].
  - rewrite bounds_resolve, data_remove_empty_nodes, data_with_data.
    unfold remove_here in Hh. destruct (0 <? _); [|discriminate].
    destruct (remove_slot _ _); [|discriminate]. injection Hh as <-. reflexivity.
  - rewrite bounds_resolve, bounds_set_child. reflexivity.
Qed.

Lemma inserted_all_live : forall o t t',
  inserted Capacity uninit o t t' ->
  Permutation (all_live t') (QuadTreeObject.stored o :: all_live t).
Proof.
  induction 1 as [t objs Hi Hc E | t k ck ck' Hi Hc Hk Hbefore Hins IH].
  - rewrite all_live_with_data, (all_live_children t). cbn [objects].
    rewrite (insert_slot_live _ _ _ E).
    symmetry. apply Permutation_middle.
  - rewrite all_live_resolve.
    destruct (all_live_set_child _ _ _ Hk) as (pre & post & E1 & E2).
    rewrite E2, <- (all_live_split t), E1, IH.
    symmetry. apply Permutation_middle.
Qed.

Lemma thrown_all_live : forall o t t',
  thrown Capacity uninit o t t' -> all_live t' = all_live t.
Proof.
  induction 1 as [t Hi Hc Hall | t k ck ck' Hi Hc Hk Hbefore Hthr IH].
  - apply all_live_split.
  - destruct (all_live_set_child _ _ _ Hk) as (pre & post & E1 & E2).
    rewrite E2, IH, <- E1. apply all_live_split.
Qed.

Lemma remove_here_live : forall d i d',
  remove_here d i = Some d' ->
  exists s, QuadTreeObject.id s = i /\ In s (filter live (objects d)) /\
            Permutation (s :: filter live (objects d')) (filter live (objects d)).
Proof.
  intros d i d' H. unfold remove_here in H.
  destruct (0 <? _); [|discriminate].
  destruct (remove_slot (objects d) i) as [objs|] eqn:E; [|discriminate].
  injection H as <-. apply (remove_slot_live _ _ _ E).
Qed.

Lemma removed_all_live : forall o t t',
  removed o t t' -> wf Capacity t ->
  exists s, QuadTreeObject.id s = QuadTreeObject.id o /\ In s (all_live t) /\
            Permutation (s :: all_live t') (all_live t).
Proof.
  induction 1 as [t d' Hi Hh | t k ck ck' Hi Hn Hk Hrem IH]; intros Hwf.
  - destruct (remove_here_live _ _ _ Hh) as (s & Hid & Hin & Hp).
    exists s. split; [exact Hid|].
    rewrite all_live_resolve, all_live_remove_empty_nodes.
    2:{ apply wf_with_data; [|exact Hwf].
        apply (remove_here_node_ok _ _ _ _ (wf_node_ok _ _ Hwf) Hh). }
    rewrite all_live_with_data, (all_live_children t). split.
    + apply in_or_app. right. exact Hin.
    + rewrite <- Hp. apply Permutation_middle.
  - destruct (IH (wf_children _ _ ck Hwf (nth_error_In _ _ Hk))) as (s & Hid & Hin & Hp).
    exists s. split; [exact Hid|].
    rewrite all_live_resolve.
    destruct (all_live_set_child _ _ _ Hk) as (pre & post & E1 & E2).
    rewrite E2, E1. split.
    + apply in_or_app. right. apply in_or_app. left. exact Hin.
    + rewrite <- Hp. apply Permutation_middle.
Qed.

(** X10.  A call of [insert] that returns [true] on a reachable tree adds the
    stored copy of the object to the live objects of the tree and nothing
    else; [get_total_objects] grows by one and the root keeps its
    [bounds]. *)
Theorem insert_adds_one_object : forall fuel t o t',
  reachable Capacity uninit t ->
  insert Capacity uninit fuel t o = Ret true t' ->
  Permutation (all_live t') (QuadTreeObject.stored o :: all_live t) /\
  get_total_objects t' = S (get_total_objects t) /\
  bounds (data t') = bounds (data t) /\
  QuadTreeAABB.intersects (bounds (data t)) (QuadTreeObject.bounds o) = true.
Proof.
  intros fuel t o t' Hreach H.
  pose proof (reachable_wf _ _ _ Hreach) as Hwf.
  pose proof (insert_true_inserted _ _ _ _ Hwf H) as Hins.
  split; [apply (inserted_all_live _ _ _ Hins)|].
  split; [apply (insert_total _ _ _ _ _ _ H)|].
  split; [apply (inserted_bounds _ _ _ Hins)|].
  destruct fuel; [discriminate|]. apply insert_true_inv in H. apply H.
Qed.

(** X11.  A call of [insert] on a reachable tree that does not return [true]
    stores nothing.  When it returns [false] the tree is as it was and the
    root's [bounds] miss the object's.  When it throws, the live objects
    and the fields of the root are as they were, the root is full, and it
    is left with children. *)
Theorem insert_failure_stores_nothing : forall fuel t o,
  reachable Capacity uninit t ->
  (forall t', insert Capacity uninit fuel t o = Ret false t' ->
     t' = t /\
     QuadTreeAABB.intersects (bounds (data t)) (QuadTreeObject.bounds o) = false) /\
  (forall t', insert Capacity uninit fuel t o = Throw t' ->
     all_live t' = all_live t /\
     data t' = data t /\
     has_children_ t' = true /\
     object_count (data t) = Capacity /\
     QuadTreeAABB.intersects (bounds (data t)) (QuadTreeObject.bounds o) = true).
Proof.
  intros fuel t o Hreach.
  pose proof (reachable_wf _ _ _ Hreach) as Hwf. split; intros t' H.
  - split; [apply (insert_false_unchanged _ _ _ _ _ _ H)|].
    apply (insert_false_misses _ _ _ _ _ _ Hwf H).
  - pose proof (insert_throw_thrown _ _ _ _ Hwf H) as Hthr.
    split; [apply (thrown_all_live _ _ _ Hthr)|].
    split; [apply (thrown_data _ _ _ Hthr)|].
    destruct fuel; [discriminate|].
    apply insert_throw_inv in H as (Hi & Hc & Hcases).
    split; [|split; [|exact Hi]].
    + destruct (split_quad Capacity uninit t) as (c0 & c1 & c2 & c3 & E).
      destruct Hcases as [[-> _] | (k & ck & ck' & _ & _ & _ & ->)]; rewrite E.
      * reflexivity.
      * destruct k as [|[|[|[|k]]]]; reflexivity.
    + destruct (wf_node_ok _ _ Hwf) as [Hl Hcl].
      pose proof (count_live_le_length (objects (data t))). lia.
Qed.

(** X12.  A call of [remove] that returns [true] on a reachable tree takes
    exactly one live object out of the tree, one that carries the id asked
    for; every other live object stays. *)
Theorem remove_takes_one_object : forall t o t',
  reachable Capacity uninit t ->
  remove t o = RRet true t' ->
  (exists s,
     QuadTreeObject.id s = QuadTreeObject.id o /\
     In s (all_live t) /\
     Permutation (s :: all_live t') (all_live t)) /\
  get_total_objects t = S (get_total_objects t') /\
  bounds (data t') = bounds (data t).
Proof.
  intros t o t' Hreach H.
  pose proof (reachable_wf _ _ _ Hreach) as Hwf.
  pose proof (remove_true_removed _ _ _ H) as Hrem.
  split; [apply (removed_all_live _ _ _ Hrem Hwf)|].
  split; [apply (remove_total _ _ _ H) | apply (removed_bounds _ _ _ Hrem)].
Qed.

(** ** Properties that hold at every node *)

Lemma every_node_children : forall P t,
  every_node P t <-> P t /\ forall c, In c (get_children t) -> every_node P c.
Proof.
  intros P [d | d c0 c1 c2 c3]; cbn [every_node get_children]; split.
  - intros [H _]. split; [exact H | intros c []].
  - intros [H _]. auto.
  - intros (H & H0 & H1 & H2 & H3). split; [exact H|].
    intros c [<- | [<- | [<- | [<- | []]]]]; assumption.
  - intros [H Hc]. split; [exact H|].
    repeat split; apply Hc; cbn; auto.
Qed.

Lemma every_node_top : forall P t, every_node P t -> P t.
Proof. intros P t H. apply every_node_children in H. apply H. Qed.

Lemma In_get_children_set_child : forall t k c c',
  In c (get_children (set_child t k c')) -> c = c' \/ In c (get_children t).
Proof.
  intros [d | d c0 c1 c2 c3] k c c' H; [destruct k; contradiction|].
  destruct k as [|[|[|[|k]]]]; cbn in H |- *; intuition auto.
Qed.

Lemma In_get_children_remove_empty_nodes : forall t c',
  In c' (get_children (remove_empty_nodes t)) ->
  exists c, In c (get_children t) /\ c' = remove_empty_nodes c.
Proof.
  intros [d | d c0 c1 c2 c3] c'; cbn [remove_empty_nodes]; [contradiction|].
  match goal with |- context [if ?b then _ else _] => destruct b end;
    cbn [merge get_children]; [contradiction|].
  intros [<- | [<- | [<- | [<- | []]]]]; eexists; (split; [|reflexivity]); cbn; auto.
Qed.

Lemma every_node_split : forall P t,
  (forall b lvl, P (make Capacity uninit b lvl)) ->
  P (split Capacity uninit t) ->
  every_node P t -> every_node P (split Capacity uninit t).
Proof.
  intros P [d | d c0 c1 c2 c3] Hfresh Htop H; [|exact H].
  cbn [split] in *. cbn [every_node]. split; [exact Htop|].
  repeat split; apply Hfresh.
Qed.

(** One proof scheme for all such properties: they hold throughout every
    reachable tree as soon as they hold on new leaves, survive
    [remove_empty_nodes], and hold at a node that [insert] or [remove]
    went through once they hold below it. *)
Lemma reachable_every_node : forall P : QuadTree -> Prop,
  (forall b lvl, P (make Capacity uninit b lvl)) ->
  (forall t, wf Capacity t -> every_node P t -> P (split Capacity uninit t)) ->
  (forall t, wf Capacity t -> every_node P t -> every_node P (remove_empty_nodes t)) ->
  (forall o t t', inserted Capacity uninit o t t' -> wf Capacity t ->
     every_node P t -> every_node P (split Capacity uninit t) ->
     (forall c, In c (get_children t') -> every_node P c) -> P t') ->
  (forall o t t', thrown Capacity uninit o t t' -> wf Capacity t ->
     every_node P t -> every_node P (split Capacity uninit t) ->
     (forall c, In c (get_children t') -> every_node P c) -> P t') ->
  (forall o t t', removed o t t' -> wf Capacity t -> every_node P t ->
     (forall c, In c (get_children t') -> every_node P c) -> P t') ->
  forall t, reachable Capacity uninit t -> every_node P t.
Proof.
  intros P Hfresh Hsplit Hprune Hins Hthr Hrem.
  assert (Split : forall t, wf Capacity t -> every_node P t ->
                    every_node P (split Capacity uninit t)).
  { intros t Hwf H. apply every_node_split; auto. }
  assert (Ins : forall o t t', inserted Capacity uninit o t t' ->
                  wf Capacity t -> every_node P t -> every_node P t').
  { intros o t t' H.
    induction H as [t objs Hi Hc E | t k ck ck' Hi Hc Hk Hbefore Hins' IH];
      intros Hwf HP.
    - assert (Hch : forall c,
                In c (get_children (with_data
                  (mkNode (bounds (data t))
                     (max_bounds (data (resolve_max_bounds
                        (with_data (set_slots (data t) objs (object_count (data t))) t))))
                     (object_count (data t) + 1) objs (level (data t))) t)) ->
                every_node P c).
      { intros c Hin. rewrite get_children_with_data in Hin.
        apply every_node_children in HP. apply HP, Hin. }
      apply every_node_children. split; [|exact Hch].
      apply (Hins o t); auto. apply inserted_here; assumption.
    - pose proof (Split t Hwf HP) as HS.
      pose proof (wf_split _ uninit _ Hwf) as Hs.
      assert (Hch : forall c,
                In c (get_children (resolve_max_bounds
                        (set_child (split Capacity uninit t) k ck'))) ->
                every_node P c).
      { intros c Hin. rewrite get_children_resolve in Hin.
        apply In_get_children_set_child in Hin as [-> | Hin].
        - apply IH.
          + apply (wf_children _ _ ck Hs), (nth_error_In _ _ Hk).
          + apply every_node_children in HS. apply HS, (nth_error_In _ _ Hk).
        - apply every_node_children in HS. apply HS, Hin. }
      apply every_node_children. split; [|exact Hch].
      apply (Hins o t); auto. apply inserted_child with (ck := ck); assumption. }
  assert (Thr : forall o t t', thrown Capacity uninit o t t' ->
                  wf Capacity t -> every_node P t -> every_node P t').
  { intros o t t' H.
    induction H as [t Hi Hc Hall | t k ck ck' Hi Hc Hk Hbefore Hthr' IH];
      intros Hwf HP.
    - apply Split; assumption.
    - pose proof (Split t Hwf HP) as HS.
      pose proof (wf_split _ uninit _ Hwf) as Hs.
      assert (Hch : forall c,
                In c (get_children (set_child (split Capacity uninit t) k ck')) ->
                every_node P c).
      { intros c Hin.
        apply In_get_children_set_child in Hin as [-> | Hin].
        - apply IH.
          + apply (wf_children _ _ ck Hs), (nth_error_In _ _ Hk).
          + apply every_node_children in HS. apply HS, (nth_error_In _ _ Hk).
        - apply every_node_children in HS. apply HS, Hin. }
      apply every_node_children. split; [|exact Hch].
      apply (Hthr o t); auto. apply thrown_child with (ck := ck); assumption. }
  assert (Rem : forall o t t', removed o t t' ->
                  wf Capacity t -> every_node P t -> every_node P t').
  { intros o t t' H.
    induction H as [t d' Hi Hh | t k ck ck' Hi Hn Hk Hrem' IH]; intros Hwf HP.
    - assert (Hch : forall c,
                In c (get_children (resolve_max_bounds
                        (remove_empty_nodes (with_data d' t)))) ->
                every_node P c).
      { intros c Hin. rewrite get_children_resolve in Hin.
        apply In_get_children_remove_empty_nodes in Hin as (c0 & Hin & ->).
        rewrite get_children_with_data in Hin.
        apply Hprune.
        - apply (wf_children _ _ c0 Hwf Hin).
        - apply every_node_children in HP. apply HP, Hin. }
      apply every_node_children. split; [|exact Hch].
      apply (Hrem o t); auto. apply removed_here; assumption.
    - assert (Hch : forall c,
                In c (get_children (resolve_max_bounds (set_child t k ck'))) ->
                every_node P c).
      { intros c Hin. rewrite get_children_resolve in Hin.
        apply In_get_children_set_child in Hin as [-> | Hin].
        - apply IH.
          + apply (wf_children _ _ ck Hwf), (nth_error_In _ _ Hk).
          + apply every_node_children in HP. apply HP, (nth_error_In _ _ Hk).
        - apply every_node_children in HP. apply HP, Hin. }
      apply every_node_children. split; [|exact Hch].
      apply (Hrem o t); auto. apply removed_child with (ck := ck); assumption. }
  induction 1 as [b | fuel t o r t' Hreach IH Hr Ht | t o b t' Hreach IH Hr].
  - cbn. split; [apply Hfresh | exact I].
  - pose proof (reachable_wf _ _ _ Hreach) as Hwf.
    subst r. destruct (insert Capacity uninit fuel t o) as [[|] t1 | t1 |] eqn:E;
      cbn in Ht; try discriminate; injection Ht as ->.
    + apply (Ins o t); auto. apply (insert_true_inserted _ _ _ _ Hwf E).
    + rewrite (insert_false_unchanged _ _ _ _ _ _ E). exact IH.
    + apply (Thr o t); auto. apply (insert_throw_thrown _ _ _ _ Hwf E).
  - pose proof (reachable_wf _ _ _ Hreach) as Hwf. destruct b.
    + apply (Rem o t); auto. apply (remove_true_removed _ _ _ Hr).
    + rewrite (remove_false_same _ _ _ Hr). exact IH.
Qed.

(** ** Children sit on the quadrants *)

Lemma map_get_children_set_child : forall (A : Type) (f : QuadTree -> A) t k ck c,
  nth_error (get_children t) k = Some ck ->
  f c = f ck ->
  map f (get_children (set_child t k c)) = map f (get_children t).
Proof.
  intros A f [d | d c0 c1 c2 c3] k ck c H E; [destruct k; discriminate|].
  destruct k as [|[|[|[|k]]]]; cbn in H; try (destruct k; discriminate);
    injection H as <-; cbn; rewrite E; reflexivity.
Qed.

Lemma has_children_set_child : forall t k c,
  has_children_ (set_child t k c) = has_children_ t.
Proof.
  intros [d | d c0 c1 c2 c3] k c; [destruct k; reflexivity|].
  destruct k as [|[|[|[|k]]]]; reflexivity.
Qed.

Lemma quartered_remove_empty_nodes : forall t,
  quartered t -> quartered (remove_empty_nodes t).
Proof.
  intros [d | d c0 c1 c2 c3] H; cbn [remove_empty_nodes]; [exact H|].
  match goal with |- context [if ?b then _ else _] => destruct b end.
  - intros Hc. discriminate.
  - intros _. specialize (H eq_refl). cbn in H |- *.
    rewrite !data_remove_empty_nodes. exact H.
Qed.

Lemma every_quartered_remove_empty_nodes : forall t,
  every_node quartered t -> every_node quartered (remove_empty_nodes t).
Proof.
  induction t as [t IH] using QuadTree_children_ind. intros H.
  apply every_node_children in H as [Htop Hch].
  apply every_node_children. split.
  - apply quartered_remove_empty_nodes, Htop.
  - intros c' Hin. apply In_get_children_remove_empty_nodes in Hin as (c & Hin & ->).
    apply IH; auto.
Qed.

Lemma quartered_same : forall t t',
  quartered t ->
  bounds (data t') = bounds (data t) ->
  map (fun c => edges (bounds (data c))) (get_children t') =
  map (fun c => edges (bounds (data c))) (get_children t) ->
  has_children_ t' = has_children_ t ->
  quartered t'.
Proof.
  intros t t' H Hb Hm Hc. unfold quartered. rewrite Hb, Hm, Hc. exact H.
Qed.

Lemma reachable_every_quartered : forall t,
  reachable Capacity uninit t -> every_node quartered t.
Proof.
  apply reachable_every_node.
  - intros b lvl Hc. discriminate.
  - intros [d | d c0 c1 c2 c3] _ H; [intros _; reflexivity|].
    apply (every_node_top _ _ H).
  - intros t _ H. apply every_quartered_remove_empty_nodes, H.
  - intros o t t' Hins Hwf HP HS _.
    inversion Hins as [t0 objs Hi Hc E | t0 k ck ck' Hi Hc Hk Hbefore Hins']; subst.
    + apply (quartered_same t _ (every_node_top _ _ HP)).
      * rewrite data_with_data. reflexivity.
      * rewrite get_children_with_data. reflexivity.
      * apply has_children_with_data.
    + apply (quartered_same _ _ (every_node_top _ _ HS)).
      * rewrite bounds_resolve. apply bounds_set_child.
      * rewrite get_children_resolve.
        apply (map_get_children_set_child _ _ _ _ ck); [exact Hk|].
        rewrite (inserted_bounds _ _ _ Hins'). reflexivity.
      * rewrite has_children_resolve. apply has_children_set_child.
  - intros o t t' Hthr Hwf HP HS _.
    inversion Hthr as [t0 Hi Hc Hall | t0 k ck ck' Hi Hc Hk Hbefore Hthr']; subst.
    + apply (every_node_top _ _ HS).
    + apply (quartered_same _ _ (every_node_top _ _ HS)).
      * apply bounds_set_child.
      * apply (map_get_children_set_child _ _ _ _ ck); [exact Hk|].
        rewrite (thrown_data _ _ _ Hthr'). reflexivity.
      * apply has_children_set_child.
  - intros o t t' Hrem Hwf HP _.
    inversion Hrem as [t0 d' Hi Hh | t0 k ck ck' Hi Hn Hk Hrem']; subst.
    + pose proof (removed_bounds _ _ _ Hrem) as Hb.
      assert (Q : quartered (remove_empty_nodes (with_data d' t))).
      { apply quartered_remove_empty_nodes.
        apply (quartered_same t _ (every_node_top _ _ HP)).
        - rewrite bounds_resolve, data_remove_empty_nodes in Hb. exact Hb.
        - rewrite get_children_with_data. reflexivity.
        - apply has_children_with_data. }
      apply (quartered_same _ _ Q).
      * apply bounds_resolve.
      * rewrite get_children_resolve. reflexivity.
      * apply has_children_resolve.
    + apply (quartered_same t _ (every_node_top _ _ HP)).
      * rewrite bounds_resolve. apply bounds_set_child.
      * rewrite get_children_resolve.
        apply (map_get_children_set_child _ _ _ _ ck); [exact Hk|].
        rewrite (removed_bounds _ _ _ Hrem'). reflexivity.
      * rewrite has_children_resolve. apply has_children_set_child.
Qed.

(** ** Objects with valid bounds are never thrown out *)

Lemma intersects_edges : forall a a' o,
  edges a = edges a' -> QuadTreeAABB.intersects a o = QuadTreeAABB.intersects a' o.
Proof.
  intros a a' o E. unfold edges in E. injection E as E1 E2 E3 E4.
  unfold QuadTreeAABB.intersects. rewrite E1, E2, E3, E4. reflexivity.
Qed.

(** A valid box that intersects a box intersects one of its quadrants,
    wherever the centre is. *)
Lemma valid_object_quadrant : forall p o,
  QuadTreeAABB.verify o = true ->
  QuadTreeAABB.intersects p o = true ->
  exists q, In q (quadrants p) /\ QuadTreeAABB.intersects q o = true.
Proof.
  intros p o Hv Hi. apply verify_spec in Hv. apply intersects_spec in Hi.
  destruct (Z_lt_ge_dec (QuadTreeAABB.left o) (QuadTreeAABB.x p)) as [Hx | Hx];
  destruct (Z_lt_ge_dec (QuadTreeAABB.top o) (QuadTreeAABB.y p)) as [Hy | Hy].
  - exists (top_left p). split; [cbn; auto|]. apply intersects_spec. cbn. lia.
  - exists (bottom_left p). split; [cbn; auto|]. apply intersects_spec. cbn. lia.
  - exists (top_right p). split; [cbn; auto|]. apply intersects_spec. cbn. lia.
  - exists (bottom_right p). split; [cbn; auto|]. apply intersects_spec. cbn. lia.
Qed.

Lemma first_intersecting : forall (o : AABB) (cs : list QuadTree),
  (exists c, In c cs /\ QuadTreeAABB.intersects (bounds (data c)) o = true) ->
  exists k ck,
    nth_error cs k = Some ck /\
    QuadTreeAABB.intersects (bounds (data ck)) o = true /\
    forall j cj, j < k -> nth_error cs j = Some cj ->
      QuadTreeAABB.intersects (bounds (data cj)) o = false.
Proof.
  intros o. induction cs as [|c cs IH]; intros (c' & Hin & Hc'); [contradiction|].
  destruct (QuadTreeAABB.intersects (bounds (data c)) o) eqn:E.
  - exists 0, c. repeat split; auto. intros j cj Hj. lia.
  - destruct IH as (k & ck & Hk & Hck & Hbefore).
    { destruct Hin as [<- | Hin]; [congruence | eauto]. }
    exists (S k), ck. repeat split; auto.
    intros [|j] cj Hj Hcj; cbn in Hcj; [congruence|].
    apply (Hbefore j cj); [lia | exact Hcj].
Qed.

Lemma insert_misses : forall n t o,
  QuadTreeAABB.intersects (bounds (data t)) (QuadTreeObject.bounds o) = false ->
  insert Capacity uninit (S n) t o = Ret false t.
Proof. intros n t o H. rewrite insert_unfold, H. reflexivity. Qed.

Lemma insert_through_child : forall fuel t o k ck ck',
  QuadTreeAABB.intersects (bounds (data t)) (QuadTreeObject.bounds o) = true ->
  Capacity <= object_count (data t) ->
  nth_error (get_children (split Capacity uninit t)) k = Some ck ->
  insert Capacity uninit fuel ck o = Ret true ck' ->
  (forall j cj, j < k ->
     nth_error (get_children (split Capacity uninit t)) j = Some cj ->
     insert Capacity uninit fuel cj o = Ret false cj) ->
  insert Capacity uninit (S fuel) t o =
  Ret true (resolve_max_bounds (set_child (split Capacity uninit t) k ck')).
Proof.
  intros fuel t o k ck ck' Hi Hc Hk Hr Hb.
  rewrite insert_unfold, Hi. apply Nat.leb_le in Hc. rewrite Hc.
  destruct (split_quad Capacity uninit t) as (c0 & c1 & c2 & c3 & E).
  rewrite E in *. cbn [get_children] in *.
  destruct k as [|[|[|[|k]]]]; cbn in Hk; try (destruct k; discriminate);
    injection Hk as ->.
  - rewrite Hr. reflexivity.
  - rewrite (Hb 0 c0) by (auto; lia). cbn [insert_child].
    rewrite Hr. reflexivity.
  - rewrite (Hb 0 c0) by (auto; lia). cbn [insert_child].
    rewrite (Hb 1 c1) by (auto; lia). cbn [insert_child].
    rewrite Hr. reflexivity.
  - rewrite (Hb 0 c0) by (auto; lia). cbn [insert_child].
    rewrite (Hb 1 c1) by (auto; lia). cbn [insert_child].
    rewrite (Hb 2 c2) by (auto; lia). cbn [insert_child].
    rewrite Hr. reflexivity.
Qed.

Lemma depth_child : forall t c, In c (get_children t) -> depth c < depth t.
Proof.
  intros [d | d c0 c1 c2 c3] c H; cbn in H; [contradiction|].
  cbn [depth]. destruct H as [<- | [<- | [<- | [<- | []]]]]; lia.
Qed.

Lemma child_on_quadrant : forall t q,
  quartered t -> has_children_ t = true ->
  In q (quadrants (bounds (data t))) ->
  exists c, In c (get_children t) /\ edges (bounds (data c)) = edges q.
Proof.
  intros t q H Hc Hq. specialize (H Hc).
  assert (Hin : In (edges q) (map (fun c => edges (bounds (data c))) (get_children t))).
  { rewrite H. apply in_map. exact Hq. }
  apply in_map_iff in Hin as (c & E & Hin). eauto.
Qed.

Lemma quartered_split : forall t,
  quartered t -> quartered (split Capacity uninit t).
Proof. intros [d | d c0 c1 c2 c3] H; [intros _; reflexivity | exact H]. Qed.

Lemma insert_valid_succeeds : forall o,
  0 < Capacity ->
  QuadTreeAABB.verify (QuadTreeObject.bounds o) = true ->
  forall t fuel,
    wf Capacity t -> every_node quartered t ->
    QuadTreeAABB.intersects (bounds (data t)) (QuadTreeObject.bounds o) = true ->
    depth t + 2 <= fuel ->
    exists t', insert Capacity uninit fuel t o = Ret true t'.
Proof.
  intros o Hpos Hv.
  induction t as [t IH] using QuadTree_children_ind.
  intros fuel Hwf Hq Hi Hf.
  destruct fuel as [|fuel]; [lia|].
  destruct (Nat.lt_ge_cases (object_count (data t)) Capacity) as [Hc | Hc].
  { destruct (insert_own_slot fuel t o Hwf Hc Hi) as (t' & E & _). eauto. }
  pose proof (wf_split _ uninit _ Hwf) as Hs.
  assert (Hsplit : has_children_ (split Capacity uninit t) = true)
    by (destruct t; reflexivity).
  destruct (valid_object_quadrant _ _ Hv Hi) as (q & Hqin & Hqi).
  rewrite <- (data_split Capacity uninit t) in Hqin.
  destruct (child_on_quadrant _ q (quartered_split _ (every_node_top _ _ Hq)) Hsplit Hqin)
    as (c & Hcin & Hce).
  destruct (first_intersecting (QuadTreeObject.bounds o)
              (get_children (split Capacity uninit t))) as (k & ck & Hk & Hck & Hbefore).
  { exists c. split; [exact Hcin|]. rewrite (intersects_edges _ _ _ Hce). exact Hqi. }
  destruct fuel as [|fuel]; [lia|].
  assert (Hins : exists ck', insert Capacity uninit (S fuel) ck o = Ret true ck').
  { destruct t as [d | d c0 c1 c2 c3].
    - (* the children are new *)
      assert (Hfresh : exists b lvl, ck = make Capacity uninit b lvl).
      { apply nth_error_In in Hk. cbn in Hk.
        destruct Hk as [<- | [<- | [<- | [<- | []]]]]; eauto. }
      destruct Hfresh as (b & lvl & ->).
      destruct (insert_leaf_with_room Capacity uninit fuel
                  (mkNode b uninit 0 (repeat QuadTreeObject.empty Capacity) lvl) o)
        as (d' & E & _); [apply (wf_make Capacity uninit b lvl) | exact Hpos | exact Hck |].
      eauto.
    - cbn [split] in Hk. pose proof (nth_error_In _ _ Hk) as Hin.
      apply (IH ck Hin).
      + apply (wf_children _ _ ck Hwf Hin).
      + apply every_node_children in Hq. apply Hq, Hin.
      + exact Hck.
      + pose proof (depth_child _ _ Hin). lia. }
  destruct Hins as (ck' & Hins).
  eexists. apply (insert_through_child (S fuel) t o k ck ck'); auto.
  intros j cj Hj Hcj. apply insert_misses. apply (Hbefore j cj Hj Hcj).
Qed.

(** X14.  With a positive capacity, [insert] of an object with valid bounds
    that intersect the root's [bounds] of a reachable tree returns [true]:
    it neither throws nor returns [false], and it needs no more nested
    calls than the tree is deep, plus two. *)
Theorem insert_valid_object_succeeds : forall t o fuel,
  reachable Capacity uninit t ->
  0 < Capacity ->
  QuadTreeAABB.verify (QuadTreeObject.bounds o) = true ->
  QuadTreeAABB.intersects (bounds (data t)) (QuadTreeObject.bounds o) = true ->
  depth t + 2 <= fuel ->
  exists t', insert Capacity uninit fuel t o = Ret true t'.
Proof.
  intros t o fuel Hreach Hpos Hv Hi Hf.
  apply insert_valid_succeeds; auto.
  - apply (reachable_wf _ _ _ Hreach).
  - apply reachable_every_quartered, Hreach.
Qed.

(** ** Where live objects sit *)

Lemma all_live_make : forall b lvl, all_live (make Capacity uninit b lvl) = [].
Proof.
  intros b lvl. cbn [make all_live objects].
  induction Capacity; simpl; auto.
Qed.

Lemma every_node_remove_empty_nodes : forall P : QuadTree -> Prop,
  (forall t, wf Capacity t -> P t -> P (remove_empty_nodes t)) ->
  forall t, wf Capacity t -> every_node P t -> every_node P (remove_empty_nodes t).
Proof.
  intros P Htop. induction t as [t IH] using QuadTree_children_ind. intros Hwf H.
  apply every_node_children in H as [Ht Hch].
  apply every_node_children. split; [apply Htop; assumption|].
  intros c' Hin. apply In_get_children_remove_empty_nodes in Hin as (c & Hin & ->).
  apply IH; auto. apply (wf_children _ _ c Hwf Hin).
Qed.

Lemma placed_same : forall t t',
  placed t ->
  (forall s, In s (all_live t') -> In s (all_live t)) ->
  bounds (data t') = bounds (data t) ->
  (all_live t' <> [] -> QuadTreeAABB.covers (max_bounds (data t')) (bounds (data t'))) ->
  placed t'.
Proof.
  intros t t' [Hpos _] Hsub Hb Hagg. split; [|exact Hagg].
  intros s Hs. rewrite Hb. apply Hpos, Hsub, Hs.
Qed.

Lemma inserted_covers : forall o t t',
  inserted Capacity uninit o t t' ->
  QuadTreeAABB.covers (max_bounds (data t')) (bounds (data t')).
Proof.
  destruct 1 as [t objs Hi Hc E | t k ck ck' Hi Hc Hk Hbefore Hins].
  - rewrite data_with_data. cbn [max_bounds bounds].
    match goal with |- QuadTreeAABB.covers (max_bounds (data (resolve_max_bounds ?x))) _ =>
      pose proof (resolve_covers_bounds x) as W end.
    rewrite data_with_data in W. exact W.
  - rewrite bounds_resolve. apply resolve_covers_bounds.
Qed.

Lemma removed_covers : forall o t t',
  removed o t t' ->
  QuadTreeAABB.covers (max_bounds (data t')) (bounds (data t')).
Proof.
  destruct 1; rewrite bounds_resolve; apply resolve_covers_bounds.
Qed.

Lemma inserted_intersects : forall o t t',
  inserted Capacity uninit o t t' ->
  QuadTreeAABB.intersects (bounds (data t)) (QuadTreeObject.bounds o) = true.
Proof. destruct 1; assumption. Qed.

Lemma reachable_placed : forall t,
  reachable Capacity uninit t -> every_node placed t.
Proof.
  apply reachable_every_node.
  - intros b lvl. split; rewrite all_live_make; [intros s [] | congruence].
  - intros t _ H. apply (placed_same t _ (every_node_top _ _ H)).
    + rewrite all_live_split. auto.
    + rewrite data_split. reflexivity.
    + rewrite all_live_split, data_split. apply (every_node_top _ _ H).
  - apply every_node_remove_empty_nodes. intros t Hwf H.
    apply (placed_same t _ H).
    + rewrite (all_live_remove_empty_nodes _ Hwf). auto.
    + rewrite data_remove_empty_nodes. reflexivity.
    + rewrite (all_live_remove_empty_nodes _ Hwf), data_remove_empty_nodes. apply H.
  - intros o t t' Hins Hwf HP _ _. split.
    + intros s Hs. rewrite (inserted_bounds _ _ _ Hins).
      apply (Permutation_in _ (inserted_all_live _ _ _ Hins)) in Hs.
      destruct Hs as [<- | Hs].
      * apply (inserted_intersects _ _ _ Hins).
      * apply (every_node_top _ _ HP), Hs.
    + intros _. apply (inserted_covers _ _ _ Hins).
  - intros o t t' Hthr Hwf HP _ _.
    apply (placed_same t _ (every_node_top _ _ HP)).
    + rewrite (thrown_all_live _ _ _ Hthr). auto.
    + rewrite (thrown_data _ _ _ Hthr). reflexivity.
    + rewrite (thrown_all_live _ _ _ Hthr), (thrown_data _ _ _ Hthr).
      apply (every_node_top _ _ HP).
  - intros o t t' Hrem Hwf HP _.
    apply (placed_same t _ (every_node_top _ _ HP)).
    + intros s Hs.
      destruct (removed_all_live _ _ _ Hrem Hwf) as (x & _ & _ & Hp).
      apply (Permutation_in _ Hp). right. exact Hs.
    + apply (removed_bounds _ _ _ Hrem).
    + intros _. apply (removed_covers _ _ _ Hrem).
Qed.

Lemma query_with_complete : forall sel,
  (forall t, placed t -> all_live t <> [] ->
     QuadTreeAABB.covers (sel (data t)) (bounds (data t))) ->
  forall r bc s,
    QuadTreeAABB.verify (QuadTreeObject.bounds s) = true ->
    QuadTreeAABB.covers r (QuadTreeObject.bounds s) ->
    forall t, wf Capacity t -> every_node placed t ->
      In s (all_live t) -> In s (query_with sel t r bc []).
Proof.
  intros sel Hsel r bc s Hv Hr.
  induction t as [t IH] using QuadTree_children_ind. intros Hwf HP Hs.
  apply every_node_children in HP as [Ht Hch].
  assert (Hne : all_live t <> []) by (intros E; rewrite E in Hs; contradiction).
  rewrite query_with_children.
  rewrite (intersects_widen _ _ _ _ (Hsel t Ht Hne) (proj1 Ht s Hs) Hr). cbn [orb].
  rewrite all_live_children in Hs. apply in_app_or in Hs as [Hs | Hs]; apply in_or_app.
  - left. apply in_concat in Hs as (l & Hl & Hs).
    apply in_map_iff in Hl as (c & <- & Hc).
    apply in_concat. exists (query_with sel c r bc []). split.
    + apply (in_map (fun c => query_with sel c r bc [])). exact Hc.
    + apply IH; auto. apply (wf_children _ _ c Hwf Hc).
  - right. rewrite (query_slots_wf _ _ (wf_node_ok _ _ Hwf)).
    apply filter_In. split; [exact Hs|].
    unfold overlaps. apply verify_spec in Hv. apply intersects_spec.
    unfold QuadTreeAABB.covers in Hr. lia.
Qed.

Lemma query_finds_covered : forall t r bc s,
  reachable Capacity uninit t ->
  In s (all_live t) ->
  QuadTreeAABB.verify (QuadTreeObject.bounds s) = true ->
  QuadTreeAABB.covers r (QuadTreeObject.bounds s) ->
  In s (query_buffer t r bc []) /\ In s (query_vector t r bc []).
Proof.
  intros t r bc s Hreach Hs Hv Hr.
  pose proof (reachable_wf _ _ _ Hreach) as Hwf.
  pose proof (reachable_placed _ Hreach) as HP.
  rewrite query_buffer_shape, query_vector_shape. split.
  - apply (query_with_complete max_bounds); auto.
    intros t0 [_ Hagg] Hne. apply Hagg, Hne.
  - apply (query_with_complete bounds); auto.
    intros t0 _ _. apply covers_refl.
Qed.

(** ** Objects go to the first child that can take them *)

Lemma first_fit_children : forall t t',
  get_children t' = get_children t -> first_fit t -> first_fit t'.
Proof. intros t t' E H. unfold first_fit. rewrite E. exact H. Qed.

Lemma nth_error_set_child : forall t k ck c j x,
  nth_error (get_children t) k = Some ck ->
  nth_error (get_children (set_child t k c)) j = Some x ->
  (j = k /\ x = c) \/ (j <> k /\ nth_error (get_children t) j = Some x).
Proof.
  intros t k ck c j x Hk Hj.
  destruct (get_children_set_child t k ck c Hk) as [Hn Hother].
  destruct (Nat.eq_dec j k) as [-> | Hne].
  - left. split; [reflexivity | congruence].
  - right. split; [exact Hne|]. rewrite <- (Hother j Hne). exact Hj.
Qed.

(** Replacing child [k] by one on the same box keeps the order, as long as
    what is new below it misses the earlier children. *)
Lemma first_fit_set_child : forall t k ck c,
  first_fit t ->
  nth_error (get_children t) k = Some ck ->
  bounds (data c) = bounds (data ck) ->
  (forall x, In x (all_live c) ->
     In x (all_live ck) \/
     forall j cj, j < k -> nth_error (get_children t) j = Some cj ->
       QuadTreeAABB.intersects (bounds (data cj)) (QuadTreeObject.bounds x) = false) ->
  first_fit (set_child t k c).
Proof.
  intros t k ck c H Hk Hb Hnew j k' cj ck' s Hlt Hj Hk' Hs.
  destruct (nth_error_set_child t k ck c j cj Hk Hj) as [[Ej Ec] | [Hjk Hj0]];
  destruct (nth_error_set_child t k ck c k' ck' Hk Hk') as [[Ek Ec'] | [Hkk Hk0]];
    subst.
  - lia.
  - rewrite Hb. apply (H k k' ck ck' s Hlt Hk Hk0 Hs).
  - destruct (Hnew s Hs) as [Hold | Hmiss].
    + apply (H j k cj ck s Hlt Hj0 Hk Hold).
    + apply (Hmiss j cj Hlt Hj0).
  - apply (H j k' cj ck' s Hlt Hj0 Hk0 Hs).
Qed.

Lemma get_children_remove_empty_nodes : forall t,
  get_children (remove_empty_nodes t) = [] \/
  get_children (remove_empty_nodes t) = map remove_empty_nodes (get_children t).
Proof.
  intros [d | d c0 c1 c2 c3]; cbn [remove_empty_nodes]; [left; reflexivity|].
  match goal with |- context [if ?b then _ else _] => destruct b end;
    [left | right]; reflexivity.
Qed.

Lemma first_fit_remove_empty_nodes : forall t,
  wf Capacity t -> first_fit t -> first_fit (remove_empty_nodes t).
Proof.
  intros t Hwf H j k cj ck s Hlt Hj Hk Hs.
  destruct (get_children_remove_empty_nodes t) as [E | E]; rewrite E in Hj, Hk.
  - destruct j; discriminate.
  - rewrite nth_error_map in Hj, Hk.
    destruct (nth_error (get_children t) j) as [cj0|] eqn:Ej; [|discriminate].
    destruct (nth_error (get_children t) k) as [ck0|] eqn:Ek; [|discriminate].
    cbn in Hj, Hk. injection Hj as <-. injection Hk as <-.
    rewrite data_remove_empty_nodes.
    rewrite all_live_remove_empty_nodes in Hs
      by (apply (wf_children _ _ ck0 Hwf), (nth_error_In _ _ Ek)).
    apply (H j k cj0 ck0 s Hlt Ej Ek Hs).
Qed.

Lemma first_fit_split : forall t,
  first_fit t -> first_fit (split Capacity uninit t).
Proof.
  intros [d | d c0 c1 c2 c3] H; [|exact H].
  intros j k cj ck s Hlt Hj Hk Hs. exfalso.
  apply nth_error_In in Hk. cbn in Hk.
  destruct Hk as [<- | [<- | [<- | [<- | []]]]];
    rewrite all_live_make in Hs; contradiction.
Qed.

Lemma reachable_first_fit : forall t,
  reachable Capacity uninit t -> every_node first_fit t.
Proof.
  apply reachable_every_node.
  - intros b lvl j k cj ck s _ Hj. destruct j; discriminate.
  - intros t _ H. apply first_fit_split, (every_node_top _ _ H).
  - apply every_node_remove_empty_nodes. apply first_fit_remove_empty_nodes.
  - intros o t t' Hins Hwf HP HS _.
    inversion Hins as [t0 objs Hi Hc E | t0 k ck ck' Hi Hc Hk Hbefore Hins']; subst.
    + apply (first_fit_children t); [apply get_children_with_data|].
      apply (every_node_top _ _ HP).
    + apply (first_fit_children (set_child (split Capacity uninit t) k ck'));
        [apply get_children_resolve|].
      apply (first_fit_set_child _ k ck); auto.
      * apply (every_node_top _ _ HS).
      * apply (inserted_bounds _ _ _ Hins').
      * intros x Hx.
        apply (Permutation_in _ (inserted_all_live _ _ _ Hins')) in Hx.
        destruct Hx as [<- | Hx]; [right | left; exact Hx].
        exact Hbefore.
  - intros o t t' Hthr Hwf HP HS _.
    inversion Hthr as [t0 Hi Hc Hall | t0 k ck ck' Hi Hc Hk Hbefore Hthr']; subst.
    + apply (every_node_top _ _ HS).
    + apply (first_fit_set_child _ k ck); auto.
      * apply (every_node_top _ _ HS).
      * rewrite (thrown_data _ _ _ Hthr'). reflexivity.
      * intros x Hx. left. rewrite <- (thrown_all_live _ _ _ Hthr'). exact Hx.
  - intros o t t' Hrem Hwf HP _.
    inversion Hrem as [t0 d' Hi Hh | t0 k ck ck' Hi Hn Hk Hrem']; subst.
    + apply (first_fit_children (remove_empty_nodes (with_data d' t)));
        [apply get_children_resolve|].
      apply first_fit_remove_empty_nodes.
      * apply wf_with_data; [|exact Hwf].
        apply (remove_here_node_ok _ _ _ _ (wf_node_ok _ _ Hwf) Hh).
      * apply (first_fit_children t); [apply get_children_with_data|].
        apply (every_node_top _ _ HP).
    + apply (first_fit_children (set_child t k ck'));
        [apply get_children_resolve|].
      apply (first_fit_set_child _ k ck); auto.
      * apply (every_node_top _ _ HP).
      * apply (removed_bounds _ _ _ Hrem').
      * intros x Hx. left.
        destruct (removed_all_live _ _ _ Hrem'
                    (wf_children _ _ ck Hwf (nth_error_In _ _ Hk)))
          as (y & _ & _ & Hp).
        apply (Permutation_in _ Hp). right. exact Hx.
Qed.

(** ** Removing an object that is stored *)

Lemma NoDup_app_disjoint : forall (A : Type) (l1 l2 : list A) a,
  NoDup (l1 ++ l2) -> In a l1 -> In a l2 -> False.
Proof.
  intros A. induction l1 as [|x l1 IH]; intros l2 a H H1 H2; [contradiction|].
  cbn in H. inversion H as [|? ? Hx Hrest]; subst.
  destruct H1 as [-> | H1].
  - apply Hx. apply in_or_app. right. exact H2.
  - apply (IH l2 a Hrest H1 H2).
Qed.

Lemma NoDup_map_same : forall (A B : Type) (f : A -> B) l a b,
  NoDup (map f l) -> In a l -> In b l -> f a = f b -> a = b.
Proof.
  intros A B f. induction l as [|x l IH]; intros a b H Ha Hb E; [contradiction|].
  cbn in H. inversion H as [|? ? Hx Hrest]; subst.
  destruct Ha as [-> | Ha], Hb as [-> | Hb]; auto.
  - exfalso. apply Hx. rewrite E. apply in_map. exact Hb.
  - exfalso. apply Hx. rewrite <- E. apply in_map. exact Ha.
Qed.

Lemma remove_slot_present : forall objs s,
  In s (filter live objs) ->
  exists objs', remove_slot objs (QuadTreeObject.id s) = Some objs'.
Proof.
  induction objs as [|x rest IH]; intros s H; [contradiction|].
  cbn [remove_slot].
  destruct (negb (QuadTreeObject.removed x) &&
            (QuadTreeObject.id x =? QuadTreeObject.id s)%N) eqn:M; [eauto|].
  cbn [filter] in H. rewrite live_of_removed in H.
  destruct (negb (QuadTreeObject.removed x)) eqn:L.
  - destruct H as [-> | H].
    + rewrite N.eqb_refl in M. discriminate.
    + destruct (IH s H) as [r ->]. cbn. eauto.
  - destruct (IH s H) as [r ->]. cbn. eauto.
Qed.

Lemma remove_here_present : forall d s,
  node_ok Capacity d ->
  In s (filter live (objects d)) ->
  exists d', remove_here d (QuadTreeObject.id s) = Some d'.
Proof.
  intros d s [_ Hc] H. unfold remove_here.
  destruct (remove_slot_present _ _ H) as [objs ->].
  replace (0 <? object_count d) with true; [eauto|].
  symmetry. apply Nat.ltb_lt. rewrite Hc. unfold count_live.
  destruct (filter live (objects d)); [contradiction | cbn; lia].
Qed.

Lemma remove_stored : forall s o,
  QuadTreeObject.id o = QuadTreeObject.id s ->
  QuadTreeObject.bounds o = QuadTreeObject.bounds s ->
  forall t,
    wf Capacity t -> every_node placed t -> every_node first_fit t ->
    NoDup (map QuadTreeObject.id (all_live t)) ->
    In s (all_live t) ->
    exists t', remove t o = RRet true t'.
Proof.
  intros s o Hid Hb.
  induction t as [t IH] using QuadTree_children_ind.
  intros Hwf HP HF Hnd Hs.
  apply every_node_children in HP as [[Hpos _] HPch].
  apply every_node_children in HF as [Hff HFch].
  assert (Hi : QuadTreeAABB.intersects (bounds (data t)) (QuadTreeObject.bounds o) = true)
    by (rewrite Hb; apply Hpos, Hs).
  rewrite all_live_children in Hs, Hnd.
  apply in_app_or in Hs as [Hs | Hs].
  - (* below a child *)
    assert (Hn : remove_here (data t) (QuadTreeObject.id o) = None).
    { destruct (remove_here (data t) (QuadTreeObject.id o)) as [d'|] eqn:E;
        [exfalso | reflexivity].
      destruct (remove_here_live _ _ _ E) as (x & Hx & Hin & _).
      rewrite map_app in Hnd.
      apply (NoDup_app_disjoint _ _ _ (QuadTreeObject.id s) Hnd).
      - apply in_map. exact Hs.
      - rewrite <- Hid, <- Hx. apply in_map. exact Hin. }
    apply in_concat in Hs as (l & Hl & Hs).
    apply in_map_iff in Hl as (ck & <- & Hck).
    destruct (In_nth_error _ _ Hck) as [k Hk].
    destruct (IH ck Hck) as [ck' Hrem]; auto.
    + apply (wf_children _ _ ck Hwf Hck).
    + rewrite <- all_live_children in Hnd.
      destruct (all_live_set_child _ _ _ Hk) as (pre & post & E & _).
      rewrite E, !map_app in Hnd.
      apply NoDup_app_remove_l, NoDup_app_remove_r in Hnd. exact Hnd.
    + exists (resolve_max_bounds (set_child t k ck')).
      apply (remove_through_child t o k ck ck'); auto.
      intros j cj Hj Hcj. apply remove_misses. rewrite Hb.
      apply (Hff j k cj ck s Hj Hcj Hk Hs).
  - (* in a slot of the node *)
    destruct (remove_here_present _ _ (wf_node_ok _ _ Hwf) Hs) as [d' Hd].
    rewrite <- Hid in Hd.
    eexists. apply (remove_in_own_slots t o d' Hi Hd).
Qed.

(** X15.  In a reachable tree whose live objects carry distinct ids, [remove]
    called with the id and the bounds of a stored object returns [true]
    and takes exactly that object out: the path without a [return] is not
    taken. *)
Theorem remove_stored_object_succeeds : forall t s o,
  reachable Capacity uninit t ->
  NoDup (map QuadTreeObject.id (all_live t)) ->
  In s (all_live t) ->
  QuadTreeObject.id o = QuadTreeObject.id s ->
  QuadTreeObject.bounds o = QuadTreeObject.bounds s ->
  exists t',
    remove t o = RRet true t' /\
    Permutation (s :: all_live t') (all_live t) /\
    ~ In s (all_live t').
Proof.
  intros t s o Hreach Hnd Hs Hid Hb.
  pose proof (reachable_wf _ _ _ Hreach) as Hwf.
  destruct (remove_stored s o Hid Hb t Hwf (reachable_placed _ Hreach)
              (reachable_first_fit _ Hreach) Hnd Hs) as [t' Hrem].
  exists t'. split; [exact Hrem|].
  destruct (removed_all_live _ _ _ (remove_true_removed _ _ _ Hrem) Hwf)
    as (x & Hx & Hin & Hp).
  assert (x = s).
  { apply (NoDup_map_same _ _ QuadTreeObject.id (all_live t)); auto. congruence. }
  subst x. split; [exact Hp|].
  intros Hin'.
  assert (Hnd' : NoDup (s :: all_live t')).
  { apply (Permutation_NoDup (Permutation_sym Hp)).
    apply (NoDup_map_inv QuadTreeObject.id). exact Hnd. }
  inversion Hnd'; contradiction.
Qed.

(** ** What [max_bounds] does contain *)

Lemma tracked_children : forall t,
  tracked t =
  option_list Obj (last_live (objects (data t))) ++
  concat (map tracked (get_children t)).
Proof.
  intros [d | d c0 c1 c2 c3]; cbn [tracked get_children map concat data];
    rewrite app_nil_r; reflexivity.
Qed.

Lemma last_live_repeat_empty : forall n,
  last_live (repeat QuadTreeObject.empty n) = None.
Proof.
  intros n. unfold last_live.
  assert (E : filter live (repeat QuadTreeObject.empty n) = [])
    by (induction n; simpl; auto).
  rewrite E. reflexivity.
Qed.

Lemma tracked_make : forall b lvl, tracked (make Capacity uninit b lvl) = [].
Proof. intros b lvl. cbn [make tracked objects]. rewrite last_live_repeat_empty. reflexivity. Qed.

Lemma tracked_split : forall t, tracked (split Capacity uninit t) = tracked t.
Proof.
  intros [d | d c0 c1 c2 c3]; [|reflexivity].
  cbn [split tracked]. rewrite !tracked_make. rewrite app_nil_r. reflexivity.
Qed.

Lemma tracked_same : forall t t',
  objects (data t') = objects (data t) ->
  get_children t' = get_children t ->
  tracked t' = tracked t.
Proof. intros t t' Eo Ec. rewrite !tracked_children, Eo, Ec. reflexivity. Qed.

Lemma tracks_same : forall t t',
  tracked t' = tracked t ->
  max_bounds (data t') = max_bounds (data t) ->
  tracks t -> tracks t'.
Proof. intros t t' Et Em H. unfold tracks. rewrite Et, Em. exact H. Qed.

(** [resolve_max_bounds] at a node makes [max_bounds] contain the valid
    last live slots of the subtree, once the children's contain theirs. *)
Lemma tracks_resolve : forall t,
  (forall c, In c (get_children t) -> tracks c) ->
  tracks (resolve_max_bounds t).
Proof.
  intros t Hch s Hs Hv.
  rewrite (tracked_same t) in Hs
    by (apply objects_resolve || apply get_children_resolve).
  unfold resolve_max_bounds. rewrite data_with_data. cbn [max_bounds set_max_bounds].
  rewrite tracked_children in Hs. apply in_app_or in Hs as [Hs | Hs].
  - assert (Hl : last_live (objects (data t)) = Some s).
    { destruct (last_live (objects (data t))); cbn in Hs; [|contradiction].
      destruct Hs as [-> | []]. reflexivity. }
    apply (cover_children_valid _ _ _ _ Hv). left.
    apply cover_objects_last; auto.
  - apply in_concat in Hs as (l & Hl & Hs).
    apply in_map_iff in Hl as (c & <- & Hc).
    apply (cover_children_valid _ _ _ _ Hv). right.
    exists (max_bounds (data c)). split.
    + apply (in_map (fun c => max_bounds (data c))). exact Hc.
    + apply (Hch c Hc s Hs Hv).
Qed.

Lemma tracked_set_child : forall t k ck,
  nth_error (get_children t) k = Some ck ->
  forall c, tracked c = tracked ck -> tracked (set_child t k c) = tracked t.
Proof.
  intros [d | d c0 c1 c2 c3] k ck H c E; [destruct k; discriminate|].
  destruct k as [|[|[|[|k]]]]; cbn in H; try (destruct k; discriminate);
    injection H as <-; cbn [set_child tracked]; rewrite E; reflexivity.
Qed.

Lemma thrown_tracked : forall o t t',
  thrown Capacity uninit o t t' -> tracked t' = tracked t.
Proof.
  induction 1 as [t Hi Hc Hall | t k ck ck' Hi Hc Hk Hbefore Hthr IH].
  - apply tracked_split.
  - rewrite (tracked_set_child _ _ _ Hk _ IH). apply tracked_split.
Qed.

Lemma incl_concat_map : forall (A B : Type) (f g : A -> list B) l,
  (forall a, In a l -> incl (f a) (g a)) ->
  incl (concat (map f l)) (concat (map g l)).
Proof.
  intros A B f g l H x Hx. apply in_concat in Hx as (y & Hy & Hx).
  apply in_map_iff in Hy as (a & <- & Ha).
  apply in_concat. exists (g a). split; [apply in_map; exact Ha|].
  apply (H a Ha x Hx).
Qed.

Lemma tracked_remove_empty_nodes : forall t,
  incl (tracked (remove_empty_nodes t)) (tracked t).
Proof.
  induction t as [t IH] using QuadTree_children_ind.
  rewrite (tracked_children (remove_empty_nodes t)), (tracked_children t).
  rewrite data_remove_empty_nodes.
  apply incl_app; [apply incl_appl, incl_refl|]. apply incl_appr.
  destruct (get_children_remove_empty_nodes t) as [E | E]; rewrite E.
  - intros x [].
  - rewrite map_map. apply incl_concat_map. exact IH.
Qed.

Lemma tracks_remove_empty_nodes : forall t,
  wf Capacity t -> tracks t -> tracks (remove_empty_nodes t).
Proof.
  intros t _ H s Hs Hv. rewrite data_remove_empty_nodes.
  apply H; [|exact Hv]. apply tracked_remove_empty_nodes, Hs.
Qed.

Lemma reachable_tracks : forall t,
  reachable Capacity uninit t -> every_node tracks t.
Proof.
  apply reachable_every_node.
  - intros b lvl s Hs. rewrite tracked_make in Hs. contradiction.
  - intros t _ H. apply (tracks_same t).
    + apply tracked_split.
    + rewrite data_split. reflexivity.
    + apply (every_node_top _ _ H).
  - apply every_node_remove_empty_nodes. apply tracks_remove_empty_nodes.
  - intros o t t' Hins Hwf HP HS Hch.
    inversion Hins as [t0 objs Hi Hc E | t0 k ck ck' Hi Hc Hk Hbefore Hins']; subst.
    + rewrite get_children_with_data in Hch.
      apply (tracks_same (resolve_max_bounds
               (with_data (set_slots (data t) objs (object_count (data t))) t))).
      * apply tracked_same.
        -- rewrite objects_resolve, !data_with_data. reflexivity.
        -- rewrite get_children_resolve, !get_children_with_data. reflexivity.
      * rewrite data_with_data. reflexivity.
      * apply tracks_resolve. intros c Hc'.
        rewrite get_children_with_data in Hc'.
        apply (every_node_top _ _ (Hch c Hc')).
    + rewrite get_children_resolve in Hch.
      apply tracks_resolve. intros c Hc'. apply (every_node_top _ _ (Hch c Hc')).
  - intros o t t' Hthr Hwf HP HS _.
    apply (tracks_same t).
    + apply (thrown_tracked _ _ _ Hthr).
    + rewrite (thrown_data _ _ _ Hthr). reflexivity.
    + apply (every_node_top _ _ HP).
  - intros o t t' Hrem Hwf HP Hch.
    inversion Hrem as [t0 d' Hi Hh | t0 k ck ck' Hi Hn Hk Hrem']; subst;
      rewrite get_children_resolve in Hch;
      apply tracks_resolve; intros c Hc'; apply (every_node_top _ _ (Hch c Hc')).
Qed.

Lemma all_live_in_tracked : forall t,
  Capacity <= 1 -> wf Capacity t -> incl (all_live t) (tracked t).
Proof.
  intros t Hcap. induction t as [t IH] using QuadTree_children_ind. intros Hwf.
  rewrite all_live_children, tracked_children.
  apply incl_app.
  - apply incl_appr. apply incl_concat_map.
    intros c Hc. apply IH; [exact Hc|]. apply (wf_children _ _ c Hwf Hc).
  - apply incl_appl. destruct (wf_node_ok _ _ Hwf) as [Hl _].
    destruct (objects (data t)) as [|x [|y rest]]; cbn in Hl; try lia.
    + intros s [].
    + unfold last_live. cbn [filter]. destruct (live x); cbn; intros s Hs; exact Hs.
Qed.

Lemma every_node_impl : forall (P Q : QuadTree -> Prop),
  (forall t, wf Capacity t -> P t -> Q t) ->
  forall t, wf Capacity t -> every_node P t -> every_node Q t.
Proof.
  intros P Q Himp. induction t as [t IH] using QuadTree_children_ind. intros Hwf H.
  apply every_node_children in H as [Ht Hch].
  apply every_node_children. split; [apply Himp; assumption|].
  intros c Hc. apply IH; auto. apply (wf_children _ _ c Hwf Hc).
Qed.

(** ** The extra properties, as stated for users of the code *)

(** X9.  A node of a well-formed tree with a free slot whose [bounds]
    intersect the object's takes the object into its first free slot,
    whether or not it has children; the children are not touched. *)
Theorem insert_uses_own_slot : forall n t o,
  wf Capacity t ->
  object_count (data t) < Capacity ->
  QuadTreeAABB.intersects (bounds (data t)) (QuadTreeObject.bounds o) = true ->
  exists t',
    insert Capacity uninit (S n) t o = Ret true t' /\
    get_children t' = get_children t /\
    insert_slot (objects (data t)) o = Some (objects (data t')) /\
    object_count (data t') = S (object_count (data t)) /\
    bounds (data t') = bounds (data t).
Proof. exact insert_own_slot. Qed.

(** X13.  In a reachable tree the children of every node that has children sit
    on the four quadrants of the node's [bounds], top-left, top-right,
    bottom-right, bottom-left, cut at its centre. *)
Theorem children_sit_on_quadrants : forall t,
  reachable Capacity uninit t -> every_node quartered t.
Proof. exact reachable_every_quartered. Qed.

(** X16.  In a reachable tree both overloads, with the bound checks on or off,
    return every live object with valid bounds whose bounds lie within the
    query region. *)
Theorem query_finds_covered_objects : forall t r bc s,
  reachable Capacity uninit t ->
  In s (all_live t) ->
  QuadTreeAABB.verify (QuadTreeObject.bounds s) = true ->
  QuadTreeAABB.covers r (QuadTreeObject.bounds s) ->
  In s (query_buffer t r bc []) /\ In s (query_vector t r bc []).
Proof. exact query_finds_covered. Qed.

(** X17.  In a reachable tree, at every node: each live object of the subtree
    intersects the node's [bounds]; a node with a live object in its
    subtree has a [max_bounds] that contains its [bounds]; and no live
    object below a child intersects the [bounds] of an earlier child, so
    each object sits in the first quadrant, in the order of [split], that
    it intersects. *)
Theorem stored_objects_placement : forall t,
  reachable Capacity uninit t ->
  every_node placed t /\ every_node first_fit t.
Proof.
  intros t H. split; [apply reachable_placed | apply reachable_first_fit]; exact H.
Qed.

(** X18.  In a reachable tree the [max_bounds] of every node contains the
    bounds, when valid, of the last live slot of each node of its subtree
    (the slot loop of [resolve_max_bounds] keeps the last live slot). *)
Theorem max_bounds_tracks_last_slots : forall t,
  reachable Capacity uninit t -> every_node tracks t.
Proof. exact reachable_tracks. Qed.

(** X19.  With at most one slot per node, the [max_bounds] of every node of a
    reachable tree contains every live object of its subtree that has
    valid bounds. *)
Theorem single_slot_aggregate_sound : forall t,
  Capacity <= 1 ->
  reachable Capacity uninit t -> every_node aggregate_sound t.
Proof.
  intros t Hcap Hreach.
  pose proof (reachable_wf _ _ _ Hreach) as Hwf.
  apply (every_node_impl tracks); [|exact Hwf | apply reachable_tracks, Hreach].
  intros t0 Hwf0 H s Hs Hv. apply H; [|exact Hv].
  apply (all_live_in_tracked t0 Hcap Hwf0), Hs.
Qed.

(** X20.  With a positive capacity [insert] comes back, on any tree and for any
    object: with fuel for two more nested calls than the tree is deep it
    returns or throws, and more fuel gives the same result. *)
Theorem insert_terminates : forall t o fuel fuel',
  0 < Capacity ->
  depth t + 2 <= fuel -> fuel <= fuel' ->
  insert Capacity uninit fuel t o <> Diverge /\
  insert Capacity uninit fuel' t o = insert Capacity uninit fuel t o.
Proof.
  intros t o fuel fuel' Hpos Hf Hle.
  pose proof (insert_comes_back Capacity uninit t o fuel Hpos Hf) as H.
  split; [exact H|]. apply insert_fuel_le; assumption.
Qed.

(** X21.  After a [remove] that returned [true] on a reachable tree, every live
    object with another id is still stored, and both overloads still
    return it for every region that contains its valid bounds. *)
Theorem other_objects_survive_remove : forall t o t' s r bc,
  reachable Capacity uninit t ->
  remove t o = RRet true t' ->
  In s (all_live t) ->
  QuadTreeObject.id s <> QuadTreeObject.id o ->
  In s (all_live t') /\
  (QuadTreeAABB.verify (QuadTreeObject.bounds s) = true ->
   QuadTreeAABB.covers r (QuadTreeObject.bounds s) ->
   In s (query_buffer t' r bc []) /\ In s (query_vector t' r bc [])).
Proof.
  intros t o t' s r bc Hreach Hrem Hs Hid.
  pose proof (reachable_wf _ _ _ Hreach) as Hwf.
  destruct (removed_all_live _ _ _ (remove_true_removed _ _ _ Hrem) Hwf)
    as (x & Hx & _ & Hp).
  assert (Hs' : In s (all_live t')).
  { apply (Permutation_in _ (Permutation_sym Hp)) in Hs.
    destruct Hs as [-> | Hs]; [congruence | exact Hs]. }
  split; [exact Hs'|]. intros Hv Hr.
  apply query_finds_covered; auto.
  apply (reach_remove Capacity uninit t o true t' Hreach Hrem).
Qed.

(** X22.  Neither overload returns an id more often than live slots of the tree
    carry it. *)
Theorem query_returns_each_slot_once : forall t r bc i,
  times_returned i (query_buffer t r bc []) <= count_live_id i t /\
  times_returned i (query_vector t r bc []) <= count_live_id i t.
Proof.
  intros t r bc i. rewrite query_buffer_shape, query_vector_shape.
  split; apply times_returned_query_le.
Qed.

(** X23.  [set_bounds] is invisible to the buffer overload, which reads
    [max_bounds] only, and to [get_total_objects]; the vector overload with
    the bound checks on returns nothing once the new box misses the
    region. *)
Theorem set_bounds_and_queries : forall t b r bc out,
  get_bounds (set_bounds t b) = b /\
  query_buffer (set_bounds t b) r bc out = query_buffer t r bc out /\
  get_total_objects (set_bounds t b) = get_total_objects t /\
  all_live (set_bounds t b) = all_live t /\
  (QuadTreeAABB.intersects b r = false ->
   query_vector (set_bounds t b) r true out = out).
Proof.
  intros [d | d c0 c1 c2 c3] b r bc out; cbn; repeat split;
    intros H; rewrite H; reflexivity.
Qed.

Lemma insert_diverges_through_child : forall fuel t o k ck,
  QuadTreeAABB.intersects (bounds (data t)) (QuadTreeObject.bounds o) = true ->
  Capacity <= object_count (data t) ->
  nth_error (get_children (split Capacity uninit t)) k = Some ck ->
  insert Capacity uninit fuel ck o = Diverge ->
  (forall j cj, j < k ->
     nth_error (get_children (split Capacity uninit t)) j = Some cj ->
     insert Capacity uninit fuel cj o = Ret false cj) ->
  insert Capacity uninit (S fuel) t o = Diverge.
Proof.
  intros fuel t o k ck Hi Hc Hk Hr Hb.
  rewrite insert_unfold, Hi. apply Nat.leb_le in Hc. rewrite Hc.
  destruct (split_quad Capacity uninit t) as (c0 & c1 & c2 & c3 & E).
  rewrite E in *. cbn [get_children] in *.
  destruct k as [|[|[|[|k]]]]; cbn in Hk; try (destruct k; discriminate);
    injection Hk as ->.
  - rewrite Hr. reflexivity.
  - rewrite (Hb 0 c0) by (auto; lia). cbn [insert_child].
    rewrite Hr. reflexivity.
  - rewrite (Hb 0 c0) by (auto; lia). cbn [insert_child].
    rewrite (Hb 1 c1) by (auto; lia). cbn [insert_child].
    rewrite Hr. reflexivity.
  - rewrite (Hb 0 c0) by (auto; lia). cbn [insert_child].
    rewrite (Hb 1 c1) by (auto; lia). cbn [insert_child].
    rewrite (Hb 2 c2) by (auto; lia). cbn [insert_child].
    rewrite Hr. reflexivity.
Qed.

Lemma insert_zero_capacity : forall o,
  Capacity = 0 ->
  QuadTreeAABB.verify (QuadTreeObject.bounds o) = true ->
  forall fuel t,
    every_node quartered t ->
    QuadTreeAABB.intersects (bounds (data t)) (QuadTreeObject.bounds o) = true ->
    insert Capacity uninit fuel t o = Diverge.
Proof.
  intros o Hzero Hv. induction fuel as [|fuel IH]; intros t Hq Hi; [reflexivity|].
  assert (HS : every_node quartered (split Capacity uninit t)).
  { apply every_node_split; auto.
    - intros b lvl Hc. discriminate.
    - apply quartered_split, (every_node_top _ _ Hq). }
  assert (Hsplit : has_children_ (split Capacity uninit t) = true)
    by (destruct t; reflexivity).
  destruct (valid_object_quadrant _ _ Hv Hi) as (q & Hqin & Hqi).
  rewrite <- (data_split Capacity uninit t) in Hqin.
  destruct (child_on_quadrant _ q (every_node_top _ _ HS) Hsplit Hqin)
    as (c & Hcin & Hce).
  destruct (first_intersecting (QuadTreeObject.bounds o)
              (get_children (split Capacity uninit t))) as (k & ck & Hk & Hck & Hbefore).
  { exists c. split; [exact Hcin|]. rewrite (intersects_edges _ _ _ Hce). exact Hqi. }
  destruct fuel as [|fuel].
  - (* the first nested call is already one too many *)
    rewrite insert_unfold, Hi.
    replace (Capacity <=? object_count (data t)) with true
      by (symmetry; apply Nat.leb_le; lia).
    destruct (split_quad Capacity uninit t) as (c0 & c1 & c2 & c3 & E).
    rewrite E. reflexivity.
  - apply (insert_diverges_through_child (S fuel) t o k ck); auto; [lia | |].
    + apply IH; [|exact Hck].
      apply every_node_children in HS. apply HS, (nth_error_In _ _ Hk).
    + intros j cj Hj Hcj. apply insert_misses. apply (Hbefore j cj Hj Hcj).
Qed.

(** X24.  With [_Capacity = 0] no node ever has a free slot: [insert] of an
    object with valid bounds that intersect the root's [bounds] of a
    reachable tree splits and descends without end; no amount of fuel
    brings it back. *)
Theorem zero_capacity_insert_never_returns : forall t o fuel,
  Capacity = 0 ->
  reachable Capacity uninit t ->
  QuadTreeAABB.verify (QuadTreeObject.bounds o) = true ->
  QuadTreeAABB.intersects (bounds (data t)) (QuadTreeObject.bounds o) = true ->
  insert Capacity uninit fuel t o = Diverge.
Proof.
  intros t o fuel Hzero Hreach Hv Hi.
  apply insert_zero_capacity; auto. apply reachable_every_quartered, Hreach.
Qed.

(** X25.  A slot freed by [remove] is free for the next [insert] at that node:
    after [remove] found its match in the root's own slots of a reachable
    tree, an object whose bounds intersect the root's goes into a root
    slot, whether or not the root has children, and the children stay as
    [remove] left them. *)
Theorem freed_slot_is_reused : forall t o,
  reachable Capacity uninit t ->
  matches_here t o = true ->
  exists t1,
    remove t o = RRet true t1 /\
    forall n o2,
      QuadTreeAABB.intersects (bounds (data t)) (QuadTreeObject.bounds o2) = true ->
      exists t2,
        insert Capacity uninit (S n) t1 o2 = Ret true t2 /\
        get_children t2 = get_children t1 /\
        In (QuadTreeObject.stored o2) (objects (data t2)) /\
        object_count (data t2) = object_count (data t).
Proof.
  intros t o Hreach Hm.
  pose proof (reachable_wf _ _ _ Hreach) as Hwf.
  unfold matches_here in Hm. apply andb_true_iff in Hm as [Hi Hm].
  destruct (remove_here (data t) (QuadTreeObject.id o)) as [d'|] eqn:Hh;
    [|discriminate].
  pose proof (remove_in_own_slots t o d' Hi Hh) as Hrem.
  eexists. split; [exact Hrem|].
  intros n o2 Hi2.
  pose proof (remove_wf _ t o Hwf) as Hwf1. rewrite Hrem in Hwf1. cbn in Hwf1.
  pose proof (remove_here_count _ _ _ Hh) as Hcount.
  assert (Hc1 : object_count (data (resolve_max_bounds
                  (remove_empty_nodes (with_data d' t)))) = object_count d').
  { rewrite object_count_resolve, data_remove_empty_nodes, data_with_data. reflexivity. }
  assert (Hb1 : bounds (data (resolve_max_bounds
                  (remove_empty_nodes (with_data d' t)))) = bounds (data t)).
  { apply (removed_bounds o). apply removed_here; assumption. }
  destruct (wf_node_ok _ _ Hwf) as [Hl Hcl].
  pose proof (count_live_le_length (objects (data t))) as Hle.
  destruct (insert_own_slot n _ o2 Hwf1) as (t2 & E & Hch & Hslot & Hc2 & _).
  - rewrite Hc1. lia.
  - rewrite Hb1. exact Hi2.
  - exists t2. split; [exact E|]. split; [exact Hch|]. split.
    + apply (insert_slot_In _ _ _ Hslot).
    + rewrite Hc2, Hc1. lia.
Qed.

End More.

(** ** Instances of the further properties *)

Lemma reachable_full_leaf : reachable 1 QuadTreeAABB.zero full_leaf.
Proof.
  apply (reach_insert 1 QuadTreeAABB.zero 1
           (QuadTree_new 1 QuadTreeAABB.zero universe) near _ full_leaf
           (reach_new _ _ _) eq_refl).
  reflexivity.
Qed.

Lemma reachable_two_level : reachable 1 QuadTreeAABB.zero two_level.
Proof.
  apply (reach_insert 1 QuadTreeAABB.zero 2 full_leaf far _ two_level
           reachable_full_leaf eq_refl).
  reflexivity.
Qed.

Lemma contains_common_point_intersects_witness :
  QuadTreeAABB.intersects universe middle = true /\
  QuadTreeAABB.verify universe = true /\ QuadTreeAABB.verify middle = true.
Proof.
  apply (contains_common_point_intersects universe middle 50 50); reflexivity.
Defined.


Lemma reachable_counts_witness :
  wf 1 two_level /\ object_count (data two_level) <= 1 /\
  get_total_objects two_level = length (all_live two_level).
Proof. apply (reachable_counts 1 QuadTreeAABB.zero two_level reachable_two_level). Defined.

Lemma query_unchecked_exact_witness :
  query_buffer two_level middle false [] =
    filter (overlaps middle) (all_live two_level) /\
  query_vector two_level middle false [] =
    filter (overlaps middle) (all_live two_level).
Proof.
  apply (query_unchecked_exact 1 QuadTreeAABB.zero two_level middle reachable_two_level).
Defined.

Lemma query_finds_covered_objects_witness :
  In (QuadTreeObject.stored far) (query_buffer two_level universe true []) /\
  In (QuadTreeObject.stored far) (query_vector two_level universe true []).
Proof.
  apply (query_finds_covered_objects 1 QuadTreeAABB.zero two_level universe true
           (QuadTreeObject.stored far) reachable_two_level).
  - cbn. auto.
  - reflexivity.
  - unfold QuadTreeAABB.covers. cbn. lia.
Defined.

Lemma remove_empty_nodes_keeps_objects_witness :
  all_live (remove_empty_nodes two_level) = all_live two_level /\
  get_total_objects (remove_empty_nodes two_level) = get_total_objects two_level /\
  data (remove_empty_nodes two_level) = data two_level /\
  pruned (remove_empty_nodes two_level) /\
  remove_empty_nodes (remove_empty_nodes two_level) = remove_empty_nodes two_level.
Proof.
  apply (remove_empty_nodes_keeps_objects 1 QuadTreeAABB.zero two_level reachable_two_level).
Defined.

Lemma insert_uses_own_slot_witness :
  exists t',
    insert 1 QuadTreeAABB.zero 1
      (split 1 QuadTreeAABB.zero (QuadTree_new 1 QuadTreeAABB.zero universe)) near =
      Ret true t' /\
    get_children t' =
      get_children (split 1 QuadTreeAABB.zero (QuadTree_new 1 QuadTreeAABB.zero universe)) /\
    object_count (data t') = 1.
Proof.
  destruct (insert_uses_own_slot 1 QuadTreeAABB.zero 0
              (split 1 QuadTreeAABB.zero (QuadTree_new 1 QuadTreeAABB.zero universe)) near)
    as (t' & H1 & H2 & _ & H3 & _).
  - cbn. repeat split.
  - cbn. lia.
  - reflexivity.
  - exists t'. auto.
Defined.

Lemma insert_adds_one_object_witness :
  exists t',
    insert 1 QuadTreeAABB.zero 2 full_leaf far = Ret true t' /\
    Permutation (all_live t') (QuadTreeObject.stored far :: all_live full_leaf) /\
    get_total_objects t' = 2.
Proof.
  eexists. split; [reflexivity|].
  destruct (insert_adds_one_object 1 QuadTreeAABB.zero 2 full_leaf far _
              reachable_full_leaf eq_refl) as (H1 & H2 & _).
  split; [exact H1 | exact H2].
Defined.

Lemma insert_failure_stores_nothing_witness :
  all_live (split 1 QuadTreeAABB.zero full_leaf) = all_live full_leaf /\
  has_children_ (split 1 QuadTreeAABB.zero full_leaf) = true.
Proof.
  destruct (insert_failure_stores_nothing 1 QuadTreeAABB.zero 2 full_leaf on_centre_line
              reachable_full_leaf) as [_ Hthrow].
  destruct (Hthrow (split 1 QuadTreeAABB.zero full_leaf) eq_refl) as (H1 & _ & H2 & _).
  split; assumption.
Defined.

Lemma remove_takes_one_object_witness :
  exists t',
    remove two_level far = RRet true t' /\
    get_total_objects two_level = S (get_total_objects t') /\
    bounds (data t') = bounds (data two_level).
Proof.
  eexists. split; [reflexivity|].
  destruct (remove_takes_one_object 1 QuadTreeAABB.zero two_level far _
              reachable_two_level eq_refl) as (_ & H2 & H3).
  split; assumption.
Defined.

Lemma children_sit_on_quadrants_witness : every_node quartered two_level.
Proof.
  apply (children_sit_on_quadrants 1 QuadTreeAABB.zero two_level reachable_two_level).
Defined.

Lemma insert_valid_object_succeeds_witness :
  exists t', insert 1 QuadTreeAABB.zero 3 two_level inner = Ret true t'.
Proof.
  apply (insert_valid_object_succeeds 1 QuadTreeAABB.zero two_level inner 3
           reachable_two_level).
  - lia.
  - reflexivity.
  - reflexivity.
  - cbn. lia.
Defined.

Lemma remove_stored_object_succeeds_witness :
  exists t',
    remove two_level far = RRet true t' /\
    Permutation (QuadTreeObject.stored far :: all_live t') (all_live two_level) /\
    ~ In (QuadTreeObject.stored far) (all_live t').
Proof.
  apply (remove_stored_object_succeeds 1 QuadTreeAABB.zero two_level
           (QuadTreeObject.stored far) far reachable_two_level).
  - cbn. repeat constructor; cbn; intuition discriminate.
  - cbn. auto.
  - reflexivity.
  - reflexivity.
Defined.

Lemma stored_objects_placement_witness :
  every_node placed two_level /\ every_node first_fit two_level.
Proof.
  apply (stored_objects_placement 1 QuadTreeAABB.zero two_level reachable_two_level).
Defined.

Lemma max_bounds_tracks_last_slots_witness : every_node tracks two_level.
Proof.
  apply (max_bounds_tracks_last_slots 1 QuadTreeAABB.zero two_level reachable_two_level).
Defined.

Lemma single_slot_aggregate_sound_witness : every_node aggregate_sound two_level.
Proof.
  apply (single_slot_aggregate_sound 1 QuadTreeAABB.zero two_level);
    [lia | exact reachable_two_level].
Defined.

Lemma insert_terminates_witness :
  insert 1 QuadTreeAABB.zero 3 two_level on_centre_line <> Diverge /\
  insert 1 QuadTreeAABB.zero 7 two_level on_centre_line =
  insert 1 QuadTreeAABB.zero 3 two_level on_centre_line.
Proof.
  apply (insert_terminates 1 QuadTreeAABB.zero two_level on_centre_line 3 7); cbn; lia.
Defined.

Lemma other_objects_survive_remove_witness :
  exists t',
    remove two_level far = RRet true t' /\
    In (QuadTreeObject.stored near) (all_live t') /\
    In (QuadTreeObject.stored near) (query_buffer t' universe true []) /\
    In (QuadTreeObject.stored near) (query_vector t' universe true []).
Proof.
  eexists. split; [reflexivity|].
  destruct (other_objects_survive_remove 1 QuadTreeAABB.zero two_level far _
              (QuadTreeObject.stored near) universe true
              reachable_two_level eq_refl) as (H1 & H2).
  - cbn. auto.
  - cbn. discriminate.
  - split; [exact H1|]. apply H2; [reflexivity|].
    unfold QuadTreeAABB.covers. cbn. lia.
Defined.

Lemma zero_capacity_insert_never_returns_witness :
  insert 0 QuadTreeAABB.zero 9 (QuadTree_new 0 QuadTreeAABB.zero universe) near = Diverge.
Proof.
  apply (zero_capacity_insert_never_returns 0 QuadTreeAABB.zero
           (QuadTree_new 0 QuadTreeAABB.zero universe) near 9 eq_refl (reach_new _ _ _));
    reflexivity.
Defined.

Lemma freed_slot_is_reused_witness :
  exists t1,
    remove two_level near = RRet true t1 /\
    exists t2,
      insert 1 QuadTreeAABB.zero 1 t1 inner = Ret true t2 /\
      get_children t2 = get_children t1 /\
      In (QuadTreeObject.stored inner) (objects (data t2)).
Proof.
  destruct (freed_slot_is_reused 1 QuadTreeAABB.zero two_level near
              reachable_two_level eq_refl) as (t1 & Hrem & Hnext).
  exists t1. split; [exact Hrem|].
  destruct (Hnext 0 inner eq_refl) as (t2 & H1 & H2 & H3 & _).
  exists t2. auto.
Defined.
